(** * image-sync: the task registry, the skopeo executor and the task query layer

    A shallow embedding of the Go back end of lazycatapps/image-sync:

    - [internal/models]      the [SyncTask] entity with its log buffer and listeners,
    - [internal/repository]  the in-memory task repository,
    - [internal/service]     [CreateSyncTask], [ExecuteSync], [buildSkopeoArgs],
                             [readOutput], [handleTaskError], [ListTasks],
                             [sortTasks] and [sanitizeCommand],
    - [internal/handler]     the listener side of [StreamLogs].

    Go strings are byte strings ([string]); Go's [int] is the 64-bit two's
    complement integer, kept in [Z] with the wrap-around written out; a
    [time.Time] is an instant on a totally ordered clock ([Z]); a pointer to a
    task is an address in a heap ([gmap]); a buffered [chan string] is an address
    in a store of channel states. *)

From Stdlib Require Import ZArith String Ascii List Lia DecimalString Permutation Sorted.
From stdpp Require Import gmap strings list.

#[local] Arguments String.append : simpl nomatch.

(* ===================================================================== *)
(** * The parts of Go's standard library the service calls *)
(* ===================================================================== *)

Module GoStrings.

(** [fmt.Sprintf("%d", n)]: signed decimal. *)
Definition itoa (n : Z) : string := NilZero.string_of_int (Z.to_int n).

(** [fmt.Sprintf("%v", b)] for a bool. *)
Definition fmtBool (b : bool) : string := if b then "true" else "false".

(** [strings.HasPrefix(s, prefix)]. *)
Definition HasPrefix (s prefix : string) : bool := String.prefix prefix s.

(** [strings.Split(s, sep)] for a one-byte separator, the only kind the
    service passes.  An empty input gives one empty field. *)
Fixpoint Split (s : string) (sep : ascii) : list string :=
  match s with
  | EmptyString => [EmptyString]
  | String c s' =>
      if Ascii.eqb c sep then EmptyString :: Split s' sep
      else match Split s' sep with
           | h :: t => String c h :: t
           | [] => [String c EmptyString]
           end
  end.

(** [strings.Join(elems, sep)]. *)
Fixpoint Join (elems : list string) (sep : string) : string :=
  match elems with
  | [] => ""
  | [e] => e
  | e :: rest => e +:+ sep +:+ Join rest sep
  end.

Definition rev_string (s : string) : string :=
  string_of_list_ascii (rev (list_ascii_of_string s)).

Definition bytes (l : list nat) : string :=
  string_of_list_ascii (map ascii_of_nat l).

(** The six ASCII white-space bytes of Go's [asciiSpace] table. *)
Definition asciiSpace (c : ascii) : bool :=
  match c with
  | "009" | "010" | "011" | "012" | "013" | " " => true
  | _ => false
  end%char.

(** UTF-8 encodings of the other runes for which [unicode.IsSpace] holds:
    U+0085, U+00A0, U+1680, U+2000..U+200A, U+2028, U+2029, U+202F, U+205F,
    U+3000. *)
Definition unicodeSpaces : list string :=
  map bytes
    ([ [194; 133]; [194; 160]; [225; 154; 128] ]
     ++ map (fun k => [226; 128; k]) (seq 128 11)
     ++ [ [226; 128; 168]; [226; 128; 169]; [226; 128; 175];
          [226; 129; 159]; [227; 128; 128] ]).

Fixpoint dropBytes (n : nat) (s : string) : string :=
  match n, s with
  | S k, String _ r => dropBytes k r
  | _, _ => s
  end.

(** The input without its first rune when that rune is white space.  The
    table [pats] lists the multi-byte encodings to recognise. *)
Definition dropSpace (pats : list string) (s : string) : option string :=
  match s with
  | EmptyString => None
  | String c r =>
      if asciiSpace c then Some r
      else match find (fun p => String.prefix p s) pats with
           | Some p => Some (dropBytes (String.length p) s)
           | None => None
           end
  end.

Fixpoint trimWith (pats : list string) (fuel : nat) (s : string) : string :=
  match fuel with
  | O => s
  | S f => match dropSpace pats s with
           | Some r => trimWith pats f r
           | None => s
           end
  end.

Definition TrimLeftSpace (s : string) : string :=
  trimWith unicodeSpaces (String.length s) s.

Definition TrimRightSpace (s : string) : string :=
  rev_string (trimWith (map rev_string unicodeSpaces) (String.length s) (rev_string s)).

(** [strings.TrimSpace(s)]: all leading and trailing white-space runes
    removed. *)
Definition TrimSpace (s : string) : string := TrimRightSpace (TrimLeftSpace s).

(** [strings.Contains(s, substr)], as a proposition. *)
Definition Contains (s sub : string) : Prop :=
  exists pre post, s = pre +:+ sub +:+ post.

Fixpoint occurs (c : ascii) (s : string) : bool :=
  match s with
  | EmptyString => false
  | String d r => Ascii.eqb c d || occurs c r
  end.

(** [strings.Contains(s, substr)], decided. *)
Fixpoint ContainsB (s substr : string) : bool :=
  String.prefix substr s
  || match s with
     | EmptyString => false
     | String _ r => ContainsB r substr
     end.

End GoStrings.
Import GoStrings.

Example Split_two : Split "linux/amd64" "/" = ["linux"; "amd64"].
Proof. reflexivity. Qed.

Example Split_empty : Split "" "/" = [""].
Proof. reflexivity. Qed.

Example Split_trailing : Split "linux/" "/" = ["linux"; ""].
Proof. reflexivity. Qed.

Example Join_three : Join ["a"; "b"; "c"] " " = "a b c".
Proof. reflexivity. Qed.

Example TrimSpace_ascii : TrimSpace (bytes [32; 9; 97; 32; 98; 13; 10]) = "a b".
Proof. vm_compute. reflexivity. Qed.

Example TrimSpace_nbsp : TrimSpace (bytes [194; 160; 97; 226; 128; 137]) = "a".
Proof. vm_compute. reflexivity. Qed.

Example TrimSpace_blank : TrimSpace (bytes [32; 10]) = "".
Proof. vm_compute. reflexivity. Qed.

Example itoa_600 : itoa 600%Z = "600".
Proof. reflexivity. Qed.

Example itoa_neg : itoa (-5)%Z = "-5".
Proof. reflexivity. Qed.

(* ===================================================================== *)
(** * internal/models: the task entity *)
(* ===================================================================== *)

Module Models.

(** [type SyncStatus string] with its four constants. *)
Definition SyncStatus := string.
Definition StatusPending : SyncStatus := "pending".
Definition StatusRunning : SyncStatus := "running".
Definition StatusCompleted : SyncStatus := "completed".
Definition StatusFailed : SyncStatus := "failed".

(** Completed and Failed are the terminal states. *)
Definition terminal (s : SyncStatus) : bool :=
  String.eqb s StatusCompleted || String.eqb s StatusFailed.

(** A [chan string] made by [make(chan string, 100)]: the lines waiting in
    its buffer, oldest first, and whether it was closed. *)
Record chan := mkChan {
  chan_buf : list string;
  chan_closed : bool
}.

Definition chanCap : nat := 100.

(** Channels live in a store, by address; a task holds addresses. *)
Definition chanref := nat.

(** [SyncTask].  [LogListeners] holds channel addresses; the mutex [logMu]
    is the atomicity of each method below. *)
Record SyncTask := mkSyncTask {
  ID : string;
  SourceImage : string;
  DestImage : string;
  Architecture : string;
  Status : SyncStatus;
  Message : string;
  Output : string;
  ErrorOutput : string;
  StartTime : Z;
  EndTime : option Z;
  LogLines : list string;
  LogListeners : list chanref
}.

Definition set_Status (v : SyncStatus) (t : SyncTask) : SyncTask :=
  mkSyncTask (ID t) (SourceImage t) (DestImage t) (Architecture t) v (Message t)
    (Output t) (ErrorOutput t) (StartTime t) (EndTime t) (LogLines t) (LogListeners t).

Definition set_Message (v : string) (t : SyncTask) : SyncTask :=
  mkSyncTask (ID t) (SourceImage t) (DestImage t) (Architecture t) (Status t) v
    (Output t) (ErrorOutput t) (StartTime t) (EndTime t) (LogLines t) (LogListeners t).

Definition set_Output (v : string) (t : SyncTask) : SyncTask :=
  mkSyncTask (ID t) (SourceImage t) (DestImage t) (Architecture t) (Status t) (Message t)
    v (ErrorOutput t) (StartTime t) (EndTime t) (LogLines t) (LogListeners t).

Definition set_ErrorOutput (v : string) (t : SyncTask) : SyncTask :=
  mkSyncTask (ID t) (SourceImage t) (DestImage t) (Architecture t) (Status t) (Message t)
    (Output t) v (StartTime t) (EndTime t) (LogLines t) (LogListeners t).

Definition set_EndTime (v : option Z) (t : SyncTask) : SyncTask :=
  mkSyncTask (ID t) (SourceImage t) (DestImage t) (Architecture t) (Status t) (Message t)
    (Output t) (ErrorOutput t) (StartTime t) v (LogLines t) (LogListeners t).

Definition set_LogLines (v : list string) (t : SyncTask) : SyncTask :=
  mkSyncTask (ID t) (SourceImage t) (DestImage t) (Architecture t) (Status t) (Message t)
    (Output t) (ErrorOutput t) (StartTime t) (EndTime t) v (LogListeners t).

Definition set_LogListeners (v : list chanref) (t : SyncTask) : SyncTask :=
  mkSyncTask (ID t) (SourceImage t) (DestImage t) (Architecture t) (Status t) (Message t)
    (Output t) (ErrorOutput t) (StartTime t) (EndTime t) (LogLines t) v.

(** [NewSyncTask]; [now] is the reading of [time.Now()]. *)
Definition NewSyncTask (now : Z) (id sourceImage destImage architecture : string) : SyncTask :=
  mkSyncTask id sourceImage destImage architecture StatusPending "Task created"
    "" "" now None [] [].

(** The task object together with the channels its listeners point to: what
    one critical section of [logMu] reads and writes. *)
Record Hub := mkHub {
  hub_task : SyncTask;
  hub_chans : gmap chanref chan
}.

(** [select { case ch <- line: default: }] on one channel: the line is
    queued when the buffer has room and dropped otherwise. *)
Definition trySend (line : string) (c : chan) : chan :=
  if Nat.ltb (length (chan_buf c)) chanCap
  then mkChan (chan_buf c ++ [line]) (chan_closed c)
  else c.

Definition closeChan (c : chan) : chan := mkChan (chan_buf c) true.

(** [AddLog]: append the line, then offer it to every listener. *)
Definition AddLog (line : string) (h : Hub) : Hub :=
  mkHub (set_LogLines (LogLines (hub_task h) ++ [line]) (hub_task h))
        (foldl (fun cs r => alter (trySend line) r cs) (hub_chans h)
               (LogListeners (hub_task h))).

(** [AddLogListener]: a fresh channel, registered last. *)
Definition AddLogListener (h : Hub) : chanref * Hub :=
  let r := fresh (dom (hub_chans h)) in
  (r, mkHub (set_LogListeners (LogListeners (hub_task h) ++ [r]) (hub_task h))
            (<[r := mkChan [] false]> (hub_chans h))).

(** The loop of [RemoveLogListener]: drop the first occurrence. *)
Fixpoint removeFirst (r : chanref) (l : list chanref) : option (list chanref) :=
  match l with
  | [] => None
  | x :: rest =>
      if Nat.eqb x r then Some rest
      else match removeFirst r rest with
           | Some rest' => Some (x :: rest')
           | None => None
           end
  end.

(** [RemoveLogListener]: deregister and close the channel when it is
    registered, nothing otherwise. *)
Definition RemoveLogListener (r : chanref) (h : Hub) : Hub :=
  match removeFirst r (LogListeners (hub_task h)) with
  | Some l => mkHub (set_LogListeners l (hub_task h)) (alter closeChan r (hub_chans h))
  | None => h
  end.

(** [CloseAllLogListeners]: close every registered channel, then forget
    them all. *)
Definition CloseAllLogListeners (h : Hub) : Hub :=
  mkHub (set_LogListeners [] (hub_task h))
        (foldl (fun cs r => alter closeChan r cs) (hub_chans h)
               (LogListeners (hub_task h))).

(** [GetLogLines]: a copy of the log so far. *)
Definition GetLogLines (h : Hub) : list string := LogLines (hub_task h).

(** [SyncRequest]; the pointer fields are options. *)
Record SyncRequest := mkSyncRequest {
  req_SourceImage : string;
  req_DestImage : string;
  SourceUsername : string;
  SourcePassword : string;
  DestUsername : string;
  DestPassword : string;
  req_Architecture : string;
  SrcTLSVerify : option bool;
  DestTLSVerify : option bool;
  RetryTimes : option Z
}.

(** [TaskListRequest]. *)
Record TaskListRequest := mkTaskListRequest {
  Page : Z;
  PageSize : Z;
  req_Status : SyncStatus;
  SortBy : string;
  SortOrder : string
}.

(** [TaskSummary]. *)
Record TaskSummary := mkTaskSummary {
  sum_ID : string;
  sum_SourceImage : string;
  sum_DestImage : string;
  sum_Architecture : string;
  sum_Status : SyncStatus;
  sum_Message : string;
  sum_StartTime : Z;
  sum_EndTime : option Z
}.

(** [TaskListResponse]. *)
Record TaskListResponse := mkTaskListResponse {
  Total : Z;
  resp_Page : Z;
  resp_PageSize : Z;
  Tasks : list TaskSummary
}.

End Models.
Import Models.

(* ===================================================================== *)
(** * Go error values *)
(* ===================================================================== *)

Module GoErrors.

(** The error values that reach the service, with their [Error()] text. *)
Inductive error :=
| ErrTaskNotFound                          (* repository.ErrTaskNotFound *)
| ExitError (code : Z)                     (* *exec.ExitError: the process exited with this status *)
| ErrOther (msg : string)                  (* any other error, by its message *)
| Wrapped (msg : string) (inner : error).  (* fmt.Errorf("<msg>: %w", inner) *)

Fixpoint Error (e : error) : string :=
  match e with
  | ErrTaskNotFound => "task not found"
  | ExitError code => "exit status " +:+ itoa code
  | ErrOther msg => msg
  | Wrapped msg inner => msg +:+ ": " +:+ Error inner
  end.

End GoErrors.
Import GoErrors.

(* ===================================================================== *)
(** * internal/repository: the in-memory task repository *)
(* ===================================================================== *)

Module Repository.

(** A [*models.SyncTask] is an address in the heap of task objects. *)
Definition ptr := nat.

(** [Create]: store the pointer under the task's identifier.  [None] is the
    nil dereference of [task.ID]. *)
Definition Create (hp : gmap ptr SyncTask) (tasks : gmap string ptr) (task : ptr)
  : option (gmap string ptr * option error) :=
  match hp !! task with
  | Some t => Some (<[ID t := task]> tasks, None)
  | None => None
  end.

(** [Get]. *)
Definition Get (tasks : gmap string ptr) (id : string) : option ptr * option error :=
  match tasks !! id with
  | Some p => (Some p, None)
  | None => (None, Some ErrTaskNotFound)
  end.

(** [Update]: like [Create], but the identifier must be stored already. *)
Definition Update (hp : gmap ptr SyncTask) (tasks : gmap string ptr) (task : ptr)
  : option (gmap string ptr * option error) :=
  match hp !! task with
  | Some t =>
      match tasks !! ID t with
      | Some _ => Some (<[ID t := task]> tasks, None)
      | None => Some (tasks, Some ErrTaskNotFound)
      end
  | None => None
  end.

(** [Delete]. *)
Definition Delete (tasks : gmap string ptr) (id : string) : gmap string ptr * option error :=
  match tasks !! id with
  | Some _ => (delete id tasks, None)
  | None => (tasks, Some ErrTaskNotFound)
  end.

(** Every stored pointer is stored under the identifier of the task it
    points to: what [Create] and [Update] establish, since they are the only
    writers and [ID] is never assigned after [NewSyncTask]. *)
Definition keyed (hp : gmap ptr SyncTask) (tasks : gmap string ptr) : Prop :=
  forall (k : string) (q : ptr), tasks !! k = Some q ->
    exists t, hp !! q = Some t /\ ID t = k.

Lemma keyed_empty (hp : gmap ptr SyncTask) : keyed hp ∅.
Proof. intros k q H. rewrite lookup_empty in H. discriminate. Qed.

Lemma keyed_insert (hp : gmap ptr SyncTask) (tasks : gmap string ptr) (p : ptr) (t : SyncTask) :
  keyed hp tasks -> hp !! p = Some t -> keyed hp (<[ID t := p]> tasks).
Proof.
  intros Hk Hp k q Hq.
  destruct (decide (ID t = k)) as [<-|Hne].
  - rewrite lookup_insert_eq in Hq. injection Hq as <-. eauto.
  - rewrite lookup_insert_ne in Hq by done. eauto.
Qed.

Lemma Create_keyed hp tasks p tasks' e :
  keyed hp tasks -> Create hp tasks p = Some (tasks', e) -> keyed hp tasks'.
Proof.
  unfold Create. intros Hk H. destruct (hp !! p) as [t|] eqn:Hp; [|discriminate].
  injection H as <- _. by apply keyed_insert.
Qed.

Lemma Update_keyed hp tasks p tasks' e :
  keyed hp tasks -> Update hp tasks p = Some (tasks', e) -> keyed hp tasks'.
Proof.
  unfold Update. intros Hk H. destruct (hp !! p) as [t|] eqn:Hp; [|discriminate].
  destruct (tasks !! ID t); injection H as <- _; [by apply keyed_insert|done].
Qed.

Lemma Delete_keyed hp tasks id :
  keyed hp tasks -> keyed hp (Delete tasks id).1.
Proof.
  unfold Delete. intros Hk. destruct (tasks !! id) eqn:E; simpl; [|done].
  intros k q Hq. apply lookup_delete_Some in Hq as [_ Hq]. eauto.
Qed.

(** C10.  [Create] succeeds for every task, also when the identifier is
    already stored: it returns a nil error and the repository in which the
    identifier maps to the new pointer.  When another pointer [old] was stored
    under that identifier, [Get] of the identifier now gives the new pointer,
    and (in a repository whose entries are stored under their own identifiers)
    no identifier gives [old] any more. *)
Theorem Create_never_fails_and_replaces
    (hp : gmap ptr SyncTask) (tasks : gmap string ptr) (task : ptr) (t : SyncTask) :
  hp !! task = Some t ->
  Create hp tasks task = Some (<[ID t := task]> tasks, None)
  /\ Get (<[ID t := task]> tasks) (ID t) = (Some task, None)
  /\ forall old : ptr, tasks !! ID t = Some old -> old <> task ->
       keyed hp tasks ->
       forall id : string, (Get (<[ID t := task]> tasks) id).1 <> Some old.
Proof.
  intros Hp. unfold Create, Get. rewrite Hp, lookup_insert_eq.
  split; [done|]. split; [done|].
  intros old Hold Hne Hk id.
  destruct (decide (ID t = id)) as [<-|Hid].
  - rewrite lookup_insert_eq. simpl. congruence.
  - rewrite lookup_insert_ne by done.
    destruct (tasks !! id) as [q|] eqn:Hq; simpl; [|done].
    intros [= ->].
    destruct (Hk _ _ Hq) as (t1 & H1 & E1), (Hk _ _ Hold) as (t2 & H2 & E2).
    congruence.
Qed.

(** The theorem at a repository that already holds "a" at address 0, when a
    second task "a" at address 1 is created: address 0 is no longer reachable. *)
Lemma Create_never_fails_and_replaces_witness :
  let hp : gmap ptr SyncTask :=
    <[1%nat := NewSyncTask 7 "a" "src2" "dst2" "all"]>
      (<[0%nat := NewSyncTask 5 "a" "src" "dst" "all"]> ∅) in
  let tasks : gmap string ptr := <["a" := 0%nat]> ∅ in
  Create hp tasks 1%nat = Some (<["a" := 1%nat]> tasks, None)
  /\ Get (<["a" := 1%nat]> tasks) "a" = (Some 1%nat, None)
  /\ forall id : string, (Get (<["a" := 1%nat]> tasks) id).1 <> Some 0%nat.
Proof.
  intros hp tasks.
  destruct (Create_never_fails_and_replaces hp tasks 1%nat
              (NewSyncTask 7 "a" "src2" "dst2" "all") eq_refl) as (H1 & H2 & H3).
  split; [exact H1|]. split; [exact H2|].
  apply (H3 0%nat); [reflexivity|lia|].
  intros k q Hq. unfold tasks in Hq.
  apply lookup_insert_Some in Hq as [[<- <-]|[_ Hq]].
  - eexists. split; reflexivity.
  - rewrite lookup_empty in Hq. discriminate.
Defined.

End Repository.
Import Repository.

(* ===================================================================== *)
(** * internal/service: command construction *)
(* ===================================================================== *)

Module Command.

(** The defaulting of [CreateSyncTask]: an empty selector means "all". *)
Definition defaultArchitecture (architecture : string) : string :=
  if String.eqb architecture "" then "all" else architecture.

(** The task object [CreateSyncTask] makes for a request; [now] is
    [time.Now()] and [taskID] the new UUID. *)
Definition newTaskFor (now : Z) (taskID : string) (req : SyncRequest) : SyncTask :=
  NewSyncTask now taskID (req_SourceImage req) (req_DestImage req)
    (defaultArchitecture (req_Architecture req)).

(** [buildSkopeoArgs]: the argument vector, and the lines it adds to the
    task log on the way (its only effect on the task), in order. *)
Definition buildSkopeoArgs (task : SyncTask) (req : SyncRequest) : list string * list string :=
  let args := ["copy"] in
  let logs := [] in
  let srcTLSVerify := match SrcTLSVerify req with Some b => b | None => true end in
  let destTLSVerify := match DestTLSVerify req with Some b => b | None => true end in
  let args := args ++ ["--src-tls-verify=" +:+ fmtBool srcTLSVerify] in
  let args := args ++ ["--dest-tls-verify=" +:+ fmtBool destTLSVerify] in
  let '(args, logs) :=
    if negb (String.eqb (SourceUsername req) "") && negb (String.eqb (SourcePassword req) "")
    then (args ++ ["--src-creds"; SourceUsername req +:+ ":" +:+ SourcePassword req],
          logs ++ ["Using source credentials"])
    else (args, logs) in
  let '(args, logs) :=
    if negb (String.eqb (DestUsername req) "") && negb (String.eqb (DestPassword req) "")
    then (args ++ ["--dest-creds"; DestUsername req +:+ ":" +:+ DestPassword req],
          logs ++ ["Using destination credentials"])
    else (args, logs) in
  let '(args, logs) :=
    if String.eqb (Architecture task) "all"
    then (args ++ ["--all"], logs ++ ["Copying all architectures"])
    else if negb (String.eqb (Architecture task) "")
    then
      let parts := Split (Architecture task) "/" in
      match parts with
      | p0 :: p1 :: more =>
          let args := args ++ ["--override-os"; p0] in
          let args := args ++ ["--override-arch"; p1] in
          let args := match more with
                      | p2 :: _ => args ++ ["--override-variant"; p2]
                      | [] => args
                      end in
          (args, logs ++ ["Copying architecture: " +:+ Architecture task])
      | _ => (args, logs)
      end
    else (args, logs) in
  let args := args ++ ["docker://" +:+ SourceImage task] in
  let args := args ++ ["docker://" +:+ DestImage task] in
  (args, logs).

(** The loop of [sanitizeCommand]; [skipNext] is its flag. *)
Fixpoint sanitizeArgs (skipNext : bool) (args : list string) : list string :=
  match args with
  | [] => []
  | arg :: rest =>
      if skipNext then "***:***" :: sanitizeArgs false rest
      else if HasPrefix arg "--src-creds=" || HasPrefix arg "--dest-creds="
      then (hd "" (Split arg "=") +:+ "=***:***") :: sanitizeArgs false rest
      else if String.eqb arg "--creds" || String.eqb arg "--src-creds"
              || String.eqb arg "--dest-creds"
      then arg :: sanitizeArgs true rest
      else arg :: sanitizeArgs false rest
  end.

(** [sanitizeCommand]. *)
Definition sanitizeCommand (args : list string) : string :=
  "skopeo " +:+ Join (sanitizeArgs false args) " ".

(** The line [ExecuteSync] logs before it starts the process. *)
Definition executingLine (task : SyncTask) (req : SyncRequest) : string :=
  "Executing: " +:+ sanitizeCommand (buildSkopeoArgs task req).1.

(** ** How the external tool reads an argument vector

    The options of skopeo that the service passes with a separate value
    consume the token that follows them; every other token stands alone. *)
Definition takesValue (a : string) : bool :=
  String.eqb a "--src-creds" || String.eqb a "--dest-creds"
  || String.eqb a "--override-os" || String.eqb a "--override-arch"
  || String.eqb a "--override-variant".

Fixpoint optionsFrom (pending : option string) (args : list string)
  : list (string * option string) :=
  match args with
  | [] => match pending with Some f => [(f, None)] | None => [] end
  | a :: rest =>
      match pending with
      | Some f => (f, Some a) :: optionsFrom None rest
      | None => if takesValue a then optionsFrom (Some a) rest
                else (a, None) :: optionsFrom None rest
      end
  end.

Definition options (args : list string) : list (string * option string) :=
  optionsFrom None args.

(** The options that select architectures. *)
Definition isArchOption (o : string * option string) : bool :=
  String.eqb o.1 "--all" || String.eqb o.1 "--override-os"
  || String.eqb o.1 "--override-arch" || String.eqb o.1 "--override-variant".

Definition isOverrideOption (o : string * option string) : bool :=
  String.eqb o.1 "--override-os" || String.eqb o.1 "--override-arch"
  || String.eqb o.1 "--override-variant".

Definition archOptions (args : list string) : list (string * option string) :=
  List.filter isArchOption (options args).

(** Two requests that differ at most in the values of their credentials:
    the TLS settings agree, and each credential field is empty in both or in
    neither.  (The images and the selector are the task's.) *)
Definition sameButCredentials (r1 r2 : SyncRequest) : Prop :=
  SrcTLSVerify r1 = SrcTLSVerify r2 /\ DestTLSVerify r1 = DestTLSVerify r2
  /\ String.eqb (SourceUsername r1) "" = String.eqb (SourceUsername r2) ""
  /\ String.eqb (SourcePassword r1) "" = String.eqb (SourcePassword r2) ""
  /\ String.eqb (DestUsername r1) "" = String.eqb (DestUsername r2) ""
  /\ String.eqb (DestPassword r1) "" = String.eqb (DestPassword r2) "".

Definition isCredsOption (f : string) : bool :=
  String.eqb f "--src-creds" || String.eqb f "--dest-creds".

End Command.
Import Command.

Section CommandExamples.

Let task := NewSyncTask 0 "id" "nginx:latest" "reg.example.com/nginx:latest" "linux/arm/v7".
Let req := mkSyncRequest "nginx:latest" "reg.example.com/nginx:latest"
             "alice" "s3cret" "bob" "" "linux/arm/v7" (Some false) None None.

Example buildSkopeoArgs_example :
  (buildSkopeoArgs task req).1 =
  ["copy"; "--src-tls-verify=false"; "--dest-tls-verify=true";
   "--src-creds"; "alice:s3cret";
   "--override-os"; "linux"; "--override-arch"; "arm"; "--override-variant"; "v7";
   "docker://nginx:latest"; "docker://reg.example.com/nginx:latest"].
Proof. reflexivity. Qed.

Example sanitizeCommand_example :
  sanitizeCommand (buildSkopeoArgs task req).1 =
  "skopeo copy --src-tls-verify=false --dest-tls-verify=true --src-creds ***:*** --override-os linux --override-arch arm --override-variant v7 docker://nginx:latest docker://reg.example.com/nginx:latest".
Proof. reflexivity. Qed.

Example options_example :
  options (buildSkopeoArgs task req).1 =
  [("copy", None); ("--src-tls-verify=false", None); ("--dest-tls-verify=true", None);
   ("--src-creds", Some "alice:s3cret");
   ("--override-os", Some "linux"); ("--override-arch", Some "arm");
   ("--override-variant", Some "v7");
   ("docker://nginx:latest", None); ("docker://reg.example.com/nginx:latest", None)].
Proof. reflexivity. Qed.

End CommandExamples.

(* ===================================================================== *)
(** * Command construction: the layout of the argument vector *)
(* ===================================================================== *)

Lemma occurs_app (c : ascii) (a b : string) :
  occurs c (a +:+ b) = occurs c a || occurs c b.
Proof. induction a as [|d a IH]; simpl; [done|]. rewrite IH. by rewrite orb_assoc. Qed.

Lemma occurs_eq (c : ascii) (a b : string) : a = b -> occurs c a = occurs c b.
Proof. by intros ->. Qed.

(** The pieces [buildSkopeoArgs] appends, one per step of its body. *)
Definition credArgs (flag user pass : string) : list string :=
  if negb (String.eqb user "") && negb (String.eqb pass "")
  then [flag; user +:+ ":" +:+ pass] else [].

Definition archArgs (architecture : string) : list string :=
  if String.eqb architecture "all" then ["--all"]
  else if negb (String.eqb architecture "") then
    match Split architecture "/" with
    | p0 :: p1 :: more =>
        ["--override-os"; p0; "--override-arch"; p1]
        ++ match more with p2 :: _ => ["--override-variant"; p2] | [] => [] end
    | _ => []
    end
  else [].

Definition tlsArgs (req : SyncRequest) : list string :=
  ["copy";
   "--src-tls-verify=" +:+ fmtBool (default true (SrcTLSVerify req));
   "--dest-tls-verify=" +:+ fmtBool (default true (DestTLSVerify req))].

Definition imageArgs (task : SyncTask) : list string :=
  ["docker://" +:+ SourceImage task; "docker://" +:+ DestImage task].

Lemma buildSkopeoArgs_layout (task : SyncTask) (req : SyncRequest) :
  (buildSkopeoArgs task req).1 =
  tlsArgs req
  ++ credArgs "--src-creds" (SourceUsername req) (SourcePassword req)
  ++ credArgs "--dest-creds" (DestUsername req) (DestPassword req)
  ++ archArgs (Architecture task)
  ++ imageArgs task.
Proof.
  unfold buildSkopeoArgs, credArgs, archArgs, tlsArgs, imageArgs.
  destruct (SrcTLSVerify req), (DestTLSVerify req);
  destruct (negb (String.eqb (SourceUsername req) "") && negb (String.eqb (SourcePassword req) ""));
  destruct (negb (String.eqb (DestUsername req) "") && negb (String.eqb (DestPassword req) ""));
  destruct (String.eqb (Architecture task) "all");
  destruct (String.eqb (Architecture task) "");
  destruct (Split (Architecture task) "/") as [|p0 [|p1 [|p2 more]]];
  reflexivity.
Qed.

Definition credOpts (flag user pass : string) : list (string * option string) :=
  if negb (String.eqb user "") && negb (String.eqb pass "")
  then [(flag, Some (user +:+ ":" +:+ pass))] else [].

Definition archOpts (architecture : string) : list (string * option string) :=
  if String.eqb architecture "all" then [("--all", None)]
  else if negb (String.eqb architecture "") then
    match Split architecture "/" with
    | p0 :: p1 :: more =>
        [("--override-os", Some p0); ("--override-arch", Some p1)]
        ++ match more with p2 :: _ => [("--override-variant", Some p2)] | [] => [] end
    | _ => []
    end
  else [].

Lemma options_layout (task : SyncTask) (req : SyncRequest) :
  options (buildSkopeoArgs task req).1 =
  map (fun a => (a, None)) (tlsArgs req)
  ++ credOpts "--src-creds" (SourceUsername req) (SourcePassword req)
  ++ credOpts "--dest-creds" (DestUsername req) (DestPassword req)
  ++ archOpts (Architecture task)
  ++ map (fun a => (a, None)) (imageArgs task).
Proof.
  rewrite buildSkopeoArgs_layout.
  unfold options, credArgs, credOpts, archArgs, archOpts, tlsArgs, imageArgs.
  destruct (negb (String.eqb (SourceUsername req) "") && negb (String.eqb (SourcePassword req) ""));
  destruct (negb (String.eqb (DestUsername req) "") && negb (String.eqb (DestPassword req) ""));
  destruct (String.eqb (Architecture task) "all");
  destruct (String.eqb (Architecture task) "");
  destruct (Split (Architecture task) "/") as [|p0 [|p1 [|p2 more]]];
  reflexivity.
Qed.

Lemma given_iff (user pass : string) :
  negb (String.eqb user "") && negb (String.eqb pass "") = true
  <-> user <> "" /\ pass <> "".
Proof.
  rewrite andb_true_iff, !negb_true_iff, !String.eqb_neq. tauto.
Qed.

Lemma archOpts_isArch (a : string) (o : string * option string) :
  In o (archOpts a) -> isArchOption o = true.
Proof.
  unfold archOpts.
  destruct (String.eqb a "all"); [intros [<-|[]]; reflexivity|].
  destruct (negb (String.eqb a "")); [|intros []].
  destruct (Split a "/") as [|p0 [|p1 [|p2 more]]]; simpl; intuition (subst; reflexivity).
Qed.

Lemma credOpts_In (flag user pass : string) (o : string * option string) :
  In o (credOpts flag user pass) <->
  o = (flag, Some (user +:+ ":" +:+ pass)) /\ user <> "" /\ pass <> "".
Proof.
  unfold credOpts. rewrite <- given_iff.
  destruct (negb (String.eqb user "") && negb (String.eqb pass "")); simpl.
  - intuition.
  - intuition discriminate.
Qed.

Lemma In_options_creds (task : SyncTask) (req : SyncRequest) (f : string) (v : option string) :
  isCredsOption f = true ->
  In (f, v) (options (buildSkopeoArgs task req).1) <->
  (f = "--src-creds" /\ v = Some (SourceUsername req +:+ ":" +:+ SourcePassword req)
     /\ SourceUsername req <> "" /\ SourcePassword req <> "")
  \/ (f = "--dest-creds" /\ v = Some (DestUsername req +:+ ":" +:+ DestPassword req)
     /\ DestUsername req <> "" /\ DestPassword req <> "").
Proof.
  intros Hf. rewrite options_layout, !in_app_iff, !credOpts_In.
  split.
  - intros [H|[H|[H|[H|H]]]].
    + exfalso. unfold tlsArgs in H. simpl in H.
      destruct H as [H|[H|[H|[]]]]; injection H as <- _; discriminate Hf.
    + left. destruct H as [[= -> ->] H]. tauto.
    + right. destruct H as [[= -> ->] H]. tauto.
    + apply archOpts_isArch in H. exfalso. unfold isCredsOption in Hf. unfold isArchOption in H. simpl in H.
      apply orb_true_iff in Hf as [Hf|Hf]; apply String.eqb_eq in Hf; subst f; discriminate H.
    + exfalso. simpl in H. destruct H as [H|[H|[]]]; injection H as <- _; discriminate Hf.
  - intros [(-> & -> & H)|(-> & -> & H)]; tauto.
Qed.

(** C7.  Read as the external tool reads it, the built command has a
    [--src-creds] option exactly when the source user name and the source
    password are both non-empty, and independently a [--dest-creds] option exactly
    when the destination user name and password are both non-empty; with an
    empty password on a side there is no credential option for that side,
    whatever the user name. *)
Theorem credential_flags_both_or_neither (task : SyncTask) (req : SyncRequest) :
  let opts := options (buildSkopeoArgs task req).1 in
  ((exists v, In ("--src-creds", v) opts)
     <-> SourceUsername req <> "" /\ SourcePassword req <> "")
  /\ ((exists v, In ("--dest-creds", v) opts)
     <-> DestUsername req <> "" /\ DestPassword req <> "")
  /\ (SourcePassword req = "" -> forall v, ~ In ("--src-creds", v) opts)
  /\ (DestPassword req = "" -> forall v, ~ In ("--dest-creds", v) opts).
Proof.
  cbv zeta.
  assert (Hsrc : forall v, In ("--src-creds", v) (options (buildSkopeoArgs task req).1)
                 -> SourceUsername req <> "" /\ SourcePassword req <> "").
  { intros v Hv. apply In_options_creds in Hv; [|reflexivity].
    destruct Hv as [H|[H _]]; [tauto|discriminate H]. }
  assert (Hdst : forall v, In ("--dest-creds", v) (options (buildSkopeoArgs task req).1)
                 -> DestUsername req <> "" /\ DestPassword req <> "").
  { intros v Hv. apply In_options_creds in Hv; [|reflexivity].
    destruct Hv as [[H _]|H]; [discriminate H|tauto]. }
  split; [|split; [|split]].
  - split; [intros [v Hv]; eauto|].
    intros H. eexists. apply In_options_creds; [reflexivity|]. left. eauto.
  - split; [intros [v Hv]; eauto|].
    intros H. eexists. apply In_options_creds; [reflexivity|]. right. eauto.
  - intros E v Hv. apply Hsrc in Hv. tauto.
  - intros E v Hv. apply Hdst in Hv. tauto.
Qed.

(** The theorem at a request with destination credentials and a source user
    name without password. *)
Lemma credential_flags_both_or_neither_witness :
  let task := NewSyncTask 0 "id" "nginx:latest" "reg.example.com/nginx:latest" "all" in
  let req := mkSyncRequest "nginx:latest" "reg.example.com/nginx:latest"
               "alice" "" "bob" "hunter2" "all" None None None in
  (exists v, In ("--dest-creds", v) (options (buildSkopeoArgs task req).1))
  /\ options (buildSkopeoArgs task req).1
     = [("copy", None); ("--src-tls-verify=true", None); ("--dest-tls-verify=true", None);
        ("--dest-creds", Some "bob:hunter2"); ("--all", None);
        ("docker://nginx:latest", None); ("docker://reg.example.com/nginx:latest", None)].
Proof.
  intros task req.
  destruct (credential_flags_both_or_neither task req) as (_ & Hdest & _).
  split; [|reflexivity].
  apply Hdest. split; discriminate.
Defined.


Lemma Split_no_sep (s : string) (sep : ascii) :
  occurs sep s = false -> Split s sep = [s].
Proof.
  induction s as [|c s IH]; simpl; [done|].
  intros H. apply orb_false_iff in H as [Hc Hs].
  rewrite Ascii.eqb_sym, Hc, (IH Hs). done.
Qed.

Lemma Split_app_sep (a r : string) (sep : ascii) :
  occurs sep a = false ->
  Split (a +:+ String sep r) sep = a :: Split r sep.
Proof.
  induction a as [|c a IH]; simpl.
  - intros _. by rewrite Ascii.eqb_refl.
  - intros H. apply orb_false_iff in H as [Hc Ha].
    rewrite Ascii.eqb_sym, Hc, (IH Ha). done.
Qed.

Lemma filter_all {A} (f : A -> bool) (l : list A) :
  (forall x, In x l -> f x = true) -> List.filter f l = l.
Proof.
  induction l as [|x l IH]; simpl; [done|].
  intros H. rewrite (H x) by auto. f_equal. apply IH. auto.
Qed.

Lemma filter_none {A} (f : A -> bool) (l : list A) :
  (forall x, In x l -> f x = false) -> List.filter f l = [].
Proof.
  induction l as [|x l IH]; simpl; [done|].
  intros H. rewrite (H x) by auto. apply IH. auto.
Qed.

Lemma archOptions_layout (task : SyncTask) (req : SyncRequest) :
  archOptions (buildSkopeoArgs task req).1 = archOpts (Architecture task).
Proof.
  unfold archOptions. rewrite options_layout, !List.filter_app.
  rewrite (filter_all _ (archOpts _)) by apply archOpts_isArch.
  replace (List.filter isArchOption (credOpts "--src-creds" _ _)) with (@nil (string * option string))
    by (unfold credOpts; destruct (_ && _); reflexivity).
  replace (List.filter isArchOption (credOpts "--dest-creds" _ _)) with (@nil (string * option string))
    by (unfold credOpts; destruct (_ && _); reflexivity).
  simpl. by rewrite app_nil_r.
Qed.

Lemma overrideOptions_layout (task : SyncTask) (req : SyncRequest) :
  List.filter isOverrideOption (options (buildSkopeoArgs task req).1)
  = List.filter isOverrideOption (archOpts (Architecture task)).
Proof.
  rewrite options_layout, !List.filter_app.
  replace (List.filter isOverrideOption (credOpts "--src-creds" _ _)) with (@nil (string * option string))
    by (unfold credOpts; destruct (_ && _); reflexivity).
  replace (List.filter isOverrideOption (credOpts "--dest-creds" _ _)) with (@nil (string * option string))
    by (unfold credOpts; destruct (_ && _); reflexivity).
  simpl. by rewrite app_nil_r.
Qed.

Lemma selector_not_all (a b : string) : String.eqb (a +:+ String "/" b) "all" = false.
Proof.
  apply String.eqb_neq. intros E. apply (occurs_eq "/") in E.
  rewrite occurs_app in E. simpl in E. rewrite orb_true_r in E. discriminate.
Qed.

Lemma selector_not_empty (a b : string) : String.eqb (a +:+ String "/" b) "" = false.
Proof. apply String.eqb_neq. destruct a; discriminate. Qed.

(** C8.  The architecture options of the built command: a stored selector
    "all" gives the single option [--all], and so does every task that
    [CreateSyncTask] makes from a request whose selector is "all" or empty; a
    selector [os/arch] gives exactly [--override-os os] and
    [--override-arch arch]; a selector [os/arch/variant] gives these two and
    [--override-variant variant]; a selector with fewer than two fields
    between slashes gives no override option. *)
Theorem architecture_flags (task : SyncTask) (req : SyncRequest) :
  (Architecture task = "all" ->
     archOptions (buildSkopeoArgs task req).1 = [("--all", None)])
  /\ (forall (now : Z) (taskID : string),
        req_Architecture req = "all" \/ req_Architecture req = "" ->
        archOptions (buildSkopeoArgs (newTaskFor now taskID req) req).1 = [("--all", None)])
  /\ (forall os arch : string,
        occurs "/" os = false -> occurs "/" arch = false ->
        Architecture task = os +:+ "/" +:+ arch ->
        archOptions (buildSkopeoArgs task req).1 =
        [("--override-os", Some os); ("--override-arch", Some arch)])
  /\ (forall os arch variant : string,
        occurs "/" os = false -> occurs "/" arch = false -> occurs "/" variant = false ->
        Architecture task = os +:+ "/" +:+ arch +:+ "/" +:+ variant ->
        archOptions (buildSkopeoArgs task req).1 =
        [("--override-os", Some os); ("--override-arch", Some arch);
         ("--override-variant", Some variant)])
  /\ ((length (Split (Architecture task) "/") < 2)%nat ->
        List.filter isOverrideOption (options (buildSkopeoArgs task req).1) = []).
Proof.
  split; [|split; [|split; [|split]]].
  - intros E. rewrite archOptions_layout. unfold archOpts. by rewrite E.
  - intros now taskID E. rewrite archOptions_layout. unfold archOpts.
    replace (Architecture (newTaskFor now taskID req)) with "all"; [done|].
    simpl. unfold defaultArchitecture. by destruct E as [-> | ->].
  - intros os arch Hos Harch E. rewrite archOptions_layout. unfold archOpts.
    rewrite E. change (os +:+ "/" +:+ arch) with (os +:+ String "/" arch).
    rewrite selector_not_all, selector_not_empty, Split_app_sep by done.
    rewrite Split_no_sep by done. reflexivity.
  - intros os arch variant Hos Harch Hvar E. rewrite archOptions_layout. unfold archOpts.
    rewrite E.
    change (os +:+ "/" +:+ arch +:+ "/" +:+ variant)
      with (os +:+ String "/" (arch +:+ String "/" variant)).
    rewrite selector_not_all, selector_not_empty, !Split_app_sep by done.
    rewrite Split_no_sep by done. reflexivity.
  - intros Hlen. rewrite overrideOptions_layout. unfold archOpts.
    destruct (String.eqb (Architecture task) "all"); [reflexivity|].
    destruct (negb (String.eqb (Architecture task) "")); [|reflexivity].
    destruct (Split (Architecture task) "/") as [|p0 [|p1 more]]; try reflexivity.
    simpl in Hlen. lia.
Qed.

(** The theorem at the selectors "linux/amd64", "linux/arm/v7" and "amd64",
    and at a request without selector. *)
Lemma architecture_flags_witness :
  let req := mkSyncRequest "a" "b" "" "" "" "" "" None None None in
  let task := fun selector => NewSyncTask 0 "id" "a" "b" selector in
  archOptions (buildSkopeoArgs (task "linux/amd64") req).1
  = [("--override-os", Some "linux"); ("--override-arch", Some "amd64")]
  /\ archOptions (buildSkopeoArgs (task "linux/arm/v7") req).1
     = [("--override-os", Some "linux"); ("--override-arch", Some "arm");
        ("--override-variant", Some "v7")]
  /\ List.filter isOverrideOption (options (buildSkopeoArgs (task "amd64") req).1) = []
  /\ archOptions (buildSkopeoArgs (newTaskFor 0 "id" req) req).1 = [("--all", None)].
Proof.
  intros req task.
  split; [|split; [|split]].
  - apply (architecture_flags (task "linux/amd64") req); reflexivity.
  - apply (architecture_flags (task "linux/arm/v7") req); reflexivity.
  - apply (architecture_flags (task "amd64") req). simpl. lia.
  - apply (architecture_flags (task "all") req). right. reflexivity.
Defined.



(* ===================================================================== *)
(** * The logged command: masking of credentials *)
(* ===================================================================== *)


Definition mask : string := "***:***".

(** One iteration of the loop of [sanitizeCommand]. *)
Definition sanitizeOne (skipNext : bool) (arg : string) : string * bool :=
  if skipNext then (mask, false)
  else if HasPrefix arg "--src-creds=" || HasPrefix arg "--dest-creds="
  then (hd "" (Split arg "=") +:+ "=***:***", false)
  else if String.eqb arg "--creds" || String.eqb arg "--src-creds"
          || String.eqb arg "--dest-creds"
  then (arg, true)
  else (arg, false).

Lemma sanitizeArgs_cons (skipNext : bool) (arg : string) (rest : list string) :
  sanitizeArgs skipNext (arg :: rest) =
  (sanitizeOne skipNext arg).1 :: sanitizeArgs (sanitizeOne skipNext arg).2 rest.
Proof.
  unfold sanitizeOne. simpl.
  destruct skipNext; [done|].
  destruct (HasPrefix arg "--src-creds=" || HasPrefix arg "--dest-creds="); [done|].
  by destruct (String.eqb arg "--creds" || String.eqb arg "--src-creds"
               || String.eqb arg "--dest-creds").
Qed.

Lemma isCreds_cases (f : string) :
  isCredsOption f = true <-> f = "--src-creds" \/ f = "--dest-creds".
Proof. unfold isCredsOption. by rewrite orb_true_iff, !String.eqb_eq. Qed.

Lemma isCreds_takesValue (f : string) : isCredsOption f = true -> takesValue f = true.
Proof. intros [-> | ->]%isCreds_cases; reflexivity. Qed.

Lemma star_not_flag (x : string) :
  isCredsOption (x +:+ "=***:***") = false /\ takesValue (x +:+ "=***:***") = false.
Proof.
  assert (Hs : occurs "*" (x +:+ "=***:***") = true).
  { rewrite occurs_app. simpl. by rewrite orb_true_r. }
  split.
  - destruct (isCredsOption _) eqn:E; [|done].
    apply isCreds_cases in E as [E|E]; rewrite E in Hs; discriminate Hs.
  - destruct (takesValue _) eqn:E; [|done].
    unfold takesValue in E. rewrite !orb_true_iff, !String.eqb_eq in E.
    destruct E as [[[[E|E]|E]|E]|E]; rewrite E in Hs; discriminate Hs.
Qed.

(** What one iteration can produce. *)
Lemma sanitizeOne_skip (arg : string) : sanitizeOne true arg = (mask, false).
Proof. reflexivity. Qed.

Lemma sanitizeOne_creds (arg : string) :
  isCredsOption (sanitizeOne false arg).1 = true -> (sanitizeOne false arg).2 = true.
Proof.
  unfold sanitizeOne.
  destruct (HasPrefix arg "--src-creds=" || HasPrefix arg "--dest-creds="); simpl.
  - by rewrite (proj1 (star_not_flag _)).
  - destruct (String.eqb arg "--creds" || String.eqb arg "--src-creds"
              || String.eqb arg "--dest-creds") eqn:E; simpl; [done|].
    intros H. apply isCreds_cases in H.
    rewrite !orb_false_iff, !String.eqb_neq in E. tauto.
Qed.

(** The scanner never waits for the value of a credential option unless
    the sanitizer is about to mask the next token. *)
Definition inSync (pending : option string) (skipNext : bool) : Prop :=
  forall f, pending = Some f -> isCredsOption f = true -> skipNext = true.

Lemma optionsFrom_pending (g a : string) (rest : list string) :
  optionsFrom (Some g) (a :: rest) = (g, Some a) :: optionsFrom None rest.
Proof. reflexivity. Qed.

Lemma optionsFrom_free (a : string) (rest : list string) :
  optionsFrom None (a :: rest) =
  if takesValue a then optionsFrom (Some a) rest else (a, None) :: optionsFrom None rest.
Proof. reflexivity. Qed.

Lemma sanitizeOne_not_creds (skipNext : bool) (d : string) :
  isCredsOption d = false -> isCredsOption (sanitizeOne skipNext d).1 = false.
Proof.
  intros Hd. destruct skipNext; [reflexivity|].
  unfold sanitizeOne.
  destruct (HasPrefix d "--src-creds=" || HasPrefix d "--dest-creds=").
  - apply star_not_flag.
  - by destruct (String.eqb d "--creds" || String.eqb d "--src-creds"
                 || String.eqb d "--dest-creds").
Qed.

Lemma masked_values_gen (l : list string) :
  forall (d : string) (pending : option string) (skipNext : bool) (f : string) (v : option string),
    isCredsOption d = false ->
    inSync pending skipNext ->
    isCredsOption f = true ->
    In (f, v) (optionsFrom pending (sanitizeArgs skipNext (l ++ [d]))) ->
    v = Some mask.
Proof.
  induction l as [|a l IH]; intros d pending skipNext f v Hd Hsync Hf Hin.
  - change ([] ++ [d]) with [d] in Hin. rewrite sanitizeArgs_cons in Hin.
    change (sanitizeArgs _ []) with (@nil string) in Hin.
    pose proof (sanitizeOne_not_creds skipNext d Hd) as Hno.
    destruct pending as [g|].
    + rewrite optionsFrom_pending in Hin.
      destruct Hin as [Hin|[]]. injection Hin as -> <-.
      rewrite (Hsync f eq_refl Hf). reflexivity.
    + rewrite optionsFrom_free in Hin.
      destruct (takesValue (sanitizeOne skipNext d).1);
        (destruct Hin as [Hin|[]]; injection Hin as E _; rewrite E in Hno; congruence).
  - change ((a :: l) ++ [d]) with (a :: (l ++ [d])) in Hin.
    rewrite sanitizeArgs_cons in Hin.
    destruct pending as [g|].
    + rewrite optionsFrom_pending in Hin. destruct Hin as [Hin|Hin].
      * injection Hin as -> <-. rewrite (Hsync f eq_refl Hf). reflexivity.
      * eapply IH; [exact Hd| |exact Hf|exact Hin]. intros ? [=].
    + rewrite optionsFrom_free in Hin.
      destruct (takesValue (sanitizeOne skipNext a).1) eqn:Htv.
      * eapply IH; [exact Hd| |exact Hf|exact Hin].
        intros g [= <-] Hg. destruct skipNext; [discriminate Htv|].
        by apply sanitizeOne_creds.
      * destruct Hin as [Hin|Hin].
        -- injection Hin as E _. rewrite E in Htv. apply isCreds_takesValue in Hf. congruence.
        -- eapply IH; [exact Hd| |exact Hf|exact Hin]. intros ? [=].
Qed.

Lemma sanitizeArgs_tls (req : SyncRequest) (rest : list string) :
  sanitizeArgs false (tlsArgs req ++ rest) = tlsArgs req ++ sanitizeArgs false rest.
Proof.
  unfold tlsArgs.
  destruct (SrcTLSVerify req) as [[]|], (DestTLSVerify req) as [[]|]; reflexivity.
Qed.

Definition maskedArgs (flag user pass : string) : list string :=
  if negb (String.eqb user "") && negb (String.eqb pass "") then [flag; mask] else [].

Lemma sanitizeArgs_creds (flag user pass : string) (rest : list string) :
  isCredsOption flag = true ->
  sanitizeArgs false (credArgs flag user pass ++ rest)
  = maskedArgs flag user pass ++ sanitizeArgs false rest.
Proof.
  intros Hf. unfold credArgs, maskedArgs.
  destruct (negb (String.eqb user "") && negb (String.eqb pass "")); [|reflexivity].
  apply isCreds_cases in Hf as [-> | ->]; reflexivity.
Qed.

Lemma sanitizeArgs_layout (task : SyncTask) (req : SyncRequest) :
  sanitizeArgs false (buildSkopeoArgs task req).1 =
  tlsArgs req
  ++ maskedArgs "--src-creds" (SourceUsername req) (SourcePassword req)
  ++ maskedArgs "--dest-creds" (DestUsername req) (DestPassword req)
  ++ sanitizeArgs false (archArgs (Architecture task) ++ imageArgs task).
Proof.
  rewrite buildSkopeoArgs_layout, sanitizeArgs_tls, !sanitizeArgs_creds by reflexivity.
  reflexivity.
Qed.

Lemma buildSkopeoArgs_last (task : SyncTask) (req : SyncRequest) :
  exists l, (buildSkopeoArgs task req).1 = l ++ ["docker://" +:+ DestImage task].
Proof.
  rewrite buildSkopeoArgs_layout. unfold imageArgs.
  exists (tlsArgs req
          ++ credArgs "--src-creds" (SourceUsername req) (SourcePassword req)
          ++ credArgs "--dest-creds" (DestUsername req) (DestPassword req)
          ++ archArgs (Architecture task) ++ ["docker://" +:+ SourceImage task]).
  rewrite <- !app_assoc. reflexivity.
Qed.

(** The three options after which [sanitizeCommand] masks the next token. *)
Definition isSecretFlag (a : string) : bool :=
  String.eqb a "--creds" || String.eqb a "--src-creds" || String.eqb a "--dest-creds".

(** The tokens that carry credentials after an equals sign. *)
Definition isInlineCreds (a : string) : bool :=
  HasPrefix a "--src-creds=" || HasPrefix a "--dest-creds=".

Lemma sanitizeArgs_length (args : list string) : forall skipNext : bool,
  length (sanitizeArgs skipNext args) = length args.
Proof.
  induction args as [|a args IH]; intros skipNext; [reflexivity|].
  rewrite sanitizeArgs_cons. simpl. by rewrite IH.
Qed.

(** A token that [sanitizeCommand] takes for no credential: none of the
    three options and neither of the two prefixes. *)
Definition plainToken (a : string) : bool :=
  negb (isSecretFlag a) && negb (isInlineCreds a).

Lemma sanitizeArgs_plain (args : list string) :
  Forall (fun a => plainToken a = true) args -> sanitizeArgs false args = args.
Proof.
  induction 1 as [|a args Ha _ IH]; [reflexivity|].
  rewrite sanitizeArgs_cons. unfold sanitizeOne.
  fold (isInlineCreds a). fold (isSecretFlag a).
  apply andb_true_iff in Ha as [H1%negb_true_iff H2%negb_true_iff].
  rewrite H1, H2. simpl. by rewrite IH.
Qed.

Lemma plain_rest (task : SyncTask) :
  Forall (fun a => plainToken a = true) (Split (Architecture task) "/") ->
  Forall (fun a => plainToken a = true) (archArgs (Architecture task) ++ imageArgs task).
Proof.
  intros H. apply Forall_app. split.
  - unfold archArgs. destruct (String.eqb (Architecture task) "all"); [by repeat constructor|].
    destruct (negb (String.eqb (Architecture task) "")); [|constructor].
    destruct (Split (Architecture task) "/") as [|p0 [|p1 more]]; [constructor|constructor|].
    inversion H as [|? ? H0 H']; subst. inversion H' as [|? ? H1 H'']; subst.
    apply Forall_app. split; [by repeat constructor|].
    destruct more as [|p2 more]; [constructor|].
    inversion H'' as [|? ? H2 _]; subst. by repeat constructor.
  - unfold imageArgs. by repeat constructor.
Qed.

(** C6.  For two requests that differ at most in the values of their
    credentials, [ExecuteSync] logs the same "Executing: ..." line; and, read
    as the external tool reads it, every credential option of the logged
    command has the mask [***:***] as its value.  The logged command is the
    command with each credential argument replaced: it has as many tokens, it
    begins with the same [copy] and TLS options, then has for each credential
    pair that is given its option ([--src-creds], [--dest-creds]) followed by
    [***:***] where the command has [user:password], and ends with the
    sanitized architecture options and images, which are the command's own
    when no field of the task's architecture is itself a credential option. *)
Theorem credentials_masked_in_log (task : SyncTask) (req1 req2 : SyncRequest) :
  sameButCredentials req1 req2 ->
  executingLine task req1 = executingLine task req2
  /\ (forall (f : string) (v : option string),
       isCredsOption f = true ->
       In (f, v) (options (sanitizeArgs false (buildSkopeoArgs task req1).1)) ->
       v = Some "***:***")
  /\ executingLine task req1
     = "Executing: skopeo " +:+ Join (sanitizeArgs false (buildSkopeoArgs task req1).1) " "
  /\ length (sanitizeArgs false (buildSkopeoArgs task req1).1)
     = length (buildSkopeoArgs task req1).1
  /\ (let rest := archArgs (Architecture task) ++ imageArgs task in
      let given (user pass : string) :=
        negb (String.eqb user "") && negb (String.eqb pass "") in
      (buildSkopeoArgs task req1).1
      = ["copy";
         "--src-tls-verify=" +:+ fmtBool (default true (SrcTLSVerify req1));
         "--dest-tls-verify=" +:+ fmtBool (default true (DestTLSVerify req1))]
        ++ (if given (SourceUsername req1) (SourcePassword req1)
            then ["--src-creds"; SourceUsername req1 +:+ ":" +:+ SourcePassword req1]
            else [])
        ++ (if given (DestUsername req1) (DestPassword req1)
            then ["--dest-creds"; DestUsername req1 +:+ ":" +:+ DestPassword req1]
            else [])
        ++ rest
      /\ sanitizeArgs false (buildSkopeoArgs task req1).1
         = ["copy";
            "--src-tls-verify=" +:+ fmtBool (default true (SrcTLSVerify req1));
            "--dest-tls-verify=" +:+ fmtBool (default true (DestTLSVerify req1))]
           ++ (if given (SourceUsername req1) (SourcePassword req1)
               then ["--src-creds"; "***:***"] else [])
           ++ (if given (DestUsername req1) (DestPassword req1)
               then ["--dest-creds"; "***:***"] else [])
           ++ sanitizeArgs false rest
      /\ (Forall (fun a => plainToken a = true) (Split (Architecture task) "/") ->
          sanitizeArgs false rest = rest)).
Proof.
  intros (Hs & Hd & Hsu & Hsp & Hdu & Hdp). split; [|split; [|split; [|split]]].
  - unfold executingLine, sanitizeCommand. rewrite !sanitizeArgs_layout.
    unfold tlsArgs, maskedArgs. by rewrite Hs, Hd, Hsu, Hsp, Hdu, Hdp.
  - intros f v Hf Hin. destruct (buildSkopeoArgs_last task req1) as [l El].
    rewrite El in Hin. unfold options in Hin.
    apply (masked_values_gen l ("docker://" +:+ DestImage task) None false f v);
      [reflexivity|intros ? [=]|exact Hf|exact Hin].
  - reflexivity.
  - apply sanitizeArgs_length.
  - cbv zeta. split; [|split].
    + apply buildSkopeoArgs_layout.
    + apply sanitizeArgs_layout.
    + intros Hplain. apply sanitizeArgs_plain, plain_rest, Hplain.
Qed.

Lemma credentials_masked_in_log_witness :
  let task := NewSyncTask 0 "id" "nginx:latest" "reg.example.com/nginx:latest" "linux/amd64" in
  let req1 := mkSyncRequest "nginx:latest" "reg.example.com/nginx:latest"
                "alice" "s3cret" "bob" "hunter2" "linux/amd64" (Some false) None None in
  let req2 := mkSyncRequest "nginx:latest" "reg.example.com/nginx:latest"
                "carol" "pa:ss word" "dave" "--src-creds" "linux/amd64" (Some false) None None in
  executingLine task req1 = executingLine task req2
  /\ (forall (f : string) (v : option string),
       isCredsOption f = true ->
       In (f, v) (options (sanitizeArgs false (buildSkopeoArgs task req1).1)) ->
       v = Some "***:***")
  /\ (buildSkopeoArgs task req1).1
     = ["copy"; "--src-tls-verify=false"; "--dest-tls-verify=true";
        "--src-creds"; "alice:s3cret"; "--dest-creds"; "bob:hunter2";
        "--override-os"; "linux"; "--override-arch"; "amd64";
        "docker://nginx:latest"; "docker://reg.example.com/nginx:latest"]
  /\ sanitizeArgs false (buildSkopeoArgs task req1).1
     = ["copy"; "--src-tls-verify=false"; "--dest-tls-verify=true";
        "--src-creds"; "***:***"; "--dest-creds"; "***:***";
        "--override-os"; "linux"; "--override-arch"; "amd64";
        "docker://nginx:latest"; "docker://reg.example.com/nginx:latest"].
Proof.
  intros task req1 req2.
  destruct (credentials_masked_in_log task req1 req2) as (H1 & H2 & _ & _ & H3 & H4 & H5).
  { repeat split; reflexivity. }
  split; [exact H1|]. split; [exact H2|]. split; [exact H3|].
  rewrite H4, H5; [reflexivity|]. by repeat constructor.
Defined.

Example executingLine_example :
  executingLine
    (NewSyncTask 0 "id" "nginx:latest" "reg.example.com/nginx:latest" "linux/amd64")
    (mkSyncRequest "nginx:latest" "reg.example.com/nginx:latest"
       "alice" "s3cret" "bob" "hunter2" "linux/amd64" (Some false) None None)
  = "Executing: skopeo copy --src-tls-verify=false --dest-tls-verify=true --src-creds ***:*** --dest-creds ***:*** --override-os linux --override-arch amd64 docker://nginx:latest docker://reg.example.com/nginx:latest".
Proof. vm_compute. reflexivity. Qed.

(* ===================================================================== *)
(** * internal/service: the task query layer *)
(* ===================================================================== *)

Module Query.

(** ** Go's [int] on the 64-bit targets *)
Definition wrap64 (z : Z) : Z := ((z + 2 ^ 63) mod 2 ^ 64 - 2 ^ 63)%Z.
Definition int_add (a b : Z) : Z := wrap64 (a + b).
Definition int_sub (a b : Z) : Z := wrap64 (a - b).
Definition int_mul (a b : Z) : Z := wrap64 (a * b).
Definition maxInt : Z := (2 ^ 63 - 1)%Z.

(** The decision [shouldSwap] that the inner loop of [sortTasks] takes for
    [tasks[j]] and [tasks[j+1]].  [t1.Before(t2)] is [t1 < t2] and
    [t1.After(t2)] is [t2 < t1]. *)
Definition shouldSwap (sortBy sortOrder : string) (a b : SyncTask) : bool :=
  if String.eqb sortBy "endTime" then
    match EndTime a, EndTime b with
    | None, Some _ => String.eqb sortOrder "asc"
    | Some _, None => String.eqb sortOrder "desc"
    | Some t1, Some t2 =>
        if String.eqb sortOrder "desc" then (t1 <? t2)%Z else (t2 <? t1)%Z
    | None, None => false
    end
  else
    if String.eqb sortOrder "desc" then (StartTime a <? StartTime b)%Z
    else (StartTime b <? StartTime a)%Z.

Section BubbleSort.

Context {A : Type} (swap : A -> A -> bool).

(** [for j := j0; ...; j++]: [n] iterations of the inner loop from index
    [j].  An index out of range would be a run-time panic; the ranges of the
    two loops exclude it, and the slice is left as it is there. *)
Fixpoint innerLoop (n j : nat) (tasks : list A) : list A :=
  match n with
  | O => tasks
  | S n' =>
      let tasks' :=
        match tasks !! j, tasks !! S j with
        | Some t1, Some t2 =>
            if swap t1 t2 then <[S j := t1]> (<[j := t2]> tasks) else tasks
        | _, _ => tasks
        end in
      innerLoop n' (S j) tasks'
  end.

(** [for i := i0; ...; i++]: [n] iterations of the outer loop from [i];
    pass [i] makes [len(tasks)-i-1] comparisons. *)
Fixpoint outerLoop (n i : nat) (tasks : list A) : list A :=
  match n with
  | O => tasks
  | S n' => outerLoop n' (S i) (innerLoop (length tasks - i - 1) 0 tasks)
  end.

Definition bubbleSort (tasks : list A) : list A :=
  if Nat.leb (length tasks) 1 then tasks
  else outerLoop (length tasks - 1) 0 tasks.

End BubbleSort.

(** [sortTasks]: the slice after the in-place sort. *)
Definition sortTasks (tasks : list SyncTask) (sortBy sortOrder : string) : list SyncTask :=
  bubbleSort (shouldSwap sortBy sortOrder) tasks.

Definition summary (task : SyncTask) : TaskSummary :=
  mkTaskSummary (ID task) (SourceImage task) (DestImage task) (Architecture task)
    (Status task) (Message task) (StartTime task) (EndTime task).

(** [filtered[start:end]] for a slice of length [total]; [None] is the
    run-time panic of a slice expression with [start < 0] or [end < start]
    (here [end <= total] always). *)
Definition slice {A : Type} (l : list A) (start end_ : Z) : option (list A) :=
  if ((0 <=? start) && (start <=? end_) && (end_ <=? Z.of_nat (length l)))%Z
  then Some (firstn (Z.to_nat (end_ - start)) (skipn (Z.to_nat start) l))
  else None.

(** [ListTasks] on the result [(tasks, err)] of [s.repo.List()].  The outer
    [None] is a run-time panic. *)
Definition ListTasks (tasks : list SyncTask) (err : option error) (req : TaskListRequest)
  : option (option TaskListResponse * option error) :=
  match err with
  | Some e => Some (None, Some (Wrapped "failed to list tasks" e))
  | None =>
      let filtered :=
        if negb (String.eqb (req_Status req) "")
        then List.filter (fun task => String.eqb (Status task) (req_Status req)) tasks
        else tasks in
      let filtered := sortTasks filtered (SortBy req) (SortOrder req) in
      let total := Z.of_nat (length filtered) in
      let page := Page req in
      let page := if (page <? 1)%Z then 1%Z else page in
      let pageSize := PageSize req in
      let pageSize := if (pageSize <? 1)%Z then 20%Z else pageSize in
      let pageSize := if (100 <? pageSize)%Z then 100%Z else pageSize in
      let start := int_mul (int_sub page 1) pageSize in
      let end_ := int_add start pageSize in
      let start := if (total <? start)%Z then total else start in
      let end_ := if (total <? end_)%Z then total else end_ in
      match slice filtered start end_ with
      | Some pagedTasks =>
          Some (Some (mkTaskListResponse total page pageSize (map summary pagedTasks)), None)
      | None => None
      end
  end.

(** The page size and page number that the request asks for, as the
    specification words them: sizes above 100 become 100, sizes below 1
    become 1, pages below 1 become 1. *)
Definition specPageSize (req : TaskListRequest) : Z :=
  if (100 <? PageSize req)%Z then 100%Z
  else if (PageSize req <? 1)%Z then 1%Z else PageSize req.

(** The page size and page number [ListTasks] works with. *)
Definition effectivePageSize (req : TaskListRequest) : Z :=
  if (PageSize req <? 1)%Z then 20%Z
  else if (100 <? PageSize req)%Z then 100%Z else PageSize req.

Definition effectivePage (req : TaskListRequest) : Z :=
  if (Page req <? 1)%Z then 1%Z else Page req.

(** The tasks a request selects, in the order it asks for. *)
Definition selected (tasks : list SyncTask) (req : TaskListRequest) : list SyncTask :=
  sortTasks
    (if negb (String.eqb (req_Status req) "")
     then List.filter (fun task => String.eqb (Status task) (req_Status req)) tasks
     else tasks)
    (SortBy req) (SortOrder req).

(** The window [[lo, hi)] of a list, clamped to its length. *)
Definition window {A : Type} (l : list A) (lo hi : Z) : list A :=
  let total := Z.of_nat (length l) in
  let lo' := Z.min (Z.max lo 0) total in
  let hi' := Z.min (Z.max hi 0) total in
  firstn (Z.to_nat (hi' - lo')) (skipn (Z.to_nat lo') l).

End Query.
Import Query.

(* ===================================================================== *)
(** * The exchange sort of [sortTasks] *)
(* ===================================================================== *)

Section BubbleSortFacts.

Context {A : Type} (swap : A -> A -> bool).

(** One pass, read on the list from the position the loop has reached. *)
Fixpoint pass (n : nat) (l : list A) : list A :=
  match n, l with
  | S n', a :: b :: r =>
      if swap a b then b :: pass n' (a :: r) else a :: pass n' (b :: r)
  | _, _ => l
  end.

Lemma innerLoop_pass (n : nat) : forall (pre l : list A),
  innerLoop swap n (length pre) (pre ++ l) = pre ++ pass n l.
Proof.
  induction n as [|n IH]; intros pre l; [reflexivity|].
  destruct l as [|a [|b r]].
  - simpl. rewrite app_nil_r.
    rewrite !lookup_ge_None_2 by (simpl; lia).
    specialize (IH pre []). rewrite app_nil_r in IH.
    assert (E : forall m j, (length pre <= j)%nat -> innerLoop swap m j pre = pre).
    { clear. induction m as [|m IHm]; intros j Hj; [reflexivity|].
      simpl. rewrite !lookup_ge_None_2 by lia. apply IHm. lia. }
    apply E. lia.
  - simpl innerLoop.
    rewrite (lookup_ge_None_2 (pre ++ [a]) (S (length pre))) by (rewrite length_app; simpl; lia).
    replace (match (pre ++ [a]) !! length pre with Some _ => pre ++ [a] | None => pre ++ [a] end)
      with (pre ++ [a]) by (by destruct ((pre ++ [a]) !! length pre)).
    specialize (IH (pre ++ [a]) []). rewrite length_app in IH. simpl in IH.
    rewrite Nat.add_1_r, app_nil_r in IH. rewrite IH.
    destruct n; simpl; by rewrite app_nil_r.
  - simpl innerLoop.
    assert (E1 : (pre ++ a :: b :: r) !! length pre = Some a).
    { by rewrite lookup_app_r, Nat.sub_diag by lia. }
    assert (E2 : (pre ++ a :: b :: r) !! S (length pre) = Some b).
    { rewrite lookup_app_r by lia. by replace (S (length pre) - length pre)%nat with 1%nat by lia. }
    rewrite E1, E2. simpl pass.
    destruct (swap a b).
    + assert (E3 : <[S (length pre) := a]> (<[length pre := b]> (pre ++ a :: b :: r))
                   = (pre ++ [b]) ++ a :: r).
      { rewrite (insert_app_r_alt pre _ (length pre)) by lia.
        rewrite Nat.sub_diag. simpl.
        rewrite (insert_app_r_alt pre _ (S (length pre))) by lia.
        replace (S (length pre) - length pre)%nat with 1%nat by lia. simpl.
        by rewrite <- app_assoc. }
      rewrite E3.
      specialize (IH (pre ++ [b]) (a :: r)).
      rewrite length_app in IH. simpl in IH. rewrite Nat.add_1_r in IH.
      rewrite IH, <- app_assoc. reflexivity.
    + specialize (IH (pre ++ [a]) (b :: r)).
      rewrite length_app in IH. simpl in IH. rewrite Nat.add_1_r in IH.
      rewrite <- app_assoc in IH. simpl in IH. rewrite IH, <- app_assoc. reflexivity.
Qed.

Lemma innerLoop_pass0 (n : nat) (l : list A) : innerLoop swap n 0 l = pass n l.
Proof. exact (innerLoop_pass n [] l). Qed.

Lemma pass_length (n : nat) : forall l : list A, length (pass n l) = length l.
Proof.
  induction n as [|n IH]; intros l; [by destruct l|].
  destruct l as [|a [|b r]]; try reflexivity.
  simpl. destruct (swap a b); simpl; rewrite IH; reflexivity.
Qed.

Lemma pass_Permutation (n : nat) : forall l : list A, Permutation (pass n l) l.
Proof.
  induction n as [|n IH]; intros l; [by destruct l|].
  destruct l as [|a [|b r]]; try reflexivity.
  simpl. destruct (swap a b).
  - rewrite IH. apply perm_swap.
  - by rewrite IH.
Qed.

Lemma pass_app (n : nat) : forall (l back : list A),
  (n < length l)%nat -> pass n (l ++ back) = pass n l ++ back.
Proof.
  induction n as [|n IH]; intros l back Hn.
  - by destruct l.
  - destruct l as [|a [|b r]]; simpl in Hn; try lia.
    simpl. destruct (swap a b); simpl; f_equal.
    + apply (IH (a :: r)). simpl. lia.
    + apply (IH (b :: r)). simpl. lia.
Qed.

(** A pass never exchanges two elements of the class [p] when [swap] never
    asks for it: their relative order is kept. *)
Lemma pass_filter (p : A -> bool)
    (Hp : forall a b, swap a b = true -> p a = true -> p b = true -> False)
    (n : nat) : forall l : list A,
  List.filter p (pass n l) = List.filter p l.
Proof.
  induction n as [|n IH]; intros l; [by destruct l|].
  destruct l as [|a [|b r]]; try reflexivity.
  simpl pass. destruct (swap a b) eqn:E.
  - simpl. rewrite IH. simpl.
    destruct (p a) eqn:Ea, (p b) eqn:Eb; try reflexivity.
    exfalso. eauto.
  - simpl. rewrite IH. reflexivity.
Qed.

(** The order the sort establishes: [a] may stand before [b]. *)
Definition inOrder (a b : A) : Prop := swap a b = false.

Hypothesis inOrder_total : forall a b, inOrder a b \/ inOrder b a.
Hypothesis inOrder_trans : forall a b c, inOrder a b -> inOrder b c -> inOrder a c.

(** A full pass carries a greatest element to the end. *)
Lemma pass_max : forall (l : list A) (a : A),
  exists l' m, pass (length l) (a :: l) = l' ++ [m]
               /\ inOrder a m /\ Forall (fun x => inOrder x m) l'.
Proof.
  induction l as [|b r IH]; intros a.
  - exists [], a. repeat split; [|constructor].
    destruct (inOrder_total a a); assumption.
  - simpl. destruct (swap a b) eqn:E.
    + destruct (IH a) as (l' & m & E' & Ham & Hall).
      exists (b :: l'), m. rewrite E'. repeat split; [assumption|].
      constructor; [|assumption].
      apply inOrder_trans with a; [|assumption].
      destruct (inOrder_total a b) as [H|H]; [unfold inOrder in H; congruence|assumption].
    + destruct (IH b) as (l' & m & E' & Hbm & Hall).
      exists (a :: l'), m. rewrite E'. repeat split.
      * by apply inOrder_trans with b.
      * constructor; [|assumption]. by apply inOrder_trans with b.
Qed.

(** What [i] passes have achieved: the last [i] elements are in order and
    no element before them has to come after one of them. *)
Definition settled (i : nat) (l : list A) : Prop :=
  exists front back, l = front ++ back /\ length back = i
    /\ StronglySorted inOrder back
    /\ forall x y, In x front -> In y back -> inOrder x y.

Lemma settled_step (i : nat) (l : list A) :
  (i + 1 < length l)%nat -> settled i l ->
  settled (S i) (innerLoop swap (length l - i - 1) 0 l).
Proof.
  intros Hi (front & back & -> & Hlen & Hsorted & Hfb).
  rewrite length_app in *. rewrite innerLoop_pass0.
  destruct front as [|a front]; [simpl in Hi; lia|].
  replace (length (a :: front) + length back - i - 1)%nat with (length front)
    by (simpl; lia).
  rewrite pass_app by (simpl; lia).
  destruct (pass_max front a) as (l' & m & E & Ham & Hall).
  pose proof (pass_Permutation (length front) (a :: front)) as Hperm.
  rewrite E in Hperm.
  exists l', (m :: back). rewrite E, <- app_assoc. repeat split.
  - simpl. lia.
  - constructor; [assumption|].
    apply List.Forall_forall. intros y Hy. apply Hfb; [|assumption].
    apply (Permutation_in _ Hperm). apply in_or_app. right. by left.
  - intros x y Hx [<-|Hy].
    + rewrite List.Forall_forall in Hall. by apply Hall.
    + apply Hfb; [|assumption].
      apply (Permutation_in _ Hperm). apply in_or_app. by left.
Qed.

Lemma outerLoop_settled (n : nat) : forall (i : nat) (l : list A),
  (i + n + 1 = length l)%nat -> settled i l ->
  settled (i + n) (outerLoop swap n i l).
Proof.
  induction n as [|n IH]; intros i l Hlen Hs.
  - simpl. by rewrite Nat.add_0_r.
  - simpl. replace (i + S n)%nat with (S i + n)%nat by lia.
    apply IH.
    + rewrite innerLoop_pass0, pass_length. lia.
    + apply settled_step; [lia|assumption].
Qed.

Lemma outerLoop_Permutation (n : nat) : forall (i : nat) (l : list A),
  Permutation (outerLoop swap n i l) l.
Proof.
  induction n as [|n IH]; intros i l; [reflexivity|].
  simpl. rewrite IH, innerLoop_pass0. apply pass_Permutation.
Qed.

Lemma outerLoop_filter (p : A -> bool)
    (Hp : forall a b, swap a b = true -> p a = true -> p b = true -> False)
    (n : nat) : forall (i : nat) (l : list A),
  List.filter p (outerLoop swap n i l) = List.filter p l.
Proof.
  induction n as [|n IH]; intros i l; [reflexivity|].
  simpl. rewrite IH, innerLoop_pass0. by apply pass_filter.
Qed.

Lemma bubbleSort_Permutation (l : list A) : Permutation (bubbleSort swap l) l.
Proof.
  unfold bubbleSort. destruct (Nat.leb (length l) 1); [reflexivity|].
  apply outerLoop_Permutation.
Qed.

Lemma bubbleSort_filter (p : A -> bool)
    (Hp : forall a b, swap a b = true -> p a = true -> p b = true -> False)
    (l : list A) :
  List.filter p (bubbleSort swap l) = List.filter p l.
Proof.
  unfold bubbleSort. destruct (Nat.leb (length l) 1); [reflexivity|].
  by apply outerLoop_filter.
Qed.

Lemma bubbleSort_sorted (l : list A) : StronglySorted inOrder (bubbleSort swap l).
Proof.
  unfold bubbleSort. destruct (Nat.leb_spec (length l) 1) as [Hle|Hgt].
  - destruct l as [|a [|b r]]; simpl in Hle; try lia; repeat constructor.
  - destruct (outerLoop_settled (length l - 1) 0 l) as (front & back & E & Hlen & Hs & Hfb).
    + lia.
    + exists l, []. rewrite app_nil_r. repeat split; [constructor|intros ? ? _ []].
    + rewrite E.
      pose proof (Permutation_length (outerLoop_Permutation (length l - 1) 0 l)) as HL.
      rewrite E, length_app in HL.
      destruct front as [|a [|b r]]; simpl in HL, Hlen; try lia.
      simpl. constructor; [assumption|].
      apply List.Forall_forall. intros y Hy. apply Hfb; [by left|assumption].
Qed.

End BubbleSortFacts.

Lemma StronglySorted_lookup {A : Type} (R : A -> A -> Prop) (l : list A) :
  StronglySorted R l ->
  forall (i j : nat) (a b : A), l !! i = Some a -> l !! j = Some b -> (i < j)%nat -> R a b.
Proof.
  induction 1 as [|x l Hs IH Hall]; intros i j a b Hi Hj Hlt.
  - rewrite lookup_nil in Hi. discriminate.
  - destruct j as [|j]; [lia|]. simpl in Hj.
    destruct i as [|i].
    + simpl in Hi. injection Hi as <-.
      rewrite List.Forall_forall in Hall. apply Hall.
      apply list_elem_of_In. by eapply list_elem_of_lookup_2.
    + simpl in Hi. apply (IH i j); [assumption..|lia].
Qed.

(** The order on completion times that the ascending sort establishes: a
    task without completion time counts as later than every other. *)
Lemma endTime_asc_inOrder (a b : SyncTask) :
  inOrder (shouldSwap "endTime" "asc") a b <->
  match EndTime a, EndTime b with
  | Some t1, Some t2 => (t1 <= t2)%Z
  | None, Some _ => False
  | _, None => True
  end.
Proof.
  unfold inOrder, shouldSwap. simpl.
  destruct (EndTime a) as [t1|], (EndTime b) as [t2|]; try (intuition congruence).
  rewrite Z.ltb_ge. reflexivity.
Qed.

(** The descending sort: a task without completion time counts as earlier
    than every other. *)
Lemma endTime_desc_inOrder (a b : SyncTask) :
  inOrder (shouldSwap "endTime" "desc") a b <->
  match EndTime a, EndTime b with
  | Some t1, Some t2 => (t2 <= t1)%Z
  | Some _, None => False
  | None, _ => True
  end.
Proof.
  unfold inOrder, shouldSwap. simpl.
  destruct (EndTime a) as [t1|], (EndTime b) as [t2|]; try (intuition congruence).
  rewrite Z.ltb_ge. reflexivity.
Qed.

Lemma endTime_asc_total (a b : SyncTask) :
  inOrder (shouldSwap "endTime" "asc") a b \/ inOrder (shouldSwap "endTime" "asc") b a.
Proof.
  rewrite !endTime_asc_inOrder.
  destruct (EndTime a), (EndTime b); try tauto. lia.
Qed.

Lemma endTime_asc_trans (a b c : SyncTask) :
  inOrder (shouldSwap "endTime" "asc") a b -> inOrder (shouldSwap "endTime" "asc") b c ->
  inOrder (shouldSwap "endTime" "asc") a c.
Proof.
  rewrite !endTime_asc_inOrder.
  destruct (EndTime a), (EndTime b), (EndTime c); try tauto. lia.
Qed.

Lemma endTime_desc_total (a b : SyncTask) :
  inOrder (shouldSwap "endTime" "desc") a b \/ inOrder (shouldSwap "endTime" "desc") b a.
Proof.
  rewrite !endTime_desc_inOrder.
  destruct (EndTime a), (EndTime b); try tauto. lia.
Qed.

Lemma endTime_desc_trans (a b c : SyncTask) :
  inOrder (shouldSwap "endTime" "desc") a b -> inOrder (shouldSwap "endTime" "desc") b c ->
  inOrder (shouldSwap "endTime" "desc") a c.
Proof.
  rewrite !endTime_desc_inOrder.
  destruct (EndTime a), (EndTime b), (EndTime c); try tauto. lia.
Qed.

(** [sortTasks] exchanges two neighbours only when their keys differ. *)
Lemma shouldSwap_endTime_keys (sortOrder : string) (a b : SyncTask) :
  shouldSwap "endTime" sortOrder a b = true -> EndTime a <> EndTime b.
Proof.
  unfold shouldSwap. simpl.
  destruct (EndTime a) as [t1|], (EndTime b) as [t2|]; try congruence.
  destruct (String.eqb sortOrder "desc"); intros H%Z.ltb_lt [= ->]; lia.
Qed.

(** The tasks with completion time [k], in the order of the list. *)
Definition withEndTime (k : option Z) (tasks : list SyncTask) : list SyncTask :=
  List.filter (fun task => bool_decide (EndTime task = k)) tasks.

Lemma sortTasks_endTime_stable (sortOrder : string) (k : option Z) (tasks : list SyncTask) :
  withEndTime k (sortTasks tasks "endTime" sortOrder) = withEndTime k tasks.
Proof.
  apply bubbleSort_filter. intros a b Hs Ha%bool_decide_eq_true Hb%bool_decide_eq_true.
  apply shouldSwap_endTime_keys in Hs. congruence.
Qed.

(** C9.  Sorting by completion time gives a rearrangement of the tasks in
    which, ascending, every task without completion time stands after every task
    with one, and, descending, before every task with one; the tasks with a
    completion time are in ascending (descending) order of it; and in both
    directions the tasks of equal completion time (the tasks without one among
    themselves included) keep the order they had. *)
Theorem sortTasks_endTime_nil_placement_stable (tasks : list SyncTask) :
  let asc := sortTasks tasks "endTime" "asc" in
  let desc := sortTasks tasks "endTime" "desc" in
  Permutation asc tasks /\ Permutation desc tasks
  /\ (forall (i j : nat) (t1 t2 : SyncTask),
        asc !! i = Some t1 -> asc !! j = Some t2 ->
        EndTime t1 = None -> EndTime t2 <> None -> (j < i)%nat)
  /\ (forall (i j : nat) (t1 t2 : SyncTask),
        desc !! i = Some t1 -> desc !! j = Some t2 ->
        EndTime t1 = None -> EndTime t2 <> None -> (i < j)%nat)
  /\ (forall (i j : nat) (t1 t2 : SyncTask) (e1 e2 : Z),
        asc !! i = Some t1 -> asc !! j = Some t2 -> (i < j)%nat ->
        EndTime t1 = Some e1 -> EndTime t2 = Some e2 -> (e1 <= e2)%Z)
  /\ (forall (i j : nat) (t1 t2 : SyncTask) (e1 e2 : Z),
        desc !! i = Some t1 -> desc !! j = Some t2 -> (i < j)%nat ->
        EndTime t1 = Some e1 -> EndTime t2 = Some e2 -> (e2 <= e1)%Z)
  /\ (forall k : option Z, withEndTime k asc = withEndTime k tasks)
  /\ (forall k : option Z, withEndTime k desc = withEndTime k tasks).
Proof.
  intros asc desc.
  pose proof (bubbleSort_sorted (shouldSwap "endTime" "asc")
                endTime_asc_total endTime_asc_trans tasks) as Hasc.
  pose proof (bubbleSort_sorted (shouldSwap "endTime" "desc")
                endTime_desc_total endTime_desc_trans tasks) as Hdesc.
  fold (sortTasks tasks "endTime" "asc") in Hasc. fold asc in Hasc.
  fold (sortTasks tasks "endTime" "desc") in Hdesc. fold desc in Hdesc.
  split; [apply bubbleSort_Permutation|].
  split; [apply bubbleSort_Permutation|].
  split; [|split; [|split; [|split; [|split]]]].
  - intros i j t1 t2 Hi Hj E1 E2.
    destruct (Nat.lt_trichotomy i j) as [Hlt|[->|Hgt]]; [|congruence|assumption].
    pose proof (StronglySorted_lookup _ _ Hasc i j t1 t2 Hi Hj Hlt) as H.
    apply endTime_asc_inOrder in H. rewrite E1 in H.
    destruct (EndTime t2); [destruct H|congruence].
  - intros i j t1 t2 Hi Hj E1 E2.
    destruct (Nat.lt_trichotomy i j) as [Hlt|[->|Hgt]]; [assumption|congruence|].
    pose proof (StronglySorted_lookup _ _ Hdesc j i t2 t1 Hj Hi Hgt) as H.
    apply endTime_desc_inOrder in H. rewrite E1 in H.
    destruct (EndTime t2); [destruct H|congruence].
  - intros i j t1 t2 e1 e2 Hi Hj Hlt E1 E2.
    pose proof (StronglySorted_lookup _ _ Hasc i j t1 t2 Hi Hj Hlt) as H.
    apply endTime_asc_inOrder in H. by rewrite E1, E2 in H.
  - intros i j t1 t2 e1 e2 Hi Hj Hlt E1 E2.
    pose proof (StronglySorted_lookup _ _ Hdesc i j t1 t2 Hi Hj Hlt) as H.
    apply endTime_desc_inOrder in H. by rewrite E1, E2 in H.
  - intros k. apply sortTasks_endTime_stable.
  - intros k. apply sortTasks_endTime_stable.
Qed.

(** The theorem at three tasks of which the first and the last have no
    completion time: ascending, the first of them stands after the finished
    task, and the two keep their order. *)
Lemma sortTasks_endTime_nil_placement_stable_witness :
  let mk := fun (id : string) (e : option Z) =>
    mkSyncTask id "s" "d" "all" StatusRunning "" "" "" 0 e [] [] in
  let tasks := [mk "r1" None; mk "c3" (Some 3%Z); mk "r2" None] in
  (0 < 1)%nat
  /\ withEndTime None (sortTasks tasks "endTime" "asc") = [mk "r1" None; mk "r2" None].
Proof.
  intros mk tasks.
  destruct (sortTasks_endTime_nil_placement_stable tasks) as (_ & _ & Hasc & _ & _ & _ & Hst & _).
  split.
  - apply (Hasc 1%nat 0%nat (mk "r1" None) (mk "c3" (Some 3%Z)));
      [reflexivity|reflexivity|reflexivity|discriminate].
  - rewrite Hst. reflexivity.
Defined.


Section SortExamples.

Let mk (id : string) (e : option Z) : SyncTask :=
  mkSyncTask id "s" "d" "all" StatusRunning "" "" "" 0 e [] [].

Example sortTasks_asc_example :
  map ID (sortTasks [mk "r1" None; mk "c9" (Some 9%Z); mk "r2" None; mk "c3" (Some 3%Z);
                     mk "d3" (Some 3%Z)] "endTime" "asc")
  = ["c3"; "d3"; "c9"; "r1"; "r2"].
Proof. vm_compute. reflexivity. Qed.

Example sortTasks_desc_example :
  map ID (sortTasks [mk "c3" (Some 3%Z); mk "r1" None; mk "c9" (Some 9%Z); mk "r2" None;
                     mk "d3" (Some 3%Z)] "endTime" "desc")
  = ["r1"; "r2"; "c9"; "c3"; "d3"].
Proof. vm_compute. reflexivity. Qed.

End SortExamples.

(* ===================================================================== *)
(** * Pagination in [ListTasks] *)
(* ===================================================================== *)

Lemma wrap64_small (z : Z) : (- 2 ^ 63 <= z <= maxInt)%Z -> wrap64 z = z.
Proof.
  unfold wrap64, maxInt. intros H.
  rewrite Z.mod_small by lia. lia.
Qed.

Lemma effectivePageSize_range (req : TaskListRequest) :
  (1 <= effectivePageSize req <= 100)%Z.
Proof.
  unfold effectivePageSize.
  destruct (Z.ltb_spec (PageSize req) 1); [lia|].
  destruct (Z.ltb_spec 100 (PageSize req)); lia.
Qed.

Lemma effectivePage_range (req : TaskListRequest) : (1 <= effectivePage req)%Z.
Proof. unfold effectivePage. destruct (Z.ltb_spec (Page req) 1); lia. Qed.

Lemma ListTasks_unfold (tasks : list SyncTask) (req : TaskListRequest) :
  ListTasks tasks None req =
  let filtered := selected tasks req in
  let total := Z.of_nat (length filtered) in
  let start := int_mul (int_sub (effectivePage req) 1) (effectivePageSize req) in
  let end_ := int_add start (effectivePageSize req) in
  match slice filtered (if (total <? start)%Z then total else start)
                       (if (total <? end_)%Z then total else end_) with
  | Some pagedTasks =>
      Some (Some (mkTaskListResponse total (effectivePage req) (effectivePageSize req)
                    (map summary pagedTasks)), None)
  | None => None
  end.
Proof.
  unfold ListTasks, selected, effectivePage, effectivePageSize.
  destruct (Z.ltb_spec (PageSize req) 1) as [H1|H1].
  - replace (100 <? 20)%Z with false by reflexivity. reflexivity.
  - reflexivity.
Qed.

(** C3, as the code has it.  When the arithmetic of the window stays within
    Go's [int], [ListTasks] answers with the total of the selected tasks, the
    page number (1 for a request below 1), the page size (100 for a request
    above 100, 20 for a request below 1) and the summaries of the window
    [[(page-1)*pageSize, page*pageSize)] of the selected, sorted tasks, clamped
    to [[0, total]]; a page beyond the end gives the empty list. *)
Theorem ListTasks_pagination (tasks : list SyncTask) (req : TaskListRequest) :
  ((effectivePage req - 1) * effectivePageSize req + effectivePageSize req <= maxInt)%Z ->
  exists resp : TaskListResponse,
    ListTasks tasks None req = Some (Some resp, None)
    /\ Total resp = Z.of_nat (length (selected tasks req))
    /\ resp_Page resp = effectivePage req
    /\ resp_PageSize resp = effectivePageSize req
    /\ Tasks resp =
       map summary (window (selected tasks req)
                      ((effectivePage req - 1) * effectivePageSize req)
                      (effectivePage req * effectivePageSize req))
    /\ ((100 < PageSize req)%Z -> resp_PageSize resp = 100%Z)
    /\ ((PageSize req < 1)%Z -> resp_PageSize resp = 20%Z)
    /\ ((Page req < 1)%Z -> resp_Page resp = 1%Z)
    /\ ((Z.of_nat (length (selected tasks req))
         <= (effectivePage req - 1) * effectivePageSize req)%Z -> Tasks resp = []).
Proof.
  intros Hfit.
  pose proof (effectivePageSize_range req) as Hps.
  pose proof (effectivePage_range req) as Hp.
  set (ps := effectivePageSize req) in *. set (page := effectivePage req) in *.
  set (sel := selected tasks req). set (total := Z.of_nat (length sel)).
  assert (Hstart : (0 <= (page - 1) * ps)%Z) by nia.
  assert (Hpage : (page - 1 <= (page - 1) * ps)%Z) by nia.
  assert (Hmax : (0 < maxInt)%Z) by (unfold maxInt; lia).
  assert (Hmin : (- 2 ^ 63 < 0)%Z) by lia.
  rewrite ListTasks_unfold. fold ps page sel. cbv zeta. fold total.
  unfold int_mul, int_sub, int_add.
  rewrite (wrap64_small (page - 1)) by lia.
  rewrite (wrap64_small ((page - 1) * ps)) by lia.
  rewrite (wrap64_small ((page - 1) * ps + ps)) by lia.
  set (start := ((page - 1) * ps)%Z) in *.
  assert (Htotal : (0 <= total)%Z) by (unfold total; lia).
  assert (Hslice :
    slice sel (if (total <? start)%Z then total else start)
              (if (total <? start + ps)%Z then total else (start + ps)%Z)
    = Some (window sel start (page * ps))).
  { unfold slice, window. fold total.
    replace (page * ps)%Z with (start + ps)%Z by (unfold start; ring).
    destruct (Z.ltb_spec total start), (Z.ltb_spec total (start + ps)); try lia.
    - replace ((0 <=? total)%Z && (total <=? total)%Z && (total <=? total)%Z) with true
        by (symmetry; rewrite !andb_true_iff, !Z.leb_le; lia).
      repeat f_equal; lia.
    - replace ((0 <=? start)%Z && (start <=? total)%Z && (total <=? total)%Z) with true
        by (symmetry; rewrite !andb_true_iff, !Z.leb_le; lia).
      repeat f_equal; lia.
    - replace ((0 <=? start)%Z && (start <=? start + ps)%Z && (start + ps <=? total)%Z) with true
        by (symmetry; rewrite !andb_true_iff, !Z.leb_le; lia).
      repeat f_equal; lia. }
  rewrite Hslice. eexists. split; [reflexivity|]. simpl.
  split; [reflexivity|]. split; [reflexivity|]. split; [reflexivity|].
  split; [reflexivity|].
  split; [|split; [|split]].
  - intros H. unfold ps, effectivePageSize.
    destruct (Z.ltb_spec (PageSize req) 1); [lia|].
    destruct (Z.ltb_spec 100 (PageSize req)); lia.
  - intros H. unfold ps, effectivePageSize.
    destruct (Z.ltb_spec (PageSize req) 1); lia.
  - intros H. unfold page, effectivePage.
    destruct (Z.ltb_spec (Page req) 1); lia.
  - intros H. unfold window. fold total.
    replace (Z.min (Z.max start 0) total) with total by lia.
    rewrite skipn_all2 by (unfold total; lia). by rewrite firstn_nil.
Qed.

Section PaginationExamples.

Let mk (id : string) (start : Z) : SyncTask :=
  mkSyncTask id "s" "d" "all" StatusPending "Task created" "" "" start None [] [].

Let three : list SyncTask := [mk "a" 1; mk "b" 2; mk "c" 3].

Let twentyFive : list SyncTask :=
  map (fun n => mk "t" (Z.of_nat n)) (seq 0 25).

(** The theorem at 25 tasks, page 3 of size 10: the last five. *)
Lemma ListTasks_pagination_witness :
  exists resp : TaskListResponse,
    ListTasks twentyFive None (mkTaskListRequest 3 10 "" "startTime" "asc")
    = Some (Some resp, None)
    /\ Total resp = 25%Z /\ resp_Page resp = 3%Z /\ resp_PageSize resp = 10%Z
    /\ map sum_StartTime (Tasks resp) = [20; 21; 22; 23; 24]%Z.
Proof.
  destruct (ListTasks_pagination twentyFive
              (mkTaskListRequest 3 10 "" "startTime" "asc"))
    as (resp & E & Ht & Hp & Hs & Hw & _).
  - vm_compute. discriminate.
  - exists resp. split; [exact E|].
    rewrite Ht, Hp, Hs, Hw. vm_compute. repeat split.
Defined.

(** A request for page size 0 is served with page size 20, not 1: three
    tasks come back on page 1. *)
Lemma pageSize_below_one_counterexample :
  let req := mkTaskListRequest 1 0 "" "startTime" "asc" in
  specPageSize req = 1%Z
  /\ ListTasks three None req
     = Some (Some (mkTaskListResponse 3 1 20 (map summary three)), None).
Proof. vm_compute. split; reflexivity. Qed.

Example ListTasks_beyond_end :
  ListTasks twentyFive None (mkTaskListRequest 4 10 "" "startTime" "asc")
  = Some (Some (mkTaskListResponse 25 4 10 []), None).
Proof. vm_compute. reflexivity. Qed.

(** Outside the range of the theorem: the product [(page-1)*pageSize] wraps
    around and the slice expression panics. *)
Example ListTasks_overflow :
  ListTasks three None (mkTaskListRequest maxInt 20 "" "startTime" "asc") = None.
Proof. vm_compute. reflexivity. Qed.

End PaginationExamples.

(* ===================================================================== *)
(** * internal/service: reading the output of the process *)
(* ===================================================================== *)

Module Reader.

(** The line feed, ['\n']. *)
Definition LF : ascii := "010"%char.

(** [reader.ReadString(delim)] on the unread rest of a stream: the bytes up
    to and including the first delimiter, and the rest that stays unread; when
    the stream ends before a delimiter, all the bytes that were left and no
    rest, which is the case [err != nil]. *)
Fixpoint ReadString (s : string) (delim : ascii) : string * option string :=
  match s with
  | EmptyString => (EmptyString, None)
  | String c r =>
      if Ascii.eqb c delim then (String c EmptyString, Some r)
      else let '(line, rest) := ReadString r delim in (String c line, rest)
  end.

(** The loop of [readOutput] on the bytes the pipe delivers before its
    first error: the lines it passes to [task.AddLog], in order.  (The kind of
    the final error only decides whether the logger is called.) *)
Fixpoint readLoop (fuel : nat) (s : string) : list string :=
  match fuel with
  | O => []
  | S fuel' =>
      match ReadString s LF with
      | (line, None) =>
          if negb (String.eqb line "") then [TrimSpace line] else []
      | (line, Some rest) =>
          let line := TrimSpace line in
          (if negb (String.eqb line "") then [line] else []) ++ readLoop fuel' rest
      end
  end.

(** Every iteration but the last consumes a byte, so [length s + 1]
    iterations end the loop. *)
Definition readOutput (s : string) : list string := readLoop (S (String.length s)) s.

(** The effect of [readOutput] on the task. *)
Definition readOutputInto (s : string) (h : Hub) : Hub :=
  foldl (fun h line => AddLog line h) h (readOutput s).

(** ** The lines of a stream

    The fields between line feeds: all but the last are the complete
    lines, the last is the trailing partial line (empty when the stream ends
    with a line feed or is empty). *)
Definition completeLines (s : string) : list string := List.removelast (Split s LF).
Definition partialLine (s : string) : string := List.last (Split s LF) "".

Definition nonBlank (lines : list string) : list string :=
  List.filter (fun l => negb (String.eqb l "")) lines.

End Reader.
Import Reader.

Section ReaderExamples.

Let nl : string := String LF "".

Example readOutput_two_lines :
  readOutput ("Getting image" +:+ nl +:+ "  Copying blob  " +:+ nl)
  = ["Getting image"; "Copying blob"].
Proof. vm_compute. reflexivity. Qed.

Example readOutput_partial :
  readOutput ("a" +:+ nl +:+ "tail") = ["a"; "tail"].
Proof. vm_compute. reflexivity. Qed.

(** A blank line between two lines is not logged: two calls of [AddLog]
    for three complete lines. *)
Lemma readOutput_blank_line_counterexample :
  completeLines ("a" +:+ nl +:+ nl +:+ "b" +:+ nl) = ["a"; ""; "b"]
  /\ partialLine ("a" +:+ nl +:+ nl +:+ "b" +:+ nl) = ""
  /\ readOutput ("a" +:+ nl +:+ nl +:+ "b" +:+ nl) = ["a"; "b"].
Proof. vm_compute. repeat split. Qed.

End ReaderExamples.

(* ===================================================================== *)
(** * [readOutput]: which lines reach the log *)
(* ===================================================================== *)

(** ** White space at the end of a line *)

Lemma prefix_app_LF (p s : string) :
  occurs LF p = false ->
  String.prefix p (s +:+ String LF "") = String.prefix p s.
Proof.
  revert s. induction p as [|c p IH]; intros s Hp; [by destruct s|].
  change (occurs LF (String c p)) with (Ascii.eqb LF c || occurs LF p) in Hp.
  apply orb_false_iff in Hp as [Hc Hp].
  destruct s as [|d s].
  - change (String.prefix (String c p) ("" +:+ String LF ""))
      with (if ascii_dec c LF then String.prefix p "" else false).
    destruct (ascii_dec c LF) as [->|Hne]; [by rewrite Ascii.eqb_refl in Hc|done].
  - change (String.prefix (String c p) (String d s +:+ String LF ""))
      with (if ascii_dec c d then String.prefix p (s +:+ String LF "") else false).
    change (String.prefix (String c p) (String d s))
      with (if ascii_dec c d then String.prefix p s else false).
    destruct (ascii_dec c d); [by apply IH|done].
Qed.

Lemma dropBytes_app (n : nat) : forall (s t : string),
  (n <= String.length s)%nat -> dropBytes n (s +:+ t) = dropBytes n s +:+ t.
Proof.
  induction n as [|n IH]; intros s t Hn; [by destruct s|].
  destruct s as [|c s]; simpl in *; [lia|]. apply IH. lia.
Qed.

Lemma dropBytes_length (n : nat) : forall s : string,
  String.length (dropBytes n s) = (String.length s - n)%nat.
Proof.
  induction n as [|n IH]; intros s; [destruct s; simpl; lia|].
  destruct s as [|c s]; [reflexivity|]. simpl. apply IH.
Qed.

Lemma prefix_length (p s : string) :
  String.prefix p s = true -> (String.length p <= String.length s)%nat.
Proof.
  revert s. induction p as [|c p IH]; intros s H; simpl; [lia|].
  destruct s as [|d s]; simpl in H; [discriminate|].
  destruct (ascii_dec c d); [|discriminate]. simpl. apply IH in H. lia.
Qed.

(** What the tables of encodings have to satisfy: no entry is empty and
    none holds a line feed. *)
Definition goodPats (pats : list string) : Prop :=
  forall p, In p pats -> p <> "" /\ occurs LF p = false.

Lemma find_prefix_app_LF (pats : list string) (s : string) :
  (forall p, In p pats -> occurs LF p = false) ->
  find (fun p => String.prefix p (s +:+ String LF "")) pats
  = find (fun p => String.prefix p s) pats.
Proof.
  induction pats as [|p pats IH]; intros H; [reflexivity|].
  simpl. rewrite prefix_app_LF by (apply H; by left).
  destruct (String.prefix p s); [reflexivity|]. apply IH. intros q Hq. apply H. by right.
Qed.

Lemma dropSpace_app_LF (pats : list string) (s : string) :
  goodPats pats -> s <> "" ->
  dropSpace pats (s +:+ String LF "")
  = option_map (fun r => r +:+ String LF "") (dropSpace pats s).
Proof.
  intros Hg Hs. destruct s as [|c r]; [done|].
  change (String c r +:+ String LF "") with (String c (r +:+ String LF "")).
  unfold dropSpace. destruct (asciiSpace c); [reflexivity|].
  change (String c (r +:+ String LF "")) with (String c r +:+ String LF "").
  rewrite find_prefix_app_LF by (intros p Hp; by apply Hg).
  destruct (find _ pats) as [p|] eqn:E; [|reflexivity].
  apply find_some in E as [_ E]. apply prefix_length in E.
  simpl option_map. by rewrite dropBytes_app.
Qed.

Lemma dropSpace_shorter (pats : list string) (s r : string) :
  goodPats pats -> dropSpace pats s = Some r -> (String.length r < String.length s)%nat.
Proof.
  intros Hg. destruct s as [|c s]; [discriminate|]. unfold dropSpace.
  destruct (asciiSpace c); [intros [= <-]; simpl; lia|].
  destruct (find _ pats) as [p|] eqn:E; [|discriminate].
  intros [= <-]. apply find_some in E as [Hin E].
  rewrite dropBytes_length. destruct (Hg p Hin) as [Hne _].
  destruct p; [done|]. simpl. lia.
Qed.

(** A string with a line feed added: nothing when the string is empty. *)
Definition withLF (t : string) : string :=
  if String.eqb t "" then "" else t +:+ String LF "".

Lemma trimWith_app_LF (pats : list string) (fuel : nat) : forall s : string,
  goodPats pats -> (String.length s <= fuel)%nat ->
  trimWith pats (S fuel) (s +:+ String LF "") = withLF (trimWith pats fuel s).
Proof.
  induction fuel as [|fuel IH]; intros s Hg Hlen.
  - destruct s; [reflexivity|simpl in Hlen; lia].
  - destruct s as [|c r]; [reflexivity|].
    change (trimWith pats (S (S fuel)) (String c r +:+ String LF ""))
      with (match dropSpace pats (String c r +:+ String LF "") with
            | Some x => trimWith pats (S fuel) x
            | None => String c r +:+ String LF ""
            end).
    rewrite dropSpace_app_LF by done.
    change (trimWith pats (S fuel) (String c r))
      with (match dropSpace pats (String c r) with
            | Some x => trimWith pats fuel x
            | None => String c r
            end).
    destruct (dropSpace pats (String c r)) as [x|] eqn:E; simpl option_map.
    + apply IH; [done|]. apply dropSpace_shorter in E; [|done]. simpl in E, Hlen. lia.
    + reflexivity.
Qed.

Lemma unicodeSpaces_good : goodPats unicodeSpaces.
Proof.
  assert (H : forallb (fun p => negb (String.eqb p "") && negb (occurs LF p)) unicodeSpaces = true)
    by (vm_compute; reflexivity).
  intros p Hp. rewrite forallb_forall in H. specialize (H p Hp).
  apply andb_true_iff in H as [H1 H2].
  apply negb_true_iff in H1, H2. apply String.eqb_neq in H1. done.
Qed.

Lemma rev_string_app_LF (s : string) :
  rev_string (s +:+ String LF "") = String LF (rev_string s).
Proof.
  unfold rev_string.
  assert (E : list_ascii_of_string (s +:+ String LF "") = list_ascii_of_string s ++ [LF]).
  { induction s as [|c s IH]; simpl; [done|]. by rewrite IH. }
  rewrite E, rev_app_distr. reflexivity.
Qed.

Lemma length_app_LF (s : string) :
  String.length (s +:+ String LF "") = S (String.length s).
Proof. induction s as [|c s IH]; simpl; [done|]. by rewrite IH. Qed.

Lemma TrimRightSpace_app_LF (s : string) :
  TrimRightSpace (s +:+ String LF "") = TrimRightSpace s.
Proof.
  unfold TrimRightSpace. by rewrite rev_string_app_LF, length_app_LF.
Qed.

(** [strings.TrimSpace] removes the line feed that ends a line. *)
Lemma TrimSpace_app_LF (s : string) : TrimSpace (s +:+ String LF "") = TrimSpace s.
Proof.
  unfold TrimSpace, TrimLeftSpace. rewrite length_app_LF.
  rewrite trimWith_app_LF by (apply unicodeSpaces_good || lia).
  unfold withLF. destruct (String.eqb_spec (trimWith unicodeSpaces (String.length s) s) "") as [E|E].
  - by rewrite E.
  - apply TrimRightSpace_app_LF.
Qed.

(** ** [ReadString] and the fields of the stream *)

Lemma ReadString_Split (s : string) :
  match ReadString s LF with
  | (line, None) => line = s /\ Split s LF = [s]
  | (line, Some rest) =>
      exists l, line = l +:+ String LF "" /\ Split s LF = l :: Split rest LF
                /\ (String.length rest < String.length s)%nat
  end.
Proof.
  induction s as [|c s IH]; [by split|].
  change (ReadString (String c s) LF)
    with (if Ascii.eqb c LF then (String c EmptyString, Some s)
          else let '(line, rest) := ReadString s LF in (String c line, rest)).
  change (Split (String c s) LF)
    with (if Ascii.eqb c LF then EmptyString :: Split s LF
          else match Split s LF with
               | h :: t => String c h :: t
               | [] => [String c EmptyString]
               end).
  destruct (Ascii.eqb_spec c LF) as [->|Hne].
  - exists "". repeat split. simpl. lia.
  - destruct (ReadString s LF) as [line [rest|]].
    + destruct IH as (l & -> & -> & Hlen). exists (String c l). repeat split. simpl. lia.
    + destruct IH as [-> ->]. by split.
Qed.

(** The calls of [AddLog] for a stream with the given fields. *)
Fixpoint logged (fields : list string) : list string :=
  match fields with
  | [] => []
  | [p] => if negb (String.eqb p "") then [TrimSpace p] else []
  | l :: more =>
      (if negb (String.eqb (TrimSpace l) "") then [TrimSpace l] else []) ++ logged more
  end.

Lemma Split_not_nil (s : string) (sep : ascii) : Split s sep <> [].
Proof.
  destruct s as [|c s]; [done|]. simpl.
  destruct (Ascii.eqb c sep); [done|]. by destruct (Split s sep).
Qed.

Lemma readLoop_logged (fuel : nat) : forall s : string,
  (String.length s < fuel)%nat -> readLoop fuel s = logged (Split s LF).
Proof.
  induction fuel as [|fuel IH]; intros s Hlen; [lia|].
  change (readLoop (S fuel) s)
    with (match ReadString s LF with
          | (line, None) =>
              if negb (String.eqb line "") then [TrimSpace line] else []
          | (line, Some rest) =>
              (if negb (String.eqb (TrimSpace line) "") then [TrimSpace line] else [])
              ++ readLoop fuel rest
          end).
  pose proof (ReadString_Split s) as H.
  destruct (ReadString s LF) as [line [rest|]].
  - destruct H as (l & -> & -> & Hr).
    rewrite TrimSpace_app_LF, IH by lia.
    pose proof (Split_not_nil rest LF).
    destruct (Split rest LF); [done|reflexivity].
  - destruct H as [-> ->]. reflexivity.
Qed.

(** More iterations than [length s + 1] change nothing: the loop has
    ended. *)
Lemma readLoop_total (s : string) (fuel : nat) :
  (String.length s < fuel)%nat -> readLoop fuel s = readOutput s.
Proof.
  intros H. unfold readOutput. rewrite !readLoop_logged by lia. reflexivity.
Qed.

Lemma logged_lines (fields : list string) :
  fields <> [] ->
  logged fields =
  nonBlank (map TrimSpace (List.removelast fields))
  ++ (if negb (String.eqb (List.last fields "") "") then [TrimSpace (List.last fields "")] else []).
Proof.
  induction fields as [|l more IH]; [done|]. intros _.
  destruct more as [|m more]; [reflexivity|].
  change (logged (l :: m :: more))
    with ((if negb (String.eqb (TrimSpace l) "") then [TrimSpace l] else [])
          ++ logged (m :: more)).
  rewrite IH by done.
  change (List.removelast (l :: m :: more)) with (l :: List.removelast (m :: more)).
  change (List.last (l :: m :: more) "") with (List.last (m :: more) "").
  rewrite app_assoc. f_equal.
  unfold nonBlank. simpl map. simpl List.filter.
  by destruct (negb (String.eqb (TrimSpace l) "")).
Qed.

(** C4, as the code has it.  [readOutput] calls [AddLog], in the order of
    the stream, with the text of every complete line after [strings.TrimSpace],
    leaving out the lines that are empty after it; at the end of the stream it
    calls [AddLog] with the trimmed text of the trailing partial line when that
    line has at least one byte.  These lines are what it adds to the log of the
    task. *)
Theorem readOutput_logs_trimmed_nonblank_lines (s : string) (h : Hub) :
  readOutput s =
  nonBlank (map TrimSpace (completeLines s))
  ++ (if negb (String.eqb (partialLine s) "") then [TrimSpace (partialLine s)] else [])
  /\ LogLines (hub_task (readOutputInto s h)) = LogLines (hub_task h) ++ readOutput s.
Proof.
  split.
  - unfold readOutput, completeLines, partialLine.
    rewrite readLoop_logged by lia. apply logged_lines, Split_not_nil.
  - unfold readOutputInto. generalize (readOutput s). intros lines. revert h.
    induction lines as [|l lines IH]; intros h; simpl; [by rewrite app_nil_r|].
    rewrite IH. simpl. by rewrite <- app_assoc.
Qed.

(* ===================================================================== *)
(** * internal/service: creating and executing a sync task *)
(* ===================================================================== *)

Module Executor.

(** [syncService]: the repository is the [tasks] map of the world below,
    the logger is not modelled. *)
Record syncService := mkSyncService {
  timeout : Z
}.

(** What [ExecuteSync] does to the task, in program order. *)
Inductive event :=
| EvSetStatus (s : SyncStatus)
| EvSetMessage (m : string)
| EvSetOutput (out : string)
| EvSetErrorOutput (e : string)
| EvSetEndTime (t : Z)
| EvAddLog (line : string)
| EvCloseAllLogListeners
| EvRepoUpdate (err : option error).

(** The task objects, the channels and the repository. *)
Record World := mkWorld {
  heap : gmap ptr SyncTask;
  chans : gmap chanref chan;
  tasks : gmap string ptr
}.

(** What the clock, the operating system and the process do during one
    run of [ExecuteSync]. *)
Record Outcome := mkOutcome {
  startedText : string;            (* time.Now().Format(time.RFC3339) for the first log line *)
  stdoutPipeErr : option error;    (* cmd.StdoutPipe() *)
  stderrPipeErr : option error;    (* cmd.StderrPipe() *)
  startErr : option error;         (* cmd.Start() *)
  outputBeforeWait : list string;  (* lines the two readers add until cmd.Wait() returns *)
  waitErr : option error;          (* cmd.Wait() *)
  deadlineExceeded : bool;         (* ctx.Err() == context.DeadlineExceeded *)
  outputAfterWait : list string;   (* lines the readers add from then until the closing line *)
  endTime : Z;                     (* time.Now() after the readers *)
  endTimeText : string;            (* endTime.Format(time.RFC3339) *)
  errorTime : Z;                   (* time.Now() in handleTaskError *)
  readersDone : bool;              (* the select takes [case <-done]: both readers have ended *)
  lateOutput : list (list string)  (* otherwise: the lines the readers still add, see [late] *)
}.

(** When the five seconds of [time.After] pass before the readers have
    ended, they go on beside [ExecuteSync] and may call [AddLog] between any
    two of its later statements and after it has returned.  [late o k] are the
    lines they add in gap [k]: 0 after the closing line, 1 after
    [CloseAllLogListeners], 2 after [task.EndTime], 3 after [GetLogLines], 4
    after [task.Output], 5 after [task.Status], 6 after [task.Message], 7 after
    [task.ErrorOutput], 8 after [s.repo.Update] until the readers end.  When
    the readers have ended in time there are none. *)
Definition late (o : Outcome) (k : nat) : list string :=
  if readersDone o then [] else default [] (lateOutput o !! k).

(** The state one run works on: the task behind the pointer with its
    channels, the repository, and the events so far. *)
Record Exec := mkExec {
  ex_hub : Hub;
  ex_tasks : gmap string ptr;
  ex_trace : list event
}.

Definition M (A : Type) : Type := Exec -> A * Exec.

Definition ret {A : Type} (a : A) : M A := fun e => (a, e).

Definition bind {A B : Type} (m : M A) (k : A -> M B) : M B :=
  fun e => let '(a, e') := m e in k a e'.

#[local] Notation "x <- m ;; k" := (bind m (fun x => k))
  (at level 100, m at level 99, k at level 200, right associativity).
#[local] Notation "m ;;; k" := (bind m (fun _ => k))
  (at level 100, k at level 200, right associativity).

Definition emit (ev : event) (f : Hub -> Hub) : M unit :=
  fun e => (tt, mkExec (f (ex_hub e)) (ex_tasks e) (ex_trace e ++ [ev])).

Definition onTask (f : SyncTask -> SyncTask) (h : Hub) : Hub :=
  mkHub (f (hub_task h)) (hub_chans h).

Definition setStatus (s : SyncStatus) : M unit := emit (EvSetStatus s) (onTask (set_Status s)).
Definition setMessage (m : string) : M unit := emit (EvSetMessage m) (onTask (set_Message m)).
Definition setOutput (o : string) : M unit := emit (EvSetOutput o) (onTask (set_Output o)).
Definition setErrorOutput (x : string) : M unit :=
  emit (EvSetErrorOutput x) (onTask (set_ErrorOutput x)).
Definition setEndTime (t : Z) : M unit := emit (EvSetEndTime t) (onTask (set_EndTime (Some t))).
Definition addLog (line : string) : M unit := emit (EvAddLog line) (AddLog line).
Definition closeAllLogListeners : M unit := emit EvCloseAllLogListeners CloseAllLogListeners.

Fixpoint addLogs (lines : list string) : M unit :=
  match lines with
  | [] => ret tt
  | l :: rest => addLog l ;;; addLogs rest
  end.

Definition getTask : M SyncTask := fun e => (hub_task (ex_hub e), e).

(** [s.repo.Update(task)] for the task at [p]. *)
Definition repoUpdate (p : ptr) : M (option error) :=
  fun e =>
    match Update {[ p := hub_task (ex_hub e) ]} (ex_tasks e) p with
    | Some (tasks', err) =>
        (err, mkExec (ex_hub e) tasks' (ex_trace e ++ [EvRepoUpdate err]))
    | None => (None, e)
    end.

(** [handleTaskError]. *)
Definition handleTaskError (o : Outcome) (p : ptr) (message : string) (err : error)
  : M (option error) :=
  addLog ("Error: " +:+ Error err) ;;;
  setStatus StatusFailed ;;;
  setMessage message ;;;
  setErrorOutput (Error err) ;;;
  setEndTime (errorTime o) ;;;
  _ <- repoUpdate p ;;
  ret (Some (Wrapped message err)).

(** The body of [ExecuteSync] after [s.repo.Get] has given the pointer. *)
Definition executeTask (s : syncService) (o : Outcome) (p : ptr) (req : SyncRequest)
  : M (option error) :=
  setStatus StatusRunning ;;;
  setMessage "Syncing image..." ;;;
  uerr <- repoUpdate p ;;
  match uerr with
  | Some e => ret (Some (Wrapped "failed to update task" e))
  | None =>
      addLog ("Task started at " +:+ startedText o) ;;;
      task <- getTask ;;
      let '(args, logs) := buildSkopeoArgs task req in
      addLogs logs ;;;
      addLog ("Executing: " +:+ sanitizeCommand args) ;;;
      match stdoutPipeErr o with
      | Some e => handleTaskError o p "Failed to create stdout pipe" e
      | None =>
      match stderrPipeErr o with
      | Some e => handleTaskError o p "Failed to create stderr pipe" e
      | None =>
      match startErr o with
      | Some e => handleTaskError o p "Failed to start command" e
      | None =>
          addLogs (outputBeforeWait o) ;;;
          err <- (if deadlineExceeded o
                  then addLog ("Timeout exceeded (" +:+ itoa (timeout s) +:+ "s)") ;;;
                       ret (Some (ErrOther ("command timeout after "
                                            +:+ itoa (timeout s) +:+ "s")))
                  else ret (waitErr o)) ;;
          addLogs (outputAfterWait o) ;;;
          match err with
          | Some e => addLog ("Sync failed: " +:+ Error e)
          | None => addLog ("Sync completed at " +:+ endTimeText o)
          end ;;;
          addLogs (late o 0) ;;;
          closeAllLogListeners ;;;
          addLogs (late o 1) ;;;
          setEndTime (endTime o) ;;;
          addLogs (late o 2) ;;;
          task <- getTask ;;
          addLogs (late o 3) ;;;
          setOutput (Join (LogLines task) (String "010" "")) ;;;
          addLogs (late o 4) ;;;
          match err with
          | Some e =>
              setStatus StatusFailed ;;;
              addLogs (late o 5) ;;;
              setMessage "Sync failed" ;;;
              addLogs (late o 6) ;;;
              setErrorOutput (Error e) ;;;
              addLogs (late o 7)
          | None =>
              setStatus StatusCompleted ;;;
              addLogs (late o 5) ;;;
              setMessage "Sync completed successfully" ;;;
              addLogs (late o 6)
          end ;;;
          _ <- repoUpdate p ;;
          addLogs (late o 8) ;;;
          ret None
      end end end
  end.

(** [ExecuteSync].  [None] is the nil dereference of a pointer that is not
    in the heap. *)
Definition ExecuteSync (s : syncService) (o : Outcome) (taskID : string)
    (req : SyncRequest) (w : World) : option (option error * World * list event) :=
  match Get (tasks w) taskID with
  | (Some p, _) =>
      match heap w !! p with
      | Some task =>
          let '(err, e) :=
            executeTask s o p req (mkExec (mkHub task (chans w)) (tasks w) []) in
          Some (err,
                mkWorld (<[p := hub_task (ex_hub e)]> (heap w))
                        (hub_chans (ex_hub e)) (ex_tasks e),
                ex_trace e)
      | None => None
      end
  | (None, gerr) =>
      Some (option_map (Wrapped "failed to get task") gerr, w, [])
  end.

(** [CreateSyncTask]; [now] is [time.Now()], [taskID] the fresh UUID, and
    the new task object gets an address that is not in use. *)
Definition CreateSyncTask (now : Z) (taskID : string) (req : SyncRequest) (w : World)
  : option (string * option error * World) :=
  let task := newTaskFor now taskID req in
  let p : ptr := fresh (dom (heap w)) in
  let hp := <[p := task]> (heap w) in
  match Create hp (tasks w) p with
  | Some (tasks', Some e) =>
      Some ("", Some (Wrapped "failed to create task" e), mkWorld hp (chans w) tasks')
  | Some (tasks', None) => Some (taskID, None, mkWorld hp (chans w) tasks')
  | None => None
  end.

(** [GetTask]. *)
Definition GetTask (id : string) (w : World) : option ptr * option error :=
  Get (tasks w) id.

(** ** Reading a trace *)

Definition isTerminalSet (ev : event) : bool :=
  match ev with EvSetStatus s => terminal s | _ => false end.

Definition isClose (ev : event) : bool :=
  match ev with EvCloseAllLogListeners => true | _ => false end.

Definition isEndTimeSet (ev : event) : bool :=
  match ev with EvSetEndTime _ => true | _ => false end.

Definition count (f : event -> bool) (tr : list event) : nat :=
  length (List.filter f tr).

(** The order the specification asks for: whenever the listeners are
    closed, a terminal status and the end time have been set before. *)
Fixpoint closesAfterFinal (statusSet endSet : bool) (tr : list event) : bool :=
  match tr with
  | [] => true
  | ev :: rest =>
      (if isClose ev then statusSet && endSet else true)
      && closesAfterFinal (statusSet || isTerminalSet ev) (endSet || isEndTimeSet ev) rest
  end.


(** The process was started: neither pipe nor [cmd.Start] failed. *)
Definition started (o : Outcome) : bool :=
  match stdoutPipeErr o, stderrPipeErr o, startErr o with
  | None, None, None => true
  | _, _, _ => false
  end.

End Executor.
Import Executor.

(* ===================================================================== *)
(** * [ExecuteSync]: the terminal state and the closing of the listeners *)
(* ===================================================================== *)

#[local] Arguments terminal : simpl never.

(** The events that matter for the order of finalisation. *)
Definition isFinalEvent (ev : event) : bool :=
  isTerminalSet ev || isClose ev || isEndTimeSet ev.

Definition finalEvents (tr : list event) : list event := List.filter isFinalEvent tr.

Lemma finalEvents_app (tr1 tr2 : list event) :
  finalEvents (tr1 ++ tr2) = finalEvents tr1 ++ finalEvents tr2.
Proof. apply List.filter_app. Qed.

Lemma finalEvents_logs (lines : list string) : finalEvents (map EvAddLog lines) = [].
Proof. induction lines as [|l lines IH]; [reflexivity|exact IH]. Qed.


Lemma closesAfterFinal_finalEvents (tr : list event) : forall a b : bool,
  closesAfterFinal a b (finalEvents tr) = closesAfterFinal a b tr.
Proof.
  induction tr as [|ev tr IH]; intros a b; [reflexivity|].
  unfold finalEvents in *.
  destruct ev as [s| | | | | | |]; [destruct (terminal s) eqn:E|..];
    simpl; unfold isFinalEvent; simpl; rewrite ?E; simpl; rewrite ?E;
    rewrite IH, ?orb_false_r; reflexivity.
Qed.


(** ** The steps of the run *)

Definition logAll (lines : list string) (h : Hub) : Hub :=
  foldl (fun h line => AddLog line h) h lines.

Lemma addLogs_run (lines : list string) : forall e : Exec,
  addLogs lines e
  = (tt, mkExec (logAll lines (ex_hub e)) (ex_tasks e) (ex_trace e ++ map EvAddLog lines)).
Proof.
  induction lines as [|l lines IH]; intros e.
  - destruct e. simpl. by rewrite app_nil_r.
  - simpl. unfold bind, addLog, emit. rewrite IH. simpl.
    by rewrite <- app_assoc.
Qed.

Lemma repoUpdate_run (p : ptr) (e : Exec) :
  exists err tasks',
    repoUpdate p e = (err, mkExec (ex_hub e) tasks' (ex_trace e ++ [EvRepoUpdate err]))
    /\ (is_Some (ex_tasks e !! ID (hub_task (ex_hub e))) ->
        err = None /\ tasks' = <[ID (hub_task (ex_hub e)) := p]> (ex_tasks e)).
Proof.
  unfold repoUpdate, Update. rewrite lookup_singleton_eq.
  destruct (ex_tasks e !! ID (hub_task (ex_hub e))) as [q|] eqn:E.
  - eexists _, _. split; [reflexivity|]. done.
  - eexists _, _. split; [reflexivity|]. intros [? [=]].
Qed.

(** What stays as it is when lines are logged. *)
Lemma AddLog_fields (line : string) (h : Hub) :
  let t := hub_task h in let t' := hub_task (AddLog line h) in
  ID t' = ID t /\ Status t' = Status t /\ EndTime t' = EndTime t
  /\ ErrorOutput t' = ErrorOutput t /\ Architecture t' = Architecture t
  /\ SourceImage t' = SourceImage t /\ DestImage t' = DestImage t.
Proof. repeat split. Qed.

Lemma logAll_fields (lines : list string) : forall h : Hub,
  let t := hub_task h in let t' := hub_task (logAll lines h) in
  ID t' = ID t /\ Status t' = Status t /\ EndTime t' = EndTime t
  /\ ErrorOutput t' = ErrorOutput t /\ Architecture t' = Architecture t
  /\ SourceImage t' = SourceImage t /\ DestImage t' = DestImage t.
Proof.
  induction lines as [|l lines IH]; intros h; [repeat split|].
  simpl. specialize (IH (AddLog l h)). simpl in IH. exact IH.
Qed.

Lemma logAll_ID lines h : ID (hub_task (logAll lines h)) = ID (hub_task h).
Proof. apply logAll_fields. Qed.
Lemma logAll_Status lines h : Status (hub_task (logAll lines h)) = Status (hub_task h).
Proof. apply logAll_fields. Qed.
Lemma logAll_EndTime lines h : EndTime (hub_task (logAll lines h)) = EndTime (hub_task h).
Proof. apply logAll_fields. Qed.
Lemma logAll_ErrorOutput lines h :
  ErrorOutput (hub_task (logAll lines h)) = ErrorOutput (hub_task h).
Proof. apply logAll_fields. Qed.

Lemma logAll_task (lines : list string) : forall h : Hub,
  hub_task (logAll lines h) = set_LogLines (LogLines (hub_task h) ++ lines) (hub_task h).
Proof.
  induction lines as [|l lines IH]; intros h; simpl.
  - rewrite app_nil_r. by destruct (hub_task h).
  - rewrite IH. simpl. unfold set_LogLines. simpl. by rewrite <- app_assoc.
Qed.

(** The outcome of a run in which the process started: the error that
    decides between Completed and Failed. *)
Definition runError (s : syncService) (o : Outcome) : option error :=
  if deadlineExceeded o
  then Some (ErrOther ("command timeout after " +:+ itoa (timeout s) +:+ "s"))
  else waitErr o.

(** The first error of a run in which the process did not start. *)
Definition spawnError (o : Outcome) : option (string * error) :=
  match stdoutPipeErr o, stderrPipeErr o, startErr o with
  | Some e, _, _ => Some ("Failed to create stdout pipe", e)
  | None, Some e, _ => Some ("Failed to create stderr pipe", e)
  | None, None, Some e => Some ("Failed to start command", e)
  | None, None, None => None
  end.

Lemma handleTaskError_run (o : Outcome) (p : ptr) (message : string) (err : error) (e : Exec) :
  exists e',
    handleTaskError o p message err e = (Some (Wrapped message err), e')
    /\ finalEvents (ex_trace e')
       = finalEvents (ex_trace e) ++ [EvSetStatus StatusFailed; EvSetEndTime (errorTime o)]
    /\ Status (hub_task (ex_hub e')) = StatusFailed
    /\ EndTime (hub_task (ex_hub e')) = Some (errorTime o)
    /\ ErrorOutput (hub_task (ex_hub e')) = Error err.
Proof.
  unfold handleTaskError.
  cbv [bind ret emit addLog setStatus setMessage setErrorOutput setEndTime].
  match goal with |- context [repoUpdate p ?e0] =>
    destruct (repoUpdate_run p e0) as (uerr & tasks' & -> & _) end.
  eexists. split; [reflexivity|]. simpl ex_trace. simpl ex_hub.
  split; [|repeat split].
  rewrite !finalEvents_app. simpl. by rewrite !app_nil_r, <- !app_assoc.
Qed.

Definition finalStatus (err : option error) : SyncStatus :=
  match err with Some _ => StatusFailed | None => StatusCompleted end.

Ltac run_steps :=
  cbv [bind ret emit addLog setStatus setMessage setOutput setErrorOutput setEndTime
       closeAllLogListeners getTask];
  cbv beta iota zeta.

(** The steps up to the next call of the repository, the lines of the
    readers included. *)
Ltac run_state :=
  cbv [bind ret emit addLog setStatus setMessage setOutput setErrorOutput setEndTime
       closeAllLogListeners getTask ex_hub ex_tasks ex_trace].

Ltac run_logs := run_state; repeat (rewrite addLogs_run; run_state).

(** The fields of the task that a run leaves. *)
Ltac run_fields :=
  repeat (first [rewrite logAll_task
                |progress cbn [ex_hub hub_task onTask AddLog CloseAllLogListeners
                               set_LogLines set_LogListeners set_Status set_Message
                               set_Output set_ErrorOutput set_EndTime
                               ID Status EndTime ErrorOutput]]).

Lemma executeTask_run (s : syncService) (o : Outcome) (p : ptr) (req : SyncRequest) (e : Exec) :
  is_Some (ex_tasks e !! ID (hub_task (ex_hub e))) ->
  exists (err : option error) (e' : Exec),
    executeTask s o p req e = (err, e')
    /\ match spawnError o with
       | Some (msg, x) =>
           err = Some (Wrapped msg x)
           /\ finalEvents (ex_trace e')
              = finalEvents (ex_trace e)
                ++ [EvSetStatus StatusFailed; EvSetEndTime (errorTime o)]
           /\ Status (hub_task (ex_hub e')) = StatusFailed
           /\ EndTime (hub_task (ex_hub e')) = Some (errorTime o)
           /\ ErrorOutput (hub_task (ex_hub e')) = Error x
       | None =>
           err = None
           /\ finalEvents (ex_trace e')
              = finalEvents (ex_trace e)
                ++ [EvCloseAllLogListeners; EvSetEndTime (endTime o);
                    EvSetStatus (finalStatus (runError s o))]
           /\ Status (hub_task (ex_hub e')) = finalStatus (runError s o)
           /\ EndTime (hub_task (ex_hub e')) = Some (endTime o)
           /\ ErrorOutput (hub_task (ex_hub e'))
              = match runError s o with
                | Some x => Error x
                | None => ErrorOutput (hub_task (ex_hub e))
                end
       end.
Proof.
  destruct e as [h0 tasks0 trace0].
  intros Hsome. unfold executeTask. run_steps.
  match goal with |- context [repoUpdate p ?e0] =>
    destruct (repoUpdate_run p e0) as (uerr & tasks' & -> & Hu) end.
  destruct (Hu Hsome) as [-> _]. clear Hu. run_steps.
  simpl ex_hub. simpl ex_tasks. simpl ex_trace.
  match goal with |- context [buildSkopeoArgs ?t req] =>
    destruct (buildSkopeoArgs t req) as [args logs] end.
  rewrite addLogs_run. run_steps. simpl ex_hub. simpl ex_tasks. simpl ex_trace.
  unfold spawnError.
  destruct (stdoutPipeErr o) as [x1|].
  { match goal with |- context [handleTaskError o p ?m ?x ?e0] =>
      destruct (handleTaskError_run o p m x e0) as (e' & -> & Hf & Hs & Ht & Hx) end.
    eexists _, _. split; [reflexivity|]. split; [reflexivity|].
    split; [|done]. rewrite Hf. simpl ex_trace.
    rewrite !finalEvents_app, finalEvents_logs. simpl. rewrite ?app_nil_r, <- ?app_assoc. reflexivity. }
  destruct (stderrPipeErr o) as [x2|].
  { match goal with |- context [handleTaskError o p ?m ?x ?e0] =>
      destruct (handleTaskError_run o p m x e0) as (e' & -> & Hf & Hs & Ht & Hx) end.
    eexists _, _. split; [reflexivity|]. split; [reflexivity|].
    split; [|done]. rewrite Hf. simpl ex_trace.
    rewrite !finalEvents_app, finalEvents_logs. simpl. rewrite ?app_nil_r, <- ?app_assoc. reflexivity. }
  destruct (startErr o) as [x3|].
  { match goal with |- context [handleTaskError o p ?m ?x ?e0] =>
      destruct (handleTaskError_run o p m x e0) as (e' & -> & Hf & Hs & Ht & Hx) end.
    eexists _, _. split; [reflexivity|]. split; [reflexivity|].
    split; [|done]. rewrite Hf. simpl ex_trace.
    rewrite !finalEvents_app, finalEvents_logs. simpl. rewrite ?app_nil_r, <- ?app_assoc. reflexivity. }
  unfold runError.
  destruct (deadlineExceeded o); [|destruct (waitErr o) as [x|]];
    run_logs;
    match goal with |- context [repoUpdate p ?e0] =>
      destruct (repoUpdate_run p e0) as (uerr & tasks'' & -> & _) end;
    run_logs;
    (eexists _, _; split; [reflexivity|]; split; [reflexivity|]; split;
     [rewrite !finalEvents_app, !finalEvents_logs; cbn [finalEvents List.filter app];
      rewrite ?app_nil_r, <- ?app_assoc; reflexivity
     |run_fields; repeat split]).
Qed.

(** ** A submitted job, executed *)

(** Submitting a job and running it: the pointer of the new task, the
    error [ExecuteSync] returns, the task as the run leaves it, and the
    events of the run. *)
Definition submitAndExecute (s : syncService) (o : Outcome) (now : Z) (taskID : string)
    (req : SyncRequest) (w : World) : option (option error * SyncTask * list event) :=
  match CreateSyncTask now taskID req w with
  | Some (id, None, w1) =>
      match GetTask id w1, ExecuteSync s o id req w1 with
      | (Some p, _), Some (err, w2, trace) =>
          match heap w2 !! p with
          | Some task => Some (err, task, trace)
          | None => None
          end
      | _, _ => None
      end
  | _ => None
  end.

Lemma submitAndExecute_run (s : syncService) (o : Outcome) (now : Z) (taskID : string)
    (req : SyncRequest) (w : World) :
  exists (err : option error) (task : SyncTask) (trace : list event),
    submitAndExecute s o now taskID req w = Some (err, task, trace)
    /\ match spawnError o with
       | Some (msg, x) =>
           err = Some (Wrapped msg x)
           /\ finalEvents trace = [EvSetStatus StatusFailed; EvSetEndTime (errorTime o)]
           /\ Status task = StatusFailed
           /\ EndTime task = Some (errorTime o)
           /\ ErrorOutput task = Error x
       | None =>
           err = None
           /\ finalEvents trace
              = [EvCloseAllLogListeners; EvSetEndTime (endTime o);
                 EvSetStatus (finalStatus (runError s o))]
           /\ Status task = finalStatus (runError s o)
           /\ EndTime task = Some (endTime o)
           /\ ErrorOutput task
              = match runError s o with Some x => Error x | None => "" end
       end.
Proof.
  unfold submitAndExecute, CreateSyncTask, Create, GetTask, ExecuteSync.
  set (p := fresh (dom (heap w))). set (task0 := newTaskFor now taskID req).
  rewrite lookup_insert_eq. cbv beta iota zeta.
  change (ID task0) with taskID.
  cbn [tasks heap chans]. unfold Get. rewrite !lookup_insert_eq.
  destruct (executeTask_run s o p req
              (mkExec (mkHub task0 (chans w)) (<[taskID := p]> (tasks w)) []))
    as (err & e' & E & H).
  { simpl. rewrite lookup_insert_eq. by eexists. }
  rewrite E. cbn [heap]. rewrite lookup_insert_eq.
  exists err, (hub_task (ex_hub e')), (ex_trace e'). split; [reflexivity|].
  exact H.
Qed.





Section ExecuteExamples.

Let w0 : World := mkWorld ∅ ∅ ∅.
Let req : SyncRequest :=
  mkSyncRequest "nginx:latest" "reg.example.com/nginx:latest" "" "" "" "" "" None None None.
Let svc : syncService := mkSyncService 600.


(** A run in which [cmd.Start] fails. *)
Let noStart : Outcome :=
  mkOutcome "T0" None None (Some (ErrOther "exec: not found")) [] None false [] 0 "" 40
            true [].


(** When the process cannot be started the task fails and its listeners are
    never closed. *)
Example spawn_failure_never_closes :
  option_map (fun r => (finalEvents r.2, count isClose r.2, Status r.1.2, ErrorOutput r.1.2))
    (submitAndExecute svc noStart 10 "id-1" req w0)
  = Some ([EvSetStatus StatusFailed; EvSetEndTime 40], 0%nat,
          StatusFailed, "exec: not found").
Proof. vm_compute. reflexivity. Qed.

End ExecuteExamples.

(* ===================================================================== *)
(** * The error output of a failed task *)
(* ===================================================================== *)

Lemma Contains_occurs (c : ascii) (s sub : string) :
  Contains s sub -> occurs c sub = true -> occurs c s = true.
Proof.
  intros (pre & post & ->) H. rewrite !occurs_app, H.
  by rewrite orb_true_r.
Qed.

Lemma prefix_split (p s : string) :
  String.prefix p s = true -> exists r, s = p +:+ r.
Proof.
  revert s. induction p as [|c p IH]; intros s H.
  - by exists s.
  - destruct s as [|d s]; [discriminate|]. simpl in H.
    destruct (ascii_dec c d) as [->|]; [|discriminate].
    destruct (IH s H) as [r ->]. by exists r.
Qed.

Lemma prefix_append (p r : string) : String.prefix p (p +:+ r) = true.
Proof.
  induction p as [|c p IH]; [by destruct r|]. simpl.
  destruct (ascii_dec c c); [exact IH|done].
Qed.

(** The decision procedure decides [strings.Contains]. *)
Lemma ContainsB_Contains (s sub : string) : ContainsB s sub = true <-> Contains s sub.
Proof.
  split.
  - induction s as [|c s IH].
    + change (ContainsB "" sub) with (String.prefix sub "" || false).
      rewrite orb_false_r. intros H%prefix_split. destruct H as [r Hr].
      exists "", r. exact Hr.
    + change (ContainsB (String c s) sub)
        with (String.prefix sub (String c s) || ContainsB s sub).
      intros [H|H]%orb_true_iff.
      * apply prefix_split in H as [r ->]. by exists "", r.
      * destruct (IH H) as (pre & post & ->). by exists (String c pre), post.
  - intros (pre & post & ->). induction pre as [|c pre IH].
    + change ("" +:+ sub +:+ post) with (sub +:+ post).
      pose proof (prefix_append sub post) as Hp.
      destruct (sub +:+ post) as [|c r].
      * change (ContainsB "" sub) with (String.prefix sub "" || false).
        by rewrite Hp.
      * change (ContainsB (String c r) sub)
          with (String.prefix sub (String c r) || ContainsB r sub).
        by rewrite Hp.
    + change (String c pre +:+ sub +:+ post) with (String c (pre +:+ sub +:+ post)).
      change (ContainsB (String c (pre +:+ sub +:+ post)) sub)
        with (String.prefix sub (String c (pre +:+ sub +:+ post))
              || ContainsB (pre +:+ sub +:+ post) sub).
      by rewrite IH, orb_true_r.
Qed.

(** Decimal numerals have digits and at most a sign. *)
Lemma occurs_uint (c : ascii) (d : Decimal.uint) :
  occurs c "0123456789" = false -> occurs c (NilEmpty.string_of_uint d) = false.
Proof.
  intros H. simpl in H. rewrite !orb_false_iff in H.
  destruct H as (H0 & H1 & H2 & H3 & H4 & H5 & H6 & H7 & H8 & H9 & _).
  induction d as [|d IH|d IH|d IH|d IH|d IH|d IH|d IH|d IH|d IH|d IH];
    simpl; [reflexivity|..]; rewrite IH, orb_false_r; assumption.
Qed.

Lemma occurs_itoa (c : ascii) (n : Z) :
  occurs c "-0123456789" = false -> occurs c (itoa n) = false.
Proof.
  intros H. change (occurs c "-0123456789")
    with (Ascii.eqb c "-" || occurs c "0123456789") in H.
  apply orb_false_iff in H as [Hm Hd].
  unfold itoa, NilZero.string_of_int, NilZero.string_of_uint.
  destruct (Z.to_int n) as [d|d].
  - destruct d; try (by apply occurs_uint).
    simpl in Hd |- *. rewrite !orb_false_iff in Hd. destruct Hd as (-> & _). reflexivity.
  - assert (E : forall x, occurs c (String "-" x) = Ascii.eqb c "-" || occurs c x) by reflexivity.
    rewrite E, Hm. simpl orb.
    destruct d; try (by apply occurs_uint).
    simpl in Hd |- *. rewrite !orb_false_iff in Hd. destruct Hd as (-> & _). reflexivity.
Qed.

(** The text of [fmt.Errorf("command timeout after %ds", s.timeout)]. *)
Definition timeoutMessage (s : syncService) : string :=
  "command timeout after " +:+ itoa (timeout s) +:+ "s".

Lemma timeoutMessage_marker (s : syncService) :
  Contains (timeoutMessage s) "timeout" /\ timeoutMessage s <> "".
Proof.
  split; [|discriminate].
  exists "command ", (" after " +:+ itoa (timeout s) +:+ "s"). reflexivity.
Qed.

Lemma exit_status_no_marker (code : Z) :
  ~ Contains (Error (ExitError code)) "timeout" /\ Error (ExitError code) <> "".
Proof.
  split; [|discriminate].
  intros H. apply (Contains_occurs "m") in H; [|reflexivity].
  change (Error (ExitError code)) with ("exit status " +:+ itoa code) in H.
  rewrite occurs_app in H.
  rewrite (occurs_itoa "m" code) in H by reflexivity. discriminate H.
Qed.

(** Every error the operating system reports in this run has a text. *)
Definition reportsHaveText (o : Outcome) : Prop :=
  forall x : error,
    In (Some x) [stdoutPipeErr o; stderrPipeErr o; startErr o; waitErr o] ->
    Error x <> "".

(** C5, as the code has it.  Take a run in which the errors reported by
    the operating system have non-empty texts.  The task always ends with a
    terminal status.  When a pipe or [cmd.Start] fails (which is what happens
    when the deadline has already expired as [cmd.Start] runs), the task ends
    Failed with the text of that error as its error output.  When the deadline
    has expired after the process was started, the task ends Failed with the
    error output "command timeout after <n>s", which is non-empty and contains
    "timeout".  When the process ran and [cmd.Wait] reported an error before
    the deadline, the task ends Failed with the text of that error, which for a
    non-zero exit is "exit status <code>" and does not contain "timeout"; and
    when [cmd.Wait] reported none, the task ends Completed.  So every task that
    ends Failed has a non-empty error output. *)
Theorem failed_task_error_output (s : syncService) (o : Outcome) (now : Z)
    (taskID : string) (req : SyncRequest) (w : World) :
  reportsHaveText o ->
  exists (err : option error) (task : SyncTask) (trace : list event),
    submitAndExecute s o now taskID req w = Some (err, task, trace)
    /\ terminal (Status task) = true
    /\ (forall (message : string) (x : error),
        spawnError o = Some (message, x) ->
        Status task = StatusFailed /\ ErrorOutput task = Error x)
    /\ (started o = true -> deadlineExceeded o = true ->
        Status task = StatusFailed
        /\ ErrorOutput task = "command timeout after " +:+ itoa (timeout s) +:+ "s"
        /\ Contains (ErrorOutput task) "timeout"
        /\ ErrorOutput task <> "")
    /\ (forall x : error,
        started o = true -> deadlineExceeded o = false -> waitErr o = Some x ->
        Status task = StatusFailed /\ ErrorOutput task = Error x)
    /\ (forall code : Z,
        started o = true -> deadlineExceeded o = false ->
        waitErr o = Some (ExitError code) ->
        Status task = StatusFailed
        /\ ErrorOutput task = "exit status " +:+ itoa code
        /\ ~ Contains (ErrorOutput task) "timeout")
    /\ (started o = true -> deadlineExceeded o = false -> waitErr o = None ->
        Status task = StatusCompleted)
    /\ (Status task = StatusFailed ->
        terminal (Status task) = true /\ ErrorOutput task <> "").
Proof.
  intros Htext.
  destruct (submitAndExecute_run s o now taskID req w) as (err & task & trace & E & H).
  exists err, task, trace. split; [exact E|].
  unfold started. unfold spawnError in *. unfold runError in H.
  destruct (stdoutPipeErr o) as [x1|] eqn:E1.
  { destruct H as (_ & _ & Hs & _ & Hx). rewrite Hs, Hx.
    split; [reflexivity|]. split; [by intros ? ? [= _ <-]|].
    split; [discriminate|]. split; [discriminate|]. split; [discriminate|].
    split; [discriminate|]. intros _. split; [reflexivity|].
    apply Htext. rewrite E1. simpl. tauto. }
  destruct (stderrPipeErr o) as [x2|] eqn:E2.
  { destruct H as (_ & _ & Hs & _ & Hx). rewrite Hs, Hx.
    split; [reflexivity|]. split; [by intros ? ? [= _ <-]|].
    split; [discriminate|]. split; [discriminate|]. split; [discriminate|].
    split; [discriminate|]. intros _. split; [reflexivity|].
    apply Htext. rewrite E2. simpl. tauto. }
  destruct (startErr o) as [x3|] eqn:E3.
  { destruct H as (_ & _ & Hs & _ & Hx). rewrite Hs, Hx.
    split; [reflexivity|]. split; [by intros ? ? [= _ <-]|].
    split; [discriminate|]. split; [discriminate|]. split; [discriminate|].
    split; [discriminate|]. intros _. split; [reflexivity|].
    apply Htext. rewrite E3. simpl. tauto. }
  destruct H as (_ & _ & Hs & _ & Hx). rewrite Hs, Hx.
  split; [by destruct (if deadlineExceeded o then _ else _)|].
  split; [discriminate|].
  destruct (deadlineExceeded o).
  - split; [|split; [discriminate|split; [discriminate|split; [discriminate|]]]].
    + intros _ _. split; [reflexivity|]. split; [reflexivity|].
      apply (timeoutMessage_marker s).
    + intros _. split; [reflexivity|]. apply (timeoutMessage_marker s).
  - split; [discriminate|]. destruct (waitErr o) as [x|] eqn:E4.
    + split; [by intros ? _ _ [= <-]|]. split.
      * intros code _ _ [= ->]. split; [reflexivity|]. split; [reflexivity|].
        apply exit_status_no_marker.
      * split; [discriminate|]. intros _. split; [reflexivity|].
        apply Htext. rewrite E4. simpl. tauto.
    + split; [discriminate|]. split; [discriminate|]. split; [reflexivity|]. discriminate.
Qed.

Section TimeoutExamples.

Let w0 : World := mkWorld ∅ ∅ ∅.
Let req : SyncRequest :=
  mkSyncRequest "nginx:latest" "reg.example.com/nginx:latest" "" "" "" "" "" None None None.
Let svc : syncService := mkSyncService 600.

(** The process is killed at the deadline: [cmd.Wait] reports the signal. *)
Let timedOut : Outcome :=
  mkOutcome "T0" None None None ["Getting image"] (Some (ErrOther "signal: killed")) true []
            650 "T650" 0 true [].

Lemma reportsHaveText_timedOut : reportsHaveText timedOut.
Proof.
  intros x [H|[H|[H|[H|[]]]]]; try discriminate H.
  injection H as <-. discriminate.
Qed.

(** The theorem at a run that is killed after 600 seconds. *)
Lemma failed_task_error_output_witness :
  exists (err : option error) (task : SyncTask) (trace : list event),
    submitAndExecute svc timedOut 10 "id-1" req w0 = Some (err, task, trace)
    /\ Status task = StatusFailed
    /\ ErrorOutput task = "command timeout after 600s"
    /\ Contains (ErrorOutput task) "timeout"
    /\ ErrorOutput task <> "".
Proof.
  destruct (failed_task_error_output svc timedOut 10 "id-1" req w0 reportsHaveText_timedOut)
    as (err & task & trace & E & _ & _ & H & _).
  exists err, task, trace. split; [exact E|].
  apply H; reflexivity.
Defined.

(** The deadline has expired before the process is started, as it has at
    once for a timeout of 0 seconds: [cmd.Start] returns the error of the
    context, [handleTaskError] makes its text the error output, and that text
    has no "timeout" in it. *)
Lemma deadline_expired_at_start_counterexample :
  let expired : Outcome :=
    mkOutcome "T0" None None (Some (ErrOther "context deadline exceeded")) [] None true []
              0 "" 40 true [] in
  option_map (fun r => (Status r.1.2, Message r.1.2, ErrorOutput r.1.2,
                        ContainsB (ErrorOutput r.1.2) "timeout"))
    (submitAndExecute (mkSyncService 0) expired 10 "id-1" req w0)
  = Some (StatusFailed, "Failed to start command", "context deadline exceeded", false).
Proof. vm_compute. reflexivity. Qed.

Example timeout_run :
  option_map (fun r => (Status r.1.2, ErrorOutput r.1.2, Message r.1.2))
    (submitAndExecute svc timedOut 10 "id-1" req w0)
  = Some (StatusFailed, "command timeout after 600s", "Sync failed").
Proof. vm_compute. reflexivity. Qed.

End TimeoutExamples.

(* ===================================================================== *)
(** * internal/handler: [StreamLogs] beside the producer of the log *)
(* ===================================================================== *)

Module Handler.

(** How far one call of [StreamLogs] has come. *)
Inductive phase :=
| Connected                 (* the task was found, nothing copied yet *)
| Copied (existingLogs : list string)
                            (* existingLogs := task.GetLogLines() is done *)
| Replaying (pending : list string) (taskStatus : SyncStatus)
                            (* taskStatus := task.Status is read; in the loop over
                               existingLogs, [pending] still to write *)
| Replayed                  (* the existing lines are written, no listener yet *)
| Streaming (ch : chanref)  (* in the select loop on its channel *)
| Returned.                 (* the handler has returned *)

(** One call of [StreamLogs]: its phase and the lines written to the
    client so far. *)
Record Stream := mkStream {
  st_phase : phase;
  st_written : list string
}.

(** A task with its channels and one client that streams its log; the
    other clients of the task are seen by what they do to the task. *)
Record Sys := mkSys {
  sys_hub : Hub;
  sys_stream : Stream
}.

(** The critical sections of [logMu] and the steps between them, of the
    handler, of the executor with its readers, and of the other calls of
    [StreamLogs] for the same task; a schedule is a list of these. *)
Inductive action :=
| ActSnapshot        (* existingLogs := task.GetLogLines() *)
| ActReadStatus      (* taskStatus := task.Status, read without a lock *)
| ActWrite           (* one turn of the loop over existingLogs: one line written *)
| ActEndReplay       (* the loop has ended: the test of taskStatus *)
| ActSubscribe       (* logChan := task.AddLogListener() *)
| ActReceive         (* case line, ok := <-logChan *)
| ActDisconnect      (* case <-clientGone; the deferred RemoveLogListener *)
| ActAddLog (line : string)     (* the executor or a reader: task.AddLog(line) *)
| ActSetStatus (s : SyncStatus) (* the executor: task.Status = s *)
| ActCloseAll                   (* the executor: task.CloseAllLogListeners() *)
| ActOtherSubscribe             (* another client: task.AddLogListener() *)
| ActOtherReceive (r : chanref) (* another client: a line taken from its channel r *)
| ActOtherRemove (r : chanref). (* another client: task.RemoveLogListener(r) *)

(** The receive of the select loop on channel [r]: the oldest buffered
    line, or the end of the stream when the channel is closed and empty; an
    open empty channel leaves the handler waiting. *)
Definition receive (r : chanref) (y : Sys) : Sys :=
  match hub_chans (sys_hub y) !! r with
  | Some c =>
      match chan_buf c with
      | line :: rest =>
          mkSys (mkHub (hub_task (sys_hub y))
                       (<[r := mkChan rest (chan_closed c)]> (hub_chans (sys_hub y))))
                (mkStream (Streaming r) (st_written (sys_stream y) ++ [line]))
      | [] =>
          if chan_closed c
          then mkSys (RemoveLogListener r (sys_hub y))
                     (mkStream Returned (st_written (sys_stream y)))
          else y
      end
  | None => y
  end.

(** The channel is the one the handler holds: no other client has it.
    (Once the handler has returned nobody holds its channel; the schedules
    are not kept from steps on it, which only adds schedules.) *)
Definition ours (y : Sys) (r : chanref) : bool :=
  match st_phase (sys_stream y) with
  | Streaming ch => bool_decide (ch = r)
  | _ => false
  end.

(** A line taken from channel [r] by the client that holds it. *)
Definition takeLine (r : chanref) (h : Hub) : Hub :=
  match hub_chans h !! r with
  | Some c =>
      match chan_buf c with
      | _ :: rest => mkHub (hub_task h) (<[r := mkChan rest (chan_closed c)]> (hub_chans h))
      | [] => h
      end
  | None => h
  end.

(** One step; a step of the handler that its phase does not allow changes
    nothing, and neither does a step of another client on the channel of the
    handler. *)
Definition step (y : Sys) (a : action) : Sys :=
  match a, st_phase (sys_stream y) with
  | ActSnapshot, Connected =>
      mkSys (sys_hub y)
            (mkStream (Copied (GetLogLines (sys_hub y))) (st_written (sys_stream y)))
  | ActReadStatus, Copied existingLogs =>
      mkSys (sys_hub y)
            (mkStream (Replaying existingLogs (Status (hub_task (sys_hub y))))
                      (st_written (sys_stream y)))
  | ActWrite, Replaying (line :: pending) taskStatus =>
      mkSys (sys_hub y)
            (mkStream (Replaying pending taskStatus) (st_written (sys_stream y) ++ [line]))
  | ActEndReplay, Replaying [] taskStatus =>
      mkSys (sys_hub y)
            (mkStream (if terminal taskStatus then Returned else Replayed)
                      (st_written (sys_stream y)))
  | ActSubscribe, Replayed =>
      let '(logChan, h) := AddLogListener (sys_hub y) in
      mkSys h (mkStream (Streaming logChan) (st_written (sys_stream y)))
  | ActReceive, Streaming r => receive r y
  | ActDisconnect, Streaming r =>
      mkSys (RemoveLogListener r (sys_hub y))
            (mkStream Returned (st_written (sys_stream y)))
  | ActAddLog line, _ => mkSys (AddLog line (sys_hub y)) (sys_stream y)
  | ActSetStatus s, _ =>
      mkSys (mkHub (set_Status s (hub_task (sys_hub y))) (hub_chans (sys_hub y)))
            (sys_stream y)
  | ActCloseAll, _ => mkSys (CloseAllLogListeners (sys_hub y)) (sys_stream y)
  | ActOtherSubscribe, _ => mkSys (AddLogListener (sys_hub y)).2 (sys_stream y)
  | ActOtherReceive r, _ =>
      if ours y r then y else mkSys (takeLine r (sys_hub y)) (sys_stream y)
  | ActOtherRemove r, _ =>
      if ours y r then y else mkSys (RemoveLogListener r (sys_hub y)) (sys_stream y)
  | _, _ => y
  end.

Definition run (schedule : list action) (y : Sys) : Sys := foldl step y schedule.

(** A client connects to a running task. *)
Definition connect (task : SyncTask) : Sys :=
  mkSys (mkHub task ∅) (mkStream Connected []).

End Handler.
Import Handler.

Section StreamExamples.

Let running : SyncTask :=
  mkSyncTask "id-1" "src" "dst" "all" StatusRunning "Syncing image..." "" "" 0 None
             ["Task started"] [].

(** No line is added between the copy of the log and the registration: the
    client gets every line once. *)
Example StreamLogs_without_interleaving :
  let y := run [ActSnapshot; ActReadStatus; ActWrite; ActEndReplay; ActSubscribe;
                ActAddLog "x"; ActAddLog "y";
                ActReceive; ActReceive; ActSetStatus StatusCompleted; ActCloseAll;
                ActReceive] (connect running) in
  (st_written (sys_stream y), st_phase (sys_stream y), LogLines (hub_task (sys_hub y)))
  = (["Task started"; "x"; "y"], Returned, ["Task started"; "x"; "y"]).
Proof. vm_compute. reflexivity. Qed.

(** C2, the failing schedule.  The line "x" is added after [StreamLogs] has
    copied the log and before it has registered its channel: it is in the log
    of the task, and the client, which reads until its channel is closed, never
    gets it. *)
Lemma StreamLogs_loses_line_added_before_subscription :
  let y := run [ActSnapshot; ActReadStatus; ActWrite; ActEndReplay;
                ActAddLog "x"; ActSubscribe; ActAddLog "y";
                ActReceive; ActReceive; ActSetStatus StatusCompleted; ActCloseAll;
                ActReceive] (connect running) in
  (st_written (sys_stream y), st_phase (sys_stream y), LogLines (hub_task (sys_hub y)))
  = (["Task started"; "y"], Returned, ["Task started"; "x"; "y"]).
Proof. vm_compute. reflexivity. Qed.

(** The line is lost as well when it is added right after the copy, while
    the handler still writes the copied lines. *)
Example StreamLogs_loses_line_added_during_replay :
  let y := run [ActSnapshot; ActAddLog "x"; ActReadStatus; ActWrite; ActEndReplay;
                ActSubscribe; ActAddLog "y"; ActReceive;
                ActSetStatus StatusCompleted; ActCloseAll; ActReceive] (connect running) in
  (st_written (sys_stream y), st_phase (sys_stream y), LogLines (hub_task (sys_hub y)))
  = (["Task started"; "y"], Returned, ["Task started"; "x"; "y"]).
Proof. vm_compute. reflexivity. Qed.

End StreamExamples.

(* ===================================================================== *)
(** * The repository: missing keys, round trips, the listing *)
(* ===================================================================== *)

Module InMemoryTaskRepository.

(** [List]: the slices a call may return.  Go ranges over the map in an
    order of its choosing, so the result is any arrangement of the stored
    pointers, one per identifier. *)
Definition List (tasks : gmap string ptr) (result : list ptr) : Prop :=
  result ≡ₚ (map_to_list tasks).*2.

(** The operations that write to the repository. *)
Inductive op :=
| OpCreate (task : ptr)
| OpUpdate (task : ptr)
| OpDelete (id : string).

(** One operation on the map, for a heap of task objects; [None] is the nil
    dereference. *)
Definition apply (hp : gmap ptr SyncTask) (tasks : gmap string ptr) (o : op)
  : option (gmap string ptr * option error) :=
  match o with
  | OpCreate p => Create hp tasks p
  | OpUpdate p => Update hp tasks p
  | OpDelete id => Some (Delete tasks id)
  end.

(** A sequence of operations from [NewInMemoryTaskRepository()] on; the
    errors are dropped, as the callers in the service do after logging. *)
Fixpoint applyAll (hp : gmap ptr SyncTask) (tasks : gmap string ptr) (ops : list op)
  : option (gmap string ptr) :=
  match ops with
  | [] => Some tasks
  | o :: rest =>
      match apply hp tasks o with
      | Some (tasks', _) => applyAll hp tasks' rest
      | None => None
      end
  end.

End InMemoryTaskRepository.

(** X1.  [Update] of a task whose identifier is not stored fails with
    [ErrTaskNotFound] and leaves the repository as it was; otherwise it
    succeeds, the identifier gives the new pointer, and the set of stored
    identifiers is the same: [Update] never adds an entry. *)
Theorem Update_requires_existing (hp : gmap ptr SyncTask) (tasks : gmap string ptr)
    (task : ptr) (t : SyncTask) :
  hp !! task = Some t ->
  (tasks !! ID t = None ->
     Update hp tasks task = Some (tasks, Some ErrTaskNotFound))
  /\ (is_Some (tasks !! ID t) ->
      exists tasks', Update hp tasks task = Some (tasks', None)
        /\ Get tasks' (ID t) = (Some task, None)
        /\ dom tasks' = dom tasks
        /\ forall id, id <> ID t -> Get tasks' id = Get tasks id).
Proof.
  intros Hp. unfold Update, Get. rewrite Hp. split.
  - intros ->. reflexivity.
  - intros [q Hq]. rewrite Hq. eexists. split; [reflexivity|].
    rewrite lookup_insert_eq. split; [reflexivity|]. split.
    + rewrite dom_insert_L. apply elem_of_dom_2 in Hq. set_solver.
    + intros id Hid. by rewrite lookup_insert_ne.
Qed.

Lemma Update_requires_existing_witness :
  let hp : gmap ptr SyncTask := {[ 0%nat := NewSyncTask 5 "a" "src" "dst" "all" ]} in
  Update hp ∅ 0%nat = Some (∅, Some ErrTaskNotFound)
  /\ exists tasks', Update hp {[ "a" := 7%nat ]} 0%nat = Some (tasks', None)
       /\ Get tasks' "a" = (Some 0%nat, None).
Proof.
  intros hp.
  destruct (Update_requires_existing hp ∅ 0%nat (NewSyncTask 5 "a" "src" "dst" "all") eq_refl)
    as [H1 _].
  destruct (Update_requires_existing hp {[ "a" := 7%nat ]} 0%nat
              (NewSyncTask 5 "a" "src" "dst" "all") eq_refl) as [_ H2].
  split; [apply H1; reflexivity|].
  destruct H2 as (tasks' & E & G & _); [by eexists|]. eauto.
Defined.

(** X2.  [Delete] of an identifier that is not stored fails with
    [ErrTaskNotFound] and changes nothing; of a stored one it succeeds, after
    which [Get] of that identifier fails with [ErrTaskNotFound], a second
    [Delete] fails, and every other identifier gives what it gave.  Deleting a
    task right after creating it under a new identifier gives the repository
    back. *)
Theorem Delete_then_Get (tasks : gmap string ptr) (id : string) :
  (tasks !! id = None -> Delete tasks id = (tasks, Some ErrTaskNotFound))
  /\ (is_Some (tasks !! id) ->
      (Delete tasks id).2 = None
      /\ Get (Delete tasks id).1 id = (None, Some ErrTaskNotFound)
      /\ (Delete (Delete tasks id).1 id).2 = Some ErrTaskNotFound
      /\ forall id', id' <> id -> Get (Delete tasks id).1 id' = Get tasks id')
  /\ (forall (hp : gmap ptr SyncTask) (task : ptr) (t : SyncTask) tasks',
        hp !! task = Some t -> ID t = id -> tasks !! id = None ->
        Create hp tasks task = Some (tasks', None) ->
        Delete tasks' id = (tasks, None)).
Proof.
  unfold Delete, Get. split; [|split].
  - intros ->. reflexivity.
  - intros [q Hq]. rewrite Hq. simpl. rewrite lookup_delete_eq.
    repeat split. intros id' Hne. by rewrite lookup_delete_ne.
  - intros hp task t tasks' Hp <- Hnone. unfold Create. rewrite Hp.
    intros [= <-]. rewrite lookup_insert_eq. by rewrite delete_insert_id.
Qed.

(** X3.  Whatever sequence of [Create], [Update] and [Delete] runs on a new
    repository, every stored pointer is stored under the identifier of its own
    task, and [Get] of an identifier returns a task with that identifier. *)
Theorem repository_keyed_by_ID (hp : gmap ptr SyncTask)
    (ops : list InMemoryTaskRepository.op) (tasks : gmap string ptr) :
  InMemoryTaskRepository.applyAll hp ∅ ops = Some tasks ->
  keyed hp tasks
  /\ forall (id : string) (p : ptr), Get tasks id = (Some p, None) ->
       exists t, hp !! p = Some t /\ ID t = id.
Proof.
  intros H.
  assert (Hk : keyed hp tasks).
  { revert H. generalize (keyed_empty hp). generalize (∅ : gmap string ptr) as m.
    induction ops as [|o ops IH]; intros m Hm H; simpl in H.
    - by injection H as <-.
    - destruct (InMemoryTaskRepository.apply hp m o) as [[m' e]|] eqn:E; [|discriminate].
      apply (IH m'); [|exact H].
      destruct o as [p|p|id]; simpl in E.
      + by eapply Create_keyed.
      + by eapply Update_keyed.
      + injection E as E. pose proof (Delete_keyed hp m id Hm) as Hd.
        by rewrite E in Hd.  }
  split; [exact Hk|].
  intros id p. unfold Get. destruct (tasks !! id) as [q|] eqn:E; [|discriminate].
  intros [= <-]. by apply Hk.
Qed.

Lemma repository_keyed_by_ID_witness :
  let hp : gmap ptr SyncTask :=
    <[1%nat := NewSyncTask 7 "b" "src2" "dst2" "all"]>
      {[ 0%nat := NewSyncTask 5 "a" "src" "dst" "all" ]} in
  let ops := [InMemoryTaskRepository.OpCreate 0%nat;
              InMemoryTaskRepository.OpCreate 1%nat;
              InMemoryTaskRepository.OpDelete "a"] in
  exists tasks, InMemoryTaskRepository.applyAll hp ∅ ops = Some tasks /\ keyed hp tasks.
Proof.
  intros hp ops. eexists. split; [reflexivity|].
  eapply (repository_keyed_by_ID hp ops). reflexivity.
Defined.

(** X4.  [List] returns one pointer per stored identifier: as many as there
    are identifiers, a pointer is listed exactly when some identifier gives it,
    and in a repository whose entries are stored under their own identifiers no
    pointer is listed twice. *)
Theorem List_returns_stored (hp : gmap ptr SyncTask) (tasks : gmap string ptr)
    (result : list ptr) :
  InMemoryTaskRepository.List tasks result ->
  length result = size tasks
  /\ (forall p : ptr, p ∈ result <-> exists id, Get tasks id = (Some p, None))
  /\ (keyed hp tasks -> NoDup result).
Proof.
  unfold InMemoryTaskRepository.List. intros H. split; [|split].
  - rewrite H, length_fmap. apply length_map_to_list.
  - intros p. rewrite H, list_elem_of_fmap. unfold Get. split.
    + intros ([id q] & -> & Hin). apply elem_of_map_to_list in Hin.
      exists id. simpl. by rewrite Hin.
    + intros [id Hid]. destruct (tasks !! id) as [q|] eqn:E; [|discriminate].
      injection Hid as ->. exists (id, p). split; [reflexivity|].
      by apply elem_of_map_to_list.
  - intros Hk. rewrite H.
    apply (NoDup_fmap_2_strong snd); [|apply NoDup_map_to_list].
    intros [id1 p1] [id2 p2] H1%elem_of_map_to_list H2%elem_of_map_to_list Heq.
    simpl in Heq. subst p2.
    destruct (Hk _ _ H1) as (t1 & Ht1 & <-), (Hk _ _ H2) as (t2 & Ht2 & <-).
    congruence.
Qed.

Lemma List_returns_stored_witness :
  let tasks : gmap string ptr := <["b" := 1%nat]> {[ "a" := 0%nat ]} in
  length [1%nat; 0%nat] = size tasks
  /\ (forall p : ptr, p ∈ [1%nat; 0%nat] <-> exists id, Get tasks id = (Some p, None)).
Proof.
  intros tasks.
  destruct (List_returns_stored ∅ tasks [1%nat; 0%nat]) as (H1 & H2 & _); [|by split].
  unfold InMemoryTaskRepository.List.
  apply NoDup_Permutation.
  - repeat constructor; set_solver.
  - apply (NoDup_fmap_2_strong snd); [|apply NoDup_map_to_list].
    intros [i1 p1] [i2 p2] H1%elem_of_map_to_list H2%elem_of_map_to_list Heq.
    simpl in Heq. subst p2. unfold tasks in H1, H2.
    apply lookup_insert_Some in H1 as [[<- <-]|[? H1]];
      apply lookup_insert_Some in H2 as [[<- E2]|[? H2]];
      rewrite ?lookup_singleton_Some in *; naive_solver.
  - intros p. rewrite list_elem_of_fmap. split.
    + intros Hp. assert (p = 1%nat \/ p = 0%nat) as [-> | ->] by set_solver.
      * exists ("b", 1%nat). split; [done|]. by apply elem_of_map_to_list.
      * exists ("a", 0%nat). split; [done|]. by apply elem_of_map_to_list.
    + intros ([i q] & -> & Hin%elem_of_map_to_list). unfold tasks in Hin.
      apply lookup_insert_Some in Hin as [[<- <-]|[? Hin]]; [set_solver|].
      apply lookup_singleton_Some in Hin as [<- <-]. set_solver.
Defined.

(* ===================================================================== *)
(** * The listeners of a task *)
(* ===================================================================== *)

(** The state the methods of [SyncTask] keep: the registered channels are
    distinct, exist and are open. *)
Definition listenersOpen (h : Hub) : Prop :=
  NoDup (LogListeners (hub_task h))
  /\ forall r : chanref, r ∈ LogListeners (hub_task h) ->
       exists c, hub_chans h !! r = Some c /\ chan_closed c = false.

(** The methods of the task that take [logMu]. *)
Inductive method :=
| CallAddLog (line : string)
| CallAddLogListener
| CallRemoveLogListener (r : chanref)
| CallCloseAllLogListeners.

Definition call (h : Hub) (m : method) : Hub :=
  match m with
  | CallAddLog line => AddLog line h
  | CallAddLogListener => (AddLogListener h).2
  | CallRemoveLogListener r => RemoveLogListener r h
  | CallCloseAllLogListeners => CloseAllLogListeners h
  end.

Lemma foldl_alter_notin (f : chan -> chan) (l : list chanref) :
  forall (cs : gmap chanref chan) (r : chanref),
    r ∉ l -> foldl (fun cs r => alter f r cs) cs l !! r = cs !! r.
Proof.
  induction l as [|x l IH]; intros cs r Hr; [reflexivity|].
  simpl. rewrite IH by set_solver. apply lookup_alter_ne. set_solver.
Qed.

Lemma foldl_alter_in (f : chan -> chan) (l : list chanref) :
  forall (cs : gmap chanref chan) (r : chanref),
    NoDup l -> r ∈ l -> foldl (fun cs r => alter f r cs) cs l !! r = f <$> cs !! r.
Proof.
  induction l as [|x l IH]; intros cs r Hnd Hr; [set_solver|].
  apply NoDup_cons in Hnd as [Hx Hnd]. simpl.
  destruct (decide (r = x)) as [->|Hne].
  - rewrite foldl_alter_notin by done. apply lookup_alter_eq.
  - rewrite IH by set_solver. by rewrite lookup_alter_ne.
Qed.

Lemma foldl_alter_dom (f : chan -> chan) (l : list chanref) :
  forall cs : gmap chanref chan, dom (foldl (fun cs r => alter f r cs) cs l) = dom cs.
Proof.
  induction l as [|x l IH]; intros cs; [reflexivity|].
  simpl. rewrite IH. apply dom_alter_L.
Qed.

Lemma removeFirst_None (r : chanref) (l : list chanref) :
  removeFirst r l = None <-> r ∉ l.
Proof.
  induction l as [|x l IH]; simpl; [set_solver|].
  destruct (Nat.eqb_spec x r) as [->|Hne]; [set_solver|].
  destruct (removeFirst r l); [|set_solver].
  split; [done|]. intros H. assert (r ∉ l) by set_solver. naive_solver.
Qed.

Lemma removeFirst_Some (r : chanref) (l l' : list chanref) :
  NoDup l -> removeFirst r l = Some l' ->
  r ∈ l /\ (r ∉ l') /\ NoDup l' /\ forall x, x ∈ l' <-> x ∈ l /\ x <> r.
Proof.
  revert l'. induction l as [|x l IH]; intros l' Hnd H; simpl in H; [discriminate|].
  apply NoDup_cons in Hnd as [Hx Hnd].
  destruct (Nat.eqb_spec x r) as [->|Hne].
  - injection H as <-.
    split; [set_solver|]. split; [done|]. split; [done|].
    intros y. rewrite elem_of_cons. split; [|tauto].
    intros Hy. split; [tauto|]. intros ->. done.
  - destruct (removeFirst r l) as [l1|] eqn:E; [|discriminate]. injection H as <-.
    destruct (IH l1 Hnd eq_refl) as (H1 & H2 & H3 & H4).
    split; [set_solver|]. split.
    { rewrite elem_of_cons. intros [->|Hin]; done. }
    split.
    { apply NoDup_cons. split; [|done]. rewrite H4. tauto. }
    intros y. rewrite !elem_of_cons, H4. split.
    + intros [->|[Hin Hr]]; [split; [tauto|done]|tauto].
    + intros [[->|Hin] Hr]; tauto.
Qed.

Lemma AddLog_listenersOpen (line : string) (h : Hub) :
  listenersOpen h -> listenersOpen (AddLog line h).
Proof.
  intros [Hnd Hopen]. split; [exact Hnd|].
  intros r Hr. simpl in *. rewrite foldl_alter_in by done.
  destruct (Hopen r Hr) as (c & -> & Hc). simpl.
  eexists. split; [reflexivity|]. unfold trySend. by destruct (Nat.ltb _ _).
Qed.

Lemma AddLogListener_fresh (h : Hub) :
  listenersOpen h -> (AddLogListener h).1 ∉ LogListeners (hub_task h).
Proof.
  intros [_ Hopen] Hin. destruct (Hopen _ Hin) as (c & Hc & _).
  apply elem_of_dom_2 in Hc. simpl in Hc. by apply is_fresh in Hc.
Qed.

Lemma AddLogListener_listenersOpen (h : Hub) :
  listenersOpen h -> listenersOpen (AddLogListener h).2.
Proof.
  intros Hwf. pose proof (AddLogListener_fresh h Hwf) as Hfresh.
  destruct Hwf as [Hnd Hopen]. simpl in *. split.
  - apply NoDup_app. split; [done|]. split; [|apply NoDup_singleton].
    intros x Hx Hx'. apply list_elem_of_singleton in Hx'. by subst x.
  - intros r Hr. apply elem_of_app in Hr as [Hr|Hr].
    + simpl. rewrite lookup_insert_ne by (intros <-; done). by apply Hopen.
    + apply list_elem_of_singleton in Hr. subst r. simpl.
      rewrite lookup_insert_eq. by eexists.
Qed.

Lemma RemoveLogListener_listenersOpen (r : chanref) (h : Hub) :
  listenersOpen h -> listenersOpen (RemoveLogListener r h).
Proof.
  intros [Hnd Hopen]. unfold RemoveLogListener.
  destruct (removeFirst r (LogListeners (hub_task h))) as [l|] eqn:E; [|by split].
  destruct (removeFirst_Some _ _ _ Hnd E) as (H1 & H2 & H3 & H4).
  split; [exact H3|]. simpl. intros x Hx. apply H4 in Hx as [Hx Hne].
  rewrite lookup_alter_ne by done. by apply Hopen.
Qed.

Lemma CloseAllLogListeners_listenersOpen (h : Hub) :
  listenersOpen (CloseAllLogListeners h).
Proof. split; simpl; [constructor|set_solver]. Qed.

(** X5.  However the methods of a new task are called, its registered
    listener channels stay distinct and open: [AddLog] never sends on a closed
    channel, and no method closes a channel twice. *)
Theorem listeners_stay_open (now : Z) (id src dst arch : string) (calls : list method) :
  listenersOpen (foldl call (mkHub (NewSyncTask now id src dst arch) ∅) calls).
Proof.
  assert (H0 : listenersOpen (mkHub (NewSyncTask now id src dst arch) ∅)).
  { split; simpl; [constructor|set_solver]. }
  revert H0. generalize (mkHub (NewSyncTask now id src dst arch) ∅) as h.
  induction calls as [|m calls IH]; intros h Hh; [exact Hh|].
  simpl. apply IH. destruct m; simpl.
  - by apply AddLog_listenersOpen.
  - by apply AddLogListener_listenersOpen.
  - by apply RemoveLogListener_listenersOpen.
  - apply CloseAllLogListeners_listenersOpen.
Qed.

Lemma logAll_listenersOpen (lines : list string) : forall h : Hub,
  listenersOpen h -> listenersOpen (logAll lines h).
Proof.
  induction lines as [|l lines IH]; intros h Hh; [exact Hh|].
  simpl. apply IH. by apply AddLog_listenersOpen.
Qed.

Lemma logAll_LogLines (lines : list string) : forall h : Hub,
  LogLines (hub_task (logAll lines h)) = LogLines (hub_task h) ++ lines.
Proof.
  induction lines as [|l lines IH]; intros h; simpl; [by rewrite app_nil_r|].
  rewrite IH. simpl. by rewrite <- app_assoc.
Qed.

Lemma logAll_LogListeners (lines : list string) : forall h : Hub,
  LogListeners (hub_task (logAll lines h)) = LogListeners (hub_task h).
Proof.
  induction lines as [|l lines IH]; intros h; simpl; [reflexivity|]. by rewrite IH.
Qed.

Lemma logAll_buffer (lines : list string) : forall (h : Hub) (r : chanref) (buf : list string),
  listenersOpen h -> r ∈ LogListeners (hub_task h) ->
  hub_chans h !! r = Some (mkChan buf false) -> (length buf <= chanCap)%nat ->
  hub_chans (logAll lines h) !! r = Some (mkChan (take chanCap (buf ++ lines)) false).
Proof.
  induction lines as [|l lines IH]; intros h r buf Hwf Hr Hc Hlen.
  - simpl. rewrite app_nil_r, take_ge by done. exact Hc.
  - simpl.
    assert (Hc' : hub_chans (AddLog l h) !! r
                  = Some (trySend l (mkChan buf false))).
    { simpl. rewrite foldl_alter_in by (done || apply Hwf). by rewrite Hc. }
    unfold trySend in Hc'. simpl in Hc'.
    destruct (Nat.ltb_spec (length buf) chanCap) as [Hlt|Hge].
    + rewrite (IH (AddLog l h) r (buf ++ [l])); try done.
      * by rewrite <- app_assoc.
      * by apply AddLog_listenersOpen.
      * rewrite length_app. simpl. lia.
    + rewrite (IH (AddLog l h) r buf); try done.
      * rewrite !take_app_le by lia. reflexivity.
      * by apply AddLog_listenersOpen.
Qed.

(** X6.  A listener registered by [AddLogListener] on a task in the state
    above gets the lines logged from then on in their order, up to the capacity
    100 of its channel: while nothing is received, the first 100 lines are
    buffered and the later ones are dropped for this listener; the log of the
    task has all of them, and the listeners registered before keep their
    place. *)
Theorem listener_receives_until_full (h : Hub) (lines : list string) :
  listenersOpen h ->
  let '(r, h1) := AddLogListener h in
  let h2 := logAll lines h1 in
  hub_chans h2 !! r = Some (mkChan (take 100 lines) false)
  /\ LogLines (hub_task h2) = LogLines (hub_task h) ++ lines
  /\ LogListeners (hub_task h2) = LogListeners (hub_task h) ++ [r].
Proof.
  intros Hwf. destruct (AddLogListener h) as [r h1] eqn:E.
  pose proof (AddLogListener_listenersOpen h Hwf) as Hwf1. rewrite E in Hwf1. simpl in Hwf1.
  unfold AddLogListener in E. injection E as <- <-.
  split; [|split].
  - apply (logAll_buffer lines _ _ []); [exact Hwf1|simpl; set_solver| |unfold chanCap; simpl; lia].
    simpl. apply lookup_insert_eq.
  - by rewrite logAll_LogLines.
  - by rewrite logAll_LogListeners.
Qed.

Lemma listener_receives_until_full_witness :
  let h := mkHub (NewSyncTask 0 "id" "src" "dst" "all") ∅ in
  let '(r, h1) := AddLogListener h in
  let h2 := logAll ["a"; "b"] h1 in
  hub_chans h2 !! r = Some (mkChan (take 100 ["a"; "b"]) false)
  /\ LogLines (hub_task h2) = LogLines (hub_task h) ++ ["a"; "b"]
  /\ LogListeners (hub_task h2) = LogListeners (hub_task h) ++ [r].
Proof.
  apply (listener_receives_until_full
           (mkHub (NewSyncTask 0 "id" "src" "dst" "all") ∅) ["a"; "b"]).
  split; simpl; [constructor|set_solver].
Defined.

(** X7.  [CloseAllLogListeners] on a task in the state above closes every
    registered channel and keeps what is buffered in it, so a client can still
    receive those lines; no listener stays registered, and a line logged
    afterwards is added to the log and reaches no channel. *)
Theorem CloseAllLogListeners_closes_all (h : Hub) (line : string) :
  listenersOpen h ->
  let h' := CloseAllLogListeners h in
  (forall (r : chanref) (c : chan),
      r ∈ LogListeners (hub_task h) -> hub_chans h !! r = Some c ->
      hub_chans h' !! r = Some (mkChan (chan_buf c) true))
  /\ (forall r : chanref, r ∉ LogListeners (hub_task h) ->
        hub_chans h' !! r = hub_chans h !! r)
  /\ LogListeners (hub_task h') = []
  /\ hub_chans (AddLog line h') = hub_chans h'
  /\ LogLines (hub_task (AddLog line h')) = LogLines (hub_task h) ++ [line].
Proof.
  intros [Hnd Hopen]. simpl. split; [|split; [|repeat split]].
  - intros r c Hr Hc. rewrite foldl_alter_in by done. by rewrite Hc.
  - intros r Hr. by apply foldl_alter_notin.
Qed.

Lemma CloseAllLogListeners_closes_all_witness :
  let h := (AddLogListener (mkHub (NewSyncTask 0 "id" "src" "dst" "all") ∅)).2 in
  let h' := CloseAllLogListeners (AddLog "a" h) in
  hub_chans h' !! 0%nat = Some (mkChan ["a"] true)
  /\ LogListeners (hub_task h') = [].
Proof.
  intros h h'.
  destruct (CloseAllLogListeners_closes_all (AddLog "a" h) "b") as (H1 & _ & H3 & _).
  - apply AddLog_listenersOpen, AddLogListener_listenersOpen.
    split; simpl; [constructor|set_solver].
  - split; [|exact H3]. apply (H1 0%nat (mkChan ["a"] false)); [|reflexivity].
    vm_compute. set_solver.
Defined.

(** X8.  [RemoveLogListener] of a channel that is not registered changes
    nothing, so removing twice is removing once; of a registered channel it
    closes that channel with its buffered lines, takes it out of the listeners
    and leaves every other listener registered and its channel as it was. *)
Theorem RemoveLogListener_only_its_channel (h : Hub) (r : chanref) :
  listenersOpen h ->
  (r ∉ LogListeners (hub_task h) -> RemoveLogListener r h = h)
  /\ RemoveLogListener r (RemoveLogListener r h) = RemoveLogListener r h
  /\ (r ∈ LogListeners (hub_task h) ->
      let h' := RemoveLogListener r h in
      (r ∉ LogListeners (hub_task h'))
      /\ (forall c, hub_chans h !! r = Some c ->
            hub_chans h' !! r = Some (mkChan (chan_buf c) true))
      /\ (forall x : chanref, x <> r ->
            (x ∈ LogListeners (hub_task h') <-> x ∈ LogListeners (hub_task h))
            /\ hub_chans h' !! x = hub_chans h !! x)).
Proof.
  intros [Hnd Hopen].
  assert (Hnone : forall g : Hub, r ∉ LogListeners (hub_task g) -> RemoveLogListener r g = g).
  { intros g Hg. unfold RemoveLogListener.
    apply removeFirst_None in Hg. by rewrite Hg. }
  split; [apply Hnone|]. split.
  - destruct (decide (r ∈ LogListeners (hub_task h))) as [Hin|Hout].
    + apply Hnone. unfold RemoveLogListener.
      destruct (removeFirst r (LogListeners (hub_task h))) as [l|] eqn:E;
        [|by apply removeFirst_None in E].
      simpl. by destruct (removeFirst_Some _ _ _ Hnd E) as (_ & H2 & _).
    + rewrite (Hnone h Hout). by apply Hnone.
  - intros Hin. unfold RemoveLogListener.
    destruct (removeFirst r (LogListeners (hub_task h))) as [l|] eqn:E.
    + destruct (removeFirst_Some _ _ _ Hnd E) as (_ & H2 & _ & H4). simpl.
      split; [exact H2|]. split.
      * intros c Hc. by rewrite lookup_alter_eq, Hc.
      * intros x Hx. split; [rewrite H4; tauto|]. by rewrite lookup_alter_ne.
    + apply removeFirst_None in E. done.
Qed.

Lemma RemoveLogListener_only_its_channel_witness :
  let h := (AddLogListener (mkHub (NewSyncTask 0 "id" "src" "dst" "all") ∅)).2 in
  RemoveLogListener 5%nat h = h
  /\ 0%nat ∉ LogListeners (hub_task (RemoveLogListener 0%nat h)).
Proof.
  intros h.
  assert (Hwf : listenersOpen h).
  { apply AddLogListener_listenersOpen. split; simpl; [constructor|set_solver]. }
  destruct (RemoveLogListener_only_its_channel h 5%nat Hwf) as (H1 & _).
  destruct (RemoveLogListener_only_its_channel h 0%nat Hwf) as (_ & _ & H3).
  split.
  - apply H1. vm_compute. set_solver.
  - apply H3. vm_compute. set_solver.
Defined.

(* ===================================================================== *)
(** * [StreamLogs]: what a client can be sent *)
(* ===================================================================== *)

(** What every schedule keeps. *)
Definition streamInv (y : Sys) : Prop :=
  let h := sys_hub y in
  let log := LogLines (hub_task h) in
  let written := st_written (sys_stream y) in
  listenersOpen h
  /\ match st_phase (sys_stream y) with
     | Connected => written = []
     | Copied existingLogs => written = [] /\ sublist existingLogs log
     | Replaying pending _ => sublist (written ++ pending) log
     | Replayed => sublist written log
     | Streaming r =>
         exists c, hub_chans h !! r = Some c
                   /\ sublist (written ++ chan_buf c) log
                   /\ (r ∈ LogListeners (hub_task h) \/ chan_closed c = true)
     | Returned => sublist written log
     end.

Lemma sublist_snoc_r {A : Type} (l k : list A) (x : A) : sublist l k -> sublist l (k ++ [x]).
Proof. intros H. rewrite <- (app_nil_r l). by apply sublist_app; [|apply sublist_nil_l]. Qed.

Lemma sublist_snoc {A : Type} (l k : list A) (x : A) :
  sublist l k -> sublist (l ++ [x]) (k ++ [x]).
Proof. intros H. by apply sublist_app. Qed.

Lemma sublist_app_drop_r {A : Type} (l k m : list A) : sublist (l ++ k) m -> sublist l m.
Proof. intros H. transitivity (l ++ k); [|exact H]. by apply sublist_inserts_r. Qed.

Lemma RemoveLogListener_facts (r : chanref) (h : Hub) :
  listenersOpen h ->
  LogLines (hub_task (RemoveLogListener r h)) = LogLines (hub_task h)
  /\ dom (hub_chans (RemoveLogListener r h)) = dom (hub_chans h)
  /\ forall x, x ∈ LogListeners (hub_task (RemoveLogListener r h)) ->
       x ∈ LogListeners (hub_task h) /\ x <> r.
Proof.
  intros [Hnd Hopen]. unfold RemoveLogListener.
  destruct (removeFirst r (LogListeners (hub_task h))) as [l|] eqn:E; simpl.
  - destruct (removeFirst_Some _ _ _ Hnd E) as (_ & _ & _ & H4).
    split; [reflexivity|]. split; [apply dom_alter_L|]. intros x Hx. by apply H4.
  - apply removeFirst_None in E. split; [reflexivity|]. split; [reflexivity|].
    intros x Hx. split; [done|]. intros ->. done.
Qed.

(** What [RemoveLogListener r] does to another channel and to its own. *)
Lemma RemoveLogListener_chans (r : chanref) (h : Hub) :
  listenersOpen h ->
  (forall x, x <> r ->
     hub_chans (RemoveLogListener r h) !! x = hub_chans h !! x
     /\ (x ∈ LogListeners (hub_task h) -> x ∈ LogListeners (hub_task (RemoveLogListener r h))))
  /\ (forall c, hub_chans h !! r = Some c ->
        exists c', hub_chans (RemoveLogListener r h) !! r = Some c'
                   /\ chan_buf c' = chan_buf c
                   /\ (chan_closed c = true \/ r ∈ LogListeners (hub_task h) ->
                       chan_closed c' = true)).
Proof.
  intros [Hnd Hopen]. unfold RemoveLogListener.
  destruct (removeFirst r (LogListeners (hub_task h))) as [l|] eqn:E; simpl.
  - destruct (removeFirst_Some _ _ _ Hnd E) as (_ & _ & _ & H4). split.
    + intros x Hx. split; [by rewrite lookup_alter_ne|]. intros Hin. by apply H4.
    + intros c Hc. rewrite lookup_alter_eq, Hc. simpl. eexists. split; [reflexivity|].
      by split.
  - apply removeFirst_None in E. split; [done|].
    intros c Hc. exists c. split; [exact Hc|]. split; [reflexivity|].
    intros [H|H]; done.
Qed.

Lemma takeLine_listenersOpen (r : chanref) (h : Hub) :
  listenersOpen h -> listenersOpen (takeLine r h).
Proof.
  intros [Hnd Hopen]. unfold takeLine.
  destruct (hub_chans h !! r) as [c|] eqn:Hc; [|by split].
  destruct (chan_buf c) as [|l rest]; [by split|].
  split; [exact Hnd|]. simpl. intros x Hx.
  destruct (decide (x = r)) as [->|Hne].
  - rewrite lookup_insert_eq. destruct (Hopen r Hx) as (c' & Hc' & Hcl).
    rewrite Hc in Hc'. injection Hc' as <-. by eexists.
  - rewrite lookup_insert_ne by done. by apply Hopen.
Qed.

Lemma takeLine_other (r x : chanref) (h : Hub) :
  x <> r -> hub_chans (takeLine r h) !! x = hub_chans h !! x.
Proof.
  intros Hne. unfold takeLine. destruct (hub_chans h !! r) as [c|]; [|reflexivity].
  destruct (chan_buf c); [reflexivity|]. simpl. by rewrite lookup_insert_ne.
Qed.

Lemma takeLine_task (r : chanref) (h : Hub) : hub_task (takeLine r h) = hub_task h.
Proof.
  unfold takeLine. destruct (hub_chans h !! r) as [c|]; [|reflexivity].
  by destruct (chan_buf c).
Qed.

Lemma AddLogListener_other (h : Hub) (x : chanref) (c : chan) :
  hub_chans h !! x = Some c ->
  hub_chans (AddLogListener h).2 !! x = Some c
  /\ (x ∈ LogListeners (hub_task h) -> x ∈ LogListeners (hub_task (AddLogListener h).2))
  /\ (x ∉ LogListeners (hub_task h) -> x ∉ LogListeners (hub_task (AddLogListener h).2)).
Proof.
  intros Hc. simpl.
  assert (Hne : fresh (dom (hub_chans h)) <> x).
  { intros E. apply elem_of_dom_2 in Hc. rewrite <- E in Hc. by apply is_fresh in Hc. }
  split; [by rewrite lookup_insert_ne|]. split.
  - intros Hin. apply elem_of_app. by left.
  - intros Hout Hin. apply elem_of_app in Hin as [Hin|Hin]; [done|].
    apply list_elem_of_singleton in Hin. done.
Qed.

(** The steps of the executor, of the readers and of the other clients
    keep what the handler's channel holds and what has been logged. *)
Lemma step_streamInv (y : Sys) (a : action) : streamInv y -> streamInv (step y a).
Proof.
  destruct y as [h [ph written]]. unfold streamInv. simpl.
  intros (Hwf & Hph).
  destruct a as [ | | | | | | |line|s| | |r'|r'].
  - (* ActSnapshot *)
    destruct ph; simpl; try (split; [exact Hwf|exact Hph]).
    split; [exact Hwf|]. split; [exact Hph|]. reflexivity.
  - (* ActReadStatus *)
    destruct ph; simpl; try (split; [exact Hwf|exact Hph]).
    destruct Hph as [-> Hsub]. by split.
  - (* ActWrite *)
    destruct ph as [ | |[|l pending] st| | | ]; simpl; try (split; [exact Hwf|exact Hph]).
    split; [exact Hwf|]. by rewrite <- app_assoc.
  - (* ActEndReplay *)
    destruct ph as [ | |[|l pending] st| | | ]; simpl; try (split; [exact Hwf|exact Hph]).
    split; [exact Hwf|]. rewrite app_nil_r in Hph. by destruct (terminal st).
  - (* ActSubscribe *)
    destruct ph; simpl; try (split; [exact Hwf|exact Hph]).
    split; [by apply (AddLogListener_listenersOpen h)|]. simpl.
    eexists. rewrite lookup_insert_eq. split; [reflexivity|]. simpl.
    rewrite app_nil_r. split; [exact Hph|]. left. apply elem_of_app. right.
    by apply list_elem_of_singleton.
  - (* ActReceive *)
    destruct ph as [ | | | |r| ]; simpl; try (split; [exact Hwf|exact Hph]).
    destruct Hph as (c & Hc & Hsub & Hreg).
    unfold receive. simpl. rewrite Hc.
    destruct (chan_buf c) as [|l rest] eqn:Ebuf.
    + destruct (chan_closed c) eqn:Ecl; simpl.
      * destruct (RemoveLogListener_facts r h Hwf) as (E1 & _).
        split; [by apply RemoveLogListener_listenersOpen|].
        rewrite E1. by rewrite app_nil_r in Hsub.
      * split; [exact Hwf|]. exists c. rewrite Ebuf. split; [exact Hc|].
        split; [exact Hsub|]. destruct Hreg as [Hreg|Hreg]; [by left|discriminate Hreg].
    + simpl. split.
      { destruct Hwf as [Hnd Hopen]. split; [exact Hnd|]. simpl. intros x Hx.
        destruct (decide (x = r)) as [->|Hne].
        - rewrite lookup_insert_eq. destruct (Hopen r Hx) as (c' & Hc' & Hcl).
          rewrite Hc in Hc'. injection Hc' as <-. by eexists.
        - rewrite lookup_insert_ne by done. by apply Hopen. }
      eexists. rewrite lookup_insert_eq. split; [reflexivity|]. simpl.
      split; [by rewrite <- app_assoc|exact Hreg].
  - (* ActDisconnect *)
    destruct ph as [ | | | |r| ]; simpl; try (split; [exact Hwf|exact Hph]).
    destruct Hph as (c & Hc & Hsub & _).
    destruct (RemoveLogListener_facts r h Hwf) as (E1 & _).
    split; [by apply RemoveLogListener_listenersOpen|].
    rewrite E1. by eapply sublist_app_drop_r.
  - (* ActAddLog *)
    assert (Hwf' : listenersOpen (AddLog line h)) by by apply AddLog_listenersOpen.
    destruct ph as [ |l|pending st| |r| ]; simpl; (split; [exact Hwf'|]).
    + exact Hph.
    + destruct Hph as [-> Hsub]. split; [reflexivity|by apply sublist_snoc_r].
    + by apply sublist_snoc_r.
    + by apply sublist_snoc_r.
    + destruct Hph as (c & Hc & Hsub & Hreg).
      destruct (decide (r ∈ LogListeners (hub_task h))) as [Hin|Hout].
      * rewrite foldl_alter_in, Hc by (done || apply Hwf). simpl.
        eexists. split; [reflexivity|]. unfold trySend.
        destruct (Nat.ltb _ _); simpl.
        -- split; [|by left]. rewrite app_assoc. by apply sublist_snoc.
        -- split; [by apply sublist_snoc_r|by left].
      * rewrite foldl_alter_notin by done. exists c. split; [exact Hc|].
        split; [by apply sublist_snoc_r|exact Hreg].
    + by apply sublist_snoc_r.
  - (* ActSetStatus *)
    destruct ph; simpl; (split; [exact Hwf|exact Hph]).
  - (* ActCloseAll *)
    destruct ph as [ |l|pending st| |r| ]; simpl;
      (split; [apply (CloseAllLogListeners_listenersOpen h)|]); try exact Hph.
    destruct Hph as (c & Hc & Hsub & Hreg).
    destruct (decide (r ∈ LogListeners (hub_task h))) as [Hin|Hout].
    + rewrite foldl_alter_in, Hc by (done || apply Hwf). simpl.
      eexists. split; [reflexivity|]. split; [exact Hsub|by right].
    + rewrite foldl_alter_notin by done. exists c. split; [exact Hc|].
      split; [exact Hsub|]. right. by destruct Hreg.
  - (* ActOtherSubscribe *)
    assert (Hwf' : listenersOpen (AddLogListener h).2)
      by by apply AddLogListener_listenersOpen.
    destruct ph as [ |l|pending st| |r| ]; (split; [exact Hwf'|]); try exact Hph.
    destruct Hph as (c & Hc & Hsub & Hreg).
    destruct (AddLogListener_other h r c Hc) as (H1 & H2 & _).
    exists c. split; [exact H1|]. split; [exact Hsub|].
    destruct Hreg as [Hreg|Hreg]; [left; by apply H2|by right].
  - (* ActOtherReceive *)
    unfold step, ours. cbn [sys_stream st_phase sys_hub st_written].
    destruct ph as [ |l|pending st| |r| ];
      try (cbn [sys_stream st_phase sys_hub st_written];
           rewrite ?takeLine_task; split; [by apply takeLine_listenersOpen|exact Hph]).
    destruct (bool_decide_reflect (r = r')) as [<-|Hne];
      cbn [sys_stream st_phase sys_hub st_written].
    + split; [exact Hwf|exact Hph].
    + rewrite takeLine_task. split; [by apply takeLine_listenersOpen|].
      destruct Hph as (c & Hc & Hsub & Hreg). exists c.
      rewrite takeLine_other by done. by split.
  - (* ActOtherRemove *)
    unfold step, ours. cbn [sys_stream st_phase sys_hub st_written].
    destruct (RemoveLogListener_facts r' h Hwf) as (E1 & _).
    destruct ph as [ |l|pending st| |r| ];
      try (cbn [sys_stream st_phase sys_hub st_written];
           rewrite ?E1; split; [by apply RemoveLogListener_listenersOpen|exact Hph]).
    destruct (bool_decide_reflect (r = r')) as [<-|Hne];
      cbn [sys_stream st_phase sys_hub st_written].
    + split; [exact Hwf|exact Hph].
    + rewrite E1. split; [by apply RemoveLogListener_listenersOpen|].
      destruct Hph as (c & Hc & Hsub & Hreg). exists c.
      destruct (RemoveLogListener_chans r' h Hwf) as [Hother _].
      destruct (Hother r Hne) as [H1 H2]. rewrite H1.
      split; [exact Hc|]. split; [exact Hsub|].
      destruct Hreg as [Hreg|Hreg]; [left; by apply H2|by right].
Qed.

Lemma run_streamInv (schedule : list action) :
  forall y : Sys, streamInv y -> streamInv (run schedule y).
Proof.
  induction schedule as [|a schedule IH]; intros y Hy; [exact Hy|].
  simpl. apply IH. by apply step_streamInv.
Qed.

Lemma connect_streamInv (h : Hub) :
  listenersOpen h -> streamInv (mkSys h (mkStream Connected [])).
Proof. intros Hwf. by split. Qed.

(** X9.  Whatever the schedule of the handler, the executor and the readers,
    the lines [StreamLogs] has written to its client are lines of the task's
    log, in the order of the log and none of them twice: the written lines are
    a subsequence of the log. *)
Theorem StreamLogs_writes_subsequence_of_log (h : Hub) (schedule : list action) :
  listenersOpen h ->
  let y := run schedule (mkSys h (mkStream Connected [])) in
  sublist (st_written (sys_stream y)) (LogLines (hub_task (sys_hub y))).
Proof.
  intros Hwf y.
  pose proof (run_streamInv schedule _ (connect_streamInv h Hwf)) as (_ & H).
  fold y in H. cbv zeta in H.
  destruct (st_phase (sys_stream y)).
  - rewrite H. apply sublist_nil_l.
  - destruct H as [-> _]. apply sublist_nil_l.
  - by eapply sublist_app_drop_r.
  - apply H.
  - destruct H as (c & _ & H & _). by eapply sublist_app_drop_r.
  - apply H.
Qed.

Lemma StreamLogs_writes_subsequence_of_log_witness :
  let h := mkHub (mkSyncTask "id-1" "src" "dst" "all" StatusRunning "" "" "" 0 None
                    ["Task started"] []) ∅ in
  let y := run [ActSnapshot; ActReadStatus; ActWrite; ActEndReplay; ActAddLog "x";
                ActOtherSubscribe; ActSubscribe; ActAddLog "y"; ActReceive]
               (mkSys h (mkStream Connected [])) in
  sublist (st_written (sys_stream y)) (LogLines (hub_task (sys_hub y))).
Proof.
  intros h.
  apply (StreamLogs_writes_subsequence_of_log h
           [ActSnapshot; ActReadStatus; ActWrite; ActEndReplay; ActAddLog "x";
            ActOtherSubscribe; ActSubscribe; ActAddLog "y"; ActReceive]).
  split; simpl; [constructor|set_solver].
Defined.

(** The channel [r] of a handler that has returned: registered no more,
    and closed. *)
Definition retired (r : chanref) (y : Sys) : Prop :=
  st_phase (sys_stream y) = Returned
  /\ listenersOpen (sys_hub y)
  /\ (r ∉ LogListeners (hub_task (sys_hub y)))
  /\ exists c, hub_chans (sys_hub y) !! r = Some c /\ chan_closed c = true.

(** The channel [r] of a handler in its select loop. *)
Definition streaming (r : chanref) (y : Sys) : Prop :=
  st_phase (sys_stream y) = Streaming r /\ streamInv y.

Lemma step_retired (r : chanref) (y : Sys) (a : action) :
  retired r y -> retired r (step y a).
Proof.
  destruct y as [h [ph written]]. unfold retired. simpl.
  intros (-> & Hwf & Hout & c & Hc & Hcl).
  destruct a as [ | | | | | | |line|s| | |r'|r']; simpl;
    try (split; [reflexivity|split; [exact Hwf|split; [exact Hout|by exists c]]]).
  - (* ActAddLog *)
    split; [reflexivity|]. split; [by apply AddLog_listenersOpen|].
    split; [exact Hout|]. exists c. by rewrite foldl_alter_notin.
  - (* ActCloseAll *)
    split; [reflexivity|]. split; [apply (CloseAllLogListeners_listenersOpen h)|].
    split; [set_solver|]. exists c. by rewrite foldl_alter_notin.
  - (* ActOtherSubscribe *)
    destruct (AddLogListener_other h r c Hc) as (H1 & _ & H3).
    split; [reflexivity|]. split; [by apply (AddLogListener_listenersOpen h)|].
    split; [by apply H3|]. by exists c.
  - (* ActOtherReceive *)
    split; [reflexivity|]. split; [by apply takeLine_listenersOpen|].
    rewrite takeLine_task. split; [exact Hout|].
    destruct (decide (r = r')) as [<-|Hne].
    + unfold takeLine. rewrite Hc. destruct (chan_buf c); [by exists c|].
      simpl. rewrite lookup_insert_eq. by eexists.
    + rewrite takeLine_other by done. by exists c.
  - (* ActOtherRemove *)
    split; [reflexivity|]. split; [by apply RemoveLogListener_listenersOpen|].
    destruct (RemoveLogListener_facts r' h Hwf) as (_ & _ & E3).
    split; [intros Hin; by apply E3 in Hin as [Hin _]|].
    destruct (RemoveLogListener_chans r' h Hwf) as [Hother Hown].
    destruct (decide (r = r')) as [<-|Hne].
    + destruct (Hown c Hc) as (c' & Hc' & _ & Hcl'). exists c'. split; [exact Hc'|].
      apply Hcl'. by left.
    + destruct (Hother r Hne) as [H1 _]. rewrite H1. by exists c.
Qed.

Lemma step_streaming (r : chanref) (y : Sys) (a : action) :
  streaming r y -> streaming r (step y a) \/ retired r (step y a).
Proof.
  intros [Hph Hinv].
  pose proof (step_streamInv y a Hinv) as Hinv'.
  destruct y as [h [ph written]]. simpl in Hph. subst ph.
  destruct Hinv as (Hwf & c & Hc & Hsub & Hreg). simpl in Hwf, Hc, Hsub, Hreg.
  assert (Hgone : retired r (mkSys (RemoveLogListener r h) (mkStream Returned written))
                  \/ chan_closed c = false /\ r ∉ LogListeners (hub_task h)).
  { destruct (RemoveLogListener_facts r h Hwf) as (_ & _ & E3).
    destruct (RemoveLogListener_chans r h Hwf) as [_ Hown].
    destruct (Hown c Hc) as (c' & Hc' & _ & Hcl').
    destruct (chan_closed c) eqn:Ecl.
    - left. split; [reflexivity|]. split; [by apply RemoveLogListener_listenersOpen|].
      split; [intros Hin; by apply E3 in Hin as [_ Hin]|].
      exists c'. split; [exact Hc'|]. apply Hcl'. by left.
    - destruct (decide (r ∈ LogListeners (hub_task h))) as [Hin|Hout]; [|by right].
      left. split; [reflexivity|]. split; [by apply RemoveLogListener_listenersOpen|].
      split; [intros Hin'; by apply E3 in Hin' as [_ Hin']|].
      exists c'. split; [exact Hc'|]. apply Hcl'. by right. }
  destruct a as [ | | | | | | |line|s| | |r'|r'];
    try (left; split; [reflexivity|exact Hinv']).
  - (* ActReceive *)
    unfold step, receive in Hinv' |- *. cbn [sys_stream st_phase sys_hub st_written] in *.
    rewrite Hc in Hinv' |- *.
    destruct (chan_buf c) as [|l rest]; [|left; split; [reflexivity|exact Hinv']].
    destruct (chan_closed c) eqn:Ecl; [|left; split; [reflexivity|exact Hinv']].
    right. destruct Hgone as [Hgone|[Hgone _]]; [exact Hgone|discriminate Hgone].
  - (* ActDisconnect *)
    right. destruct Hgone as [Hgone|[Hcl Hout]]; [exact Hgone|].
    destruct Hreg as [Hreg|Hreg]; [done|congruence].
  - (* ActOtherReceive *)
    left. split; [|exact Hinv']. unfold step, ours.
    cbn [sys_stream st_phase sys_hub st_written].
    by destruct (bool_decide (r = r')).
  - (* ActOtherRemove *)
    left. split; [|exact Hinv']. unfold step, ours.
    cbn [sys_stream st_phase sys_hub st_written].
    by destruct (bool_decide (r = r')).
Qed.

Lemma run_streaming (r : chanref) (schedule : list action) : forall y : Sys,
  streaming r y \/ retired r y ->
  streaming r (run schedule y) \/ retired r (run schedule y).
Proof.
  induction schedule as [|a schedule IH]; intros y Hy; [exact Hy|].
  simpl. apply IH. destruct Hy as [Hy|Hy].
  - by apply step_streaming.
  - right. by apply step_retired.
Qed.

(** X10.  When [StreamLogs] has returned, by the end of the stream or by the
    client going away, the channel it registered is registered no more and is
    closed, whatever the executor, the readers and the other clients of the
    task do before and after. *)
Theorem StreamLogs_leaves_no_listener (h : Hub) (before after : list action) (r : chanref) :
  listenersOpen h ->
  let y1 := run before (mkSys h (mkStream Connected [])) in
  let y2 := run after y1 in
  st_phase (sys_stream y1) = Streaming r ->
  st_phase (sys_stream y2) = Returned ->
  (r ∉ LogListeners (hub_task (sys_hub y2)))
  /\ exists c, hub_chans (sys_hub y2) !! r = Some c /\ chan_closed c = true.
Proof.
  intros Hwf y1 y2 Hstream Hret.
  pose proof (run_streamInv before _ (connect_streamInv h Hwf)) as Hinv. fold y1 in Hinv.
  destruct (run_streaming r after y1) as [[H _]|(_ & _ & H)].
  - left. by split.
  - fold y2 in H. congruence.
  - exact H.
Qed.

(** The theorem at a client that goes away while a second client, which
    connected later, stays: the second channel is still registered, the first is
    not. *)
Lemma StreamLogs_leaves_no_listener_witness :
  let h := mkHub (mkSyncTask "id-1" "src" "dst" "all" StatusRunning "" "" "" 0 None
                    ["Task started"] []) ∅ in
  let y1 := run [ActSnapshot; ActReadStatus; ActWrite; ActEndReplay; ActSubscribe]
                (mkSys h (mkStream Connected [])) in
  let y2 := run [ActOtherSubscribe; ActAddLog "y"; ActDisconnect] y1 in
  LogListeners (hub_task (sys_hub y2)) = [1%nat]
  /\ (0%nat ∉ LogListeners (hub_task (sys_hub y2)))
  /\ exists c, hub_chans (sys_hub y2) !! 0%nat = Some c /\ chan_closed c = true.
Proof.
  intros h y1 y2. split; [reflexivity|].
  apply (StreamLogs_leaves_no_listener h
           [ActSnapshot; ActReadStatus; ActWrite; ActEndReplay; ActSubscribe]
           [ActOtherSubscribe; ActAddLog "y"; ActDisconnect] 0%nat).
  - split; simpl; [constructor|set_solver].
  - reflexivity.
  - reflexivity.
Defined.

(* ===================================================================== *)
(** * [ExecuteSync]: what it writes, and from which inputs *)
(* ===================================================================== *)

(** The lines logged before the process is started. *)
Definition preamble (o : Outcome) (task : SyncTask) (req : SyncRequest) : list string :=
  ["Task started at " +:+ startedText o]
  ++ (buildSkopeoArgs task req).2
  ++ ["Executing: " +:+ sanitizeCommand (buildSkopeoArgs task req).1].

(** The lines logged from the start of the process to the end of the run. *)
Definition processLines (s : syncService) (o : Outcome) : list string :=
  outputBeforeWait o
  ++ (if deadlineExceeded o
      then ["Timeout exceeded (" +:+ itoa (timeout s) +:+ "s)"] else [])
  ++ outputAfterWait o
  ++ [match runError s o with
      | Some e => "Sync failed: " +:+ Error e
      | None => "Sync completed at " +:+ endTimeText o
      end].

(** The lines that readers which outlive the five seconds of grace add
    after the closing line: those that are in the log when it is copied for
    [Output], and those that come later. *)
Definition lateBeforeOutput (o : Outcome) : list string :=
  late o 0 ++ late o 1 ++ late o 2.

Definition lateAfterOutput (s : syncService) (o : Outcome) : list string :=
  late o 3 ++ late o 4 ++ late o 5 ++ late o 6
  ++ match runError s o with Some _ => late o 7 | None => [] end
  ++ late o 8.

Lemma late_done (o : Outcome) (k : nat) : readersDone o = true -> late o k = [].
Proof. unfold late. by intros ->. Qed.

Lemma buildSkopeoArgs_reads (task task' : SyncTask) (req : SyncRequest) :
  Architecture task' = Architecture task -> SourceImage task' = SourceImage task ->
  DestImage task' = DestImage task ->
  buildSkopeoArgs task' req = buildSkopeoArgs task req.
Proof. unfold buildSkopeoArgs. by intros -> -> ->. Qed.

(** The task as [handleTaskError] leaves it. *)
Definition failedHub (o : Outcome) (message : string) (err : error) (h : Hub) : Hub :=
  onTask (set_EndTime (Some (errorTime o)))
    (onTask (set_ErrorOutput (Error err))
       (onTask (set_Message message)
          (onTask (set_Status StatusFailed) (AddLog ("Error: " +:+ Error err) h)))).

Lemma handleTaskError_hub (o : Outcome) (p : ptr) (message : string) (err : error) (e : Exec) :
  exists tasks' trace,
    handleTaskError o p message err e
    = (Some (Wrapped message err), mkExec (failedHub o message err (ex_hub e)) tasks' trace).
Proof.
  unfold handleTaskError.
  cbv [bind ret emit addLog setStatus setMessage setErrorOutput setEndTime].
  match goal with |- context [repoUpdate p ?e0] =>
    destruct (repoUpdate_run p e0) as (uerr & tasks' & -> & _) end.
  eexists _, _. reflexivity.
Qed.

Ltac task_fields :=
  cbv zeta;
  repeat (first [rewrite logAll_task
                |rewrite <- app_assoc
                |rewrite app_nil_r
                |progress cbn [ex_hub hub_task onTask AddLog CloseAllLogListeners
                               set_LogLines set_LogListeners set_Status set_Message
                               set_Output set_ErrorOutput set_EndTime
                               LogLines Output Message app fst snd]]);
  repeat split.

Lemma executeTask_log (s : syncService) (o : Outcome) (p : ptr) (req : SyncRequest) (e : Exec) :
  is_Some (ex_tasks e !! ID (hub_task (ex_hub e))) ->
  exists (err : option error) (e' : Exec),
    executeTask s o p req e = (err, e')
    /\ let t := hub_task (ex_hub e) in let t' := hub_task (ex_hub e') in
       match spawnError o with
       | Some (msg, x) =>
           LogLines t' = LogLines t ++ preamble o t req ++ ["Error: " +:+ Error x]
           /\ Output t' = Output t /\ Message t' = msg
       | None =>
           LogLines t'
           = LogLines t ++ preamble o t req ++ processLines s o
             ++ lateBeforeOutput o ++ lateAfterOutput s o
           /\ Output t'
              = Join (LogLines t ++ preamble o t req ++ processLines s o
                      ++ lateBeforeOutput o) (String "010" "")
           /\ Message t' = match runError s o with
                           | Some _ => "Sync failed"
                           | None => "Sync completed successfully"
                           end
       end.
Proof.
  destruct e as [h0 tasks0 trace0].
  intros Hsome. unfold executeTask. run_steps.
  match goal with |- context [repoUpdate p ?e0] =>
    destruct (repoUpdate_run p e0) as (uerr & tasks' & -> & Hu) end.
  destruct (Hu Hsome) as [-> _]. clear Hu. run_steps.
  simpl ex_hub. simpl ex_tasks. simpl ex_trace.
  unfold preamble.
  match goal with |- context [buildSkopeoArgs ?t req] =>
    rewrite (buildSkopeoArgs_reads (hub_task h0) t req) by reflexivity end.
  destruct (buildSkopeoArgs (hub_task h0) req) as [args logs].
  rewrite addLogs_run. run_steps. simpl ex_hub. simpl ex_tasks. simpl ex_trace.
  unfold spawnError.
  destruct (stdoutPipeErr o) as [x1|].
  { match goal with |- context [handleTaskError o p ?m ?x ?e0] =>
      destruct (handleTaskError_hub o p m x e0) as (tasks'' & tr & ->) end.
    eexists _, _. split; [reflexivity|]. unfold failedHub. task_fields. }
  destruct (stderrPipeErr o) as [x2|].
  { match goal with |- context [handleTaskError o p ?m ?x ?e0] =>
      destruct (handleTaskError_hub o p m x e0) as (tasks'' & tr & ->) end.
    eexists _, _. split; [reflexivity|]. unfold failedHub. task_fields. }
  destruct (startErr o) as [x3|].
  { match goal with |- context [handleTaskError o p ?m ?x ?e0] =>
      destruct (handleTaskError_hub o p m x e0) as (tasks'' & tr & ->) end.
    eexists _, _. split; [reflexivity|]. unfold failedHub. task_fields. }
  unfold processLines, lateBeforeOutput, lateAfterOutput, runError.
  destruct (deadlineExceeded o); [|destruct (waitErr o) as [x|]];
    run_logs;
    match goal with |- context [repoUpdate p ?e0] =>
      destruct (repoUpdate_run p e0) as (uerr & tasks'' & -> & _) end;
    run_logs;
    (eexists _, _; split; [reflexivity|]; task_fields).
Qed.

(** X11.  What a submitted job leaves in its task.  When the process was
    started, the log holds, in this order, the start line, the notes and the
    masked command of [buildSkopeoArgs], the output of the process (with the
    timeout line between what came before and after [cmd.Wait] when the
    deadline expired), one closing line, and then the lines that readers which
    have not ended within the five seconds of grace still add; [Output] is what
    the log holds when it is copied, joined by line feeds, so it lacks the
    lines that come later; the message says whether the sync failed; and
    [ExecuteSync] returns nil, also when the sync failed.  When the readers
    have ended in time, the log ends with the closing line and [Output] is the
    whole log.  When a pipe or the start failed, the log ends with the error
    line, [Output] stays empty, the message names the step that failed and the
    error is returned. *)
Theorem ExecuteSync_log_and_output (s : syncService) (o : Outcome) (now : Z)
    (taskID : string) (req : SyncRequest) (w : World) :
  exists (err : option error) (task : SyncTask) (trace : list event),
    submitAndExecute s o now taskID req w = Some (err, task, trace)
    /\ match spawnError o with
       | Some (msg, x) =>
           err = Some (Wrapped msg x)
           /\ LogLines task
              = preamble o (newTaskFor now taskID req) req ++ ["Error: " +:+ Error x]
           /\ Output task = "" /\ Message task = msg
       | None =>
           err = None
           /\ LogLines task
              = preamble o (newTaskFor now taskID req) req ++ processLines s o
                ++ lateBeforeOutput o ++ lateAfterOutput s o
           /\ Output task
              = Join (preamble o (newTaskFor now taskID req) req ++ processLines s o
                      ++ lateBeforeOutput o) (String "010" "")
           /\ (readersDone o = true ->
               LogLines task
               = preamble o (newTaskFor now taskID req) req ++ processLines s o
               /\ Output task = Join (LogLines task) (String "010" ""))
           /\ Message task = match runError s o with
                             | Some _ => "Sync failed"
                             | None => "Sync completed successfully"
                             end
       end.
Proof.
  unfold submitAndExecute, CreateSyncTask, Create, GetTask, ExecuteSync.
  set (p := fresh (dom (heap w))). set (task0 := newTaskFor now taskID req).
  rewrite lookup_insert_eq. cbv beta iota zeta.
  change (ID task0) with taskID.
  cbn [tasks heap chans]. unfold Get. rewrite !lookup_insert_eq.
  set (e0 := mkExec (mkHub task0 (chans w)) (<[taskID := p]> (tasks w)) []).
  destruct (executeTask_run s o p req e0) as (err & e' & E & H).
  { simpl. rewrite lookup_insert_eq. by eexists. }
  destruct (executeTask_log s o p req e0) as (err2 & e2 & E2 & H2).
  { simpl. rewrite lookup_insert_eq. by eexists. }
  rewrite E in E2. injection E2 as <- <-.
  rewrite E. cbn [heap]. rewrite lookup_insert_eq.
  exists err, (hub_task (ex_hub e')), (ex_trace e'). split; [reflexivity|].
  cbv zeta in H2. change (hub_task (ex_hub e0)) with task0 in H2.
  change (LogLines task0) with (@nil string) in H2.
  change (Output task0) with EmptyString in H2.
  destruct (spawnError o) as [[msg x]|].
  - destruct H as (-> & _). destruct H2 as (HL & HO & HM). rewrite HL, HO, HM. done.
  - destruct H as (-> & _). destruct H2 as (HL & HO & HM).
    change ([] ++ ?l) with l in HL, HO.
    split; [reflexivity|]. split; [exact HL|]. split; [exact HO|]. split; [|exact HM].
    intros Hdone. rewrite HL, HO. unfold lateBeforeOutput, lateAfterOutput.
    rewrite !(late_done o) by exact Hdone.
    destruct (runError s o); rewrite ?app_nil_r; by split.
Qed.

Section LateOutputExamples.

Let req : SyncRequest :=
  mkSyncRequest "a" "b" "" "" "" "" "" None None None.

(** A reader is still at work when the five seconds have passed: "late 1"
    arrives after the closing line and is in [Output], "late 2" arrives after
    the log is copied and is not. *)
Let slowReader : Outcome :=
  mkOutcome "T0" None None None ["Getting image"] None false [] 50 "T50" 0
            false [["late 1"]; []; []; ["late 2"]].

Example ExecuteSync_late_reader :
  option_map (fun r => (LogLines r.1.2, Output r.1.2, Status r.1.2))
    (submitAndExecute (mkSyncService 600) slowReader 10 "id-1" req (mkWorld ∅ ∅ ∅))
  = Some (["Task started at T0"; "Copying all architectures";
           "Executing: skopeo copy --src-tls-verify=true --dest-tls-verify=true --all docker://a docker://b";
           "Getting image"; "Sync completed at T50"; "late 1"; "late 2"],
          Join ["Task started at T0"; "Copying all architectures";
                "Executing: skopeo copy --src-tls-verify=true --dest-tls-verify=true --all docker://a docker://b";
                "Getting image"; "Sync completed at T50"; "late 1"] (String "010" ""),
          StatusCompleted).
Proof. vm_compute. reflexivity. Qed.

End LateOutputExamples.

Lemma buildSkopeoArgs_logs (task : SyncTask) (r1 r2 : SyncRequest) :
  sameButCredentials r1 r2 ->
  (buildSkopeoArgs task r1).2 = (buildSkopeoArgs task r2).2
  /\ sanitizeCommand (buildSkopeoArgs task r1).1 = sanitizeCommand (buildSkopeoArgs task r2).1.
Proof.
  intros (Hs & Hd & Hsu & Hsp & Hdu & Hdp). split.
  - unfold buildSkopeoArgs. rewrite Hsu, Hsp, Hdu, Hdp.
    destruct (negb (String.eqb (SourceUsername r2) "") && negb (String.eqb (SourcePassword r2) ""));
    destruct (negb (String.eqb (DestUsername r2) "") && negb (String.eqb (DestPassword r2) ""));
    destruct (String.eqb (Architecture task) "all");
    destruct (negb (String.eqb (Architecture task) ""));
    destruct (Split (Architecture task) "/") as [|p0 [|p1 [|p2 more]]];
    reflexivity.
  - unfold sanitizeCommand. rewrite !sanitizeArgs_layout.
    unfold tlsArgs, maskedArgs. by rewrite Hs, Hd, Hsu, Hsp, Hdu, Hdp.
Qed.

Lemma executeTask_credentials (s : syncService) (o : Outcome) (p : ptr)
    (r1 r2 : SyncRequest) (e : Exec) :
  sameButCredentials r1 r2 -> executeTask s o p r1 e = executeTask s o p r2 e.
Proof.
  intros Hsame. unfold executeTask. run_steps.
  match goal with |- context [repoUpdate p ?e0] =>
    destruct (repoUpdate_run p e0) as (uerr & tasks' & -> & _) end.
  destruct uerr; [reflexivity|]. run_steps.
  simpl ex_hub. simpl ex_tasks. simpl ex_trace.
  match goal with |- context [buildSkopeoArgs ?t r1] =>
    destruct (buildSkopeoArgs_logs t r1 r2 Hsame) as [Hlogs Hsan];
    destruct (buildSkopeoArgs t r1) as [a1 l1], (buildSkopeoArgs t r2) as [a2 l2] end.
  simpl in Hlogs, Hsan. subst l2. rewrite Hsan. reflexivity.
Qed.

(** X12.  The values of the credentials reach nothing that [ExecuteSync]
    writes or returns: run on the same world with the same outcome of the
    process, two requests that differ only in the values of their credentials
    give the same returned error, the same task objects (log, output, error
    output, status, message), channels and repository, and the same events. *)
Theorem ExecuteSync_hides_credentials (s : syncService) (o : Outcome)
    (taskID : string) (r1 r2 : SyncRequest) (w : World) :
  sameButCredentials r1 r2 ->
  ExecuteSync s o taskID r1 w = ExecuteSync s o taskID r2 w.
Proof.
  intros Hsame. unfold ExecuteSync.
  destruct (Get (tasks w) taskID) as [[p|] gerr]; [|reflexivity].
  destruct (heap w !! p) as [task|]; [|reflexivity].
  by rewrite (executeTask_credentials s o p r1 r2 _ Hsame).
Qed.

Lemma ExecuteSync_hides_credentials_witness :
  let o := mkOutcome "T0" None None None ["Getting image"] None false [] 50 "T50" 0 true [] in
  let r1 := mkSyncRequest "a" "b" "alice" "s3cret" "" "" "" None None (Some 3%Z) in
  let r2 := mkSyncRequest "a" "b" "bob" "hunter2" "" "" "" None None None in
  let w := mkWorld {[ 0%nat := newTaskFor 10 "id-1" r1 ]} ∅ {[ "id-1" := 0%nat ]} in
  ExecuteSync (mkSyncService 600) o "id-1" r1 w
  = ExecuteSync (mkSyncService 600) o "id-1" r2 w.
Proof.
  intros o r1 r2 w.
  apply (ExecuteSync_hides_credentials (mkSyncService 600) o "id-1" r1 r2 w).
  repeat split; reflexivity.
Defined.

(* ===================================================================== *)
(** * [CreateSyncTask] and [ExecuteSync]: what they touch *)
(* ===================================================================== *)

Ltac task_ids :=
  cbv zeta;
  repeat (first [rewrite logAll_task
                |progress cbn [ex_hub ex_tasks hub_task onTask AddLog CloseAllLogListeners
                               failedHub
                               set_LogLines set_LogListeners set_Status set_Message
                               set_Output set_ErrorOutput set_EndTime
                               ID SourceImage DestImage Architecture StartTime]]).

Lemma executeTask_frame (s : syncService) (o : Outcome) (p : ptr) (req : SyncRequest) (e : Exec) :
  is_Some (ex_tasks e !! ID (hub_task (ex_hub e))) ->
  exists (err : option error) (e' : Exec),
    executeTask s o p req e = (err, e')
    /\ let t := hub_task (ex_hub e) in let t' := hub_task (ex_hub e') in
       ex_tasks e' = <[ID t := p]> (ex_tasks e)
       /\ ID t' = ID t /\ SourceImage t' = SourceImage t /\ DestImage t' = DestImage t
       /\ Architecture t' = Architecture t /\ StartTime t' = StartTime t.
Proof.
  destruct e as [h0 tasks0 trace0]. set (e := mkExec h0 tasks0 trace0).
  intros Hsome. unfold executeTask. run_steps.
  match goal with |- context [repoUpdate p ?e0] =>
    destruct (repoUpdate_run p e0) as (uerr & tasks' & -> & Hu) end.
  destruct (Hu Hsome) as [-> ->]. clear Hu. run_steps.
  simpl ex_hub. simpl ex_tasks. simpl ex_trace.
  match goal with |- context [buildSkopeoArgs ?t req] =>
    destruct (buildSkopeoArgs t req) as [args logs] end.
  rewrite addLogs_run. run_steps. simpl ex_hub. simpl ex_tasks. simpl ex_trace.
  assert (Hagain : forall e0 : Exec,
            ID (hub_task (ex_hub e0)) = ID (hub_task (ex_hub e)) ->
            ex_tasks e0 = <[ID (hub_task (ex_hub e)) := p]> (ex_tasks e) ->
            exists uerr, repoUpdate p e0
              = (uerr, mkExec (ex_hub e0) (<[ID (hub_task (ex_hub e)) := p]> (ex_tasks e))
                         (ex_trace e0 ++ [EvRepoUpdate uerr]))).
  { intros e0 Hid Ht. destruct (repoUpdate_run p e0) as (uerr & tasks' & -> & Hu).
    destruct Hu as [-> ->].
    - rewrite Hid, Ht, lookup_insert_eq. by eexists.
    - exists None. by rewrite Hid, Ht, insert_insert_eq. }
  assert (Hfail : forall m x (e0 : Exec),
            ID (hub_task (ex_hub e0)) = ID (hub_task (ex_hub e)) ->
            ex_tasks e0 = <[ID (hub_task (ex_hub e)) := p]> (ex_tasks e) ->
            exists tr, handleTaskError o p m x e0
              = (Some (Wrapped m x),
                 mkExec (failedHub o m x (ex_hub e0))
                        (<[ID (hub_task (ex_hub e)) := p]> (ex_tasks e)) tr)).
  { intros m x e0 Hid Ht. unfold handleTaskError.
    cbv [bind ret emit addLog setStatus setMessage setErrorOutput setEndTime].
    match goal with |- context [repoUpdate p ?e1] =>
      destruct (Hagain e1) as (uerr & ->); [exact Hid|exact Ht|] end.
    eexists. reflexivity. }
  destruct (stdoutPipeErr o) as [x1|].
  { match goal with |- context [handleTaskError o p ?m ?x ?e0] =>
      destruct (Hfail m x e0) as (tr & ->); [by task_ids|reflexivity|] end.
    eexists _, _. split; [reflexivity|]. task_ids. done. }
  destruct (stderrPipeErr o) as [x2|].
  { match goal with |- context [handleTaskError o p ?m ?x ?e0] =>
      destruct (Hfail m x e0) as (tr & ->); [by task_ids|reflexivity|] end.
    eexists _, _. split; [reflexivity|]. task_ids. done. }
  destruct (startErr o) as [x3|].
  { match goal with |- context [handleTaskError o p ?m ?x ?e0] =>
      destruct (Hfail m x e0) as (tr & ->); [by task_ids|reflexivity|] end.
    eexists _, _. split; [reflexivity|]. task_ids. done. }
  destruct (deadlineExceeded o); [|destruct (waitErr o) as [x|]];
    run_logs;
    match goal with |- context [repoUpdate p ?e0] =>
      destruct (Hagain e0) as (uerr & ->); [by task_ids|reflexivity|] end;
    run_logs;
    (eexists _, _; split; [reflexivity|]; task_ids; done).
Qed.

(** X13.  [CreateSyncTask] never fails.  It returns the identifier it was
    given and a nil error; afterwards [GetTask] of that identifier gives a task
    object that did not exist before: pending, with the images of the request,
    the architecture of the request or "all" when that is empty, the message
    "Task created", no end time, an empty log and no listeners.  Every other
    identifier, every other task object and every channel is as before, and a
    repository whose entries are stored under their own identifiers stays so. *)
Theorem CreateSyncTask_registers_pending_task (now : Z) (taskID : string)
    (req : SyncRequest) (w : World) :
  exists (w' : World) (p : ptr),
    CreateSyncTask now taskID req w = Some (taskID, None, w')
    /\ GetTask taskID w' = (Some p, None)
    /\ heap w !! p = None
    /\ heap w' !! p
       = Some (mkSyncTask taskID (req_SourceImage req) (req_DestImage req)
                 (if String.eqb (req_Architecture req) "" then "all"
                  else req_Architecture req)
                 StatusPending "Task created" "" "" now None [] [])
    /\ (forall q : ptr, q <> p -> heap w' !! q = heap w !! q)
    /\ (forall id : string, id <> taskID -> GetTask id w' = GetTask id w)
    /\ chans w' = chans w
    /\ (keyed (heap w) (tasks w) -> keyed (heap w') (tasks w')).
Proof.
  unfold CreateSyncTask, Create, GetTask, Get.
  set (p := fresh (dom (heap w))).
  assert (Hp : heap w !! p = None).
  { apply not_elem_of_dom. apply is_fresh. }
  rewrite lookup_insert_eq. cbv beta iota zeta.
  change (ID (newTaskFor now taskID req)) with taskID.
  eexists _, p. split; [reflexivity|]. cbn [tasks heap chans].
  rewrite !lookup_insert_eq.
  split; [reflexivity|]. split; [exact Hp|]. split; [reflexivity|].
  split; [intros q Hq; by rewrite lookup_insert_ne|].
  split; [intros id Hid; by rewrite lookup_insert_ne|].
  split; [reflexivity|].
  intros Hk k q Hq.
  destruct (decide (taskID = k)) as [<-|Hne].
  - rewrite lookup_insert_eq in Hq. injection Hq as <-.
    rewrite lookup_insert_eq. by eexists.
  - rewrite lookup_insert_ne in Hq by done.
    destruct (Hk k q Hq) as (t & Ht & Hid). exists t. split; [|exact Hid].
    rewrite lookup_insert_ne; [exact Ht|]. intros <-. congruence.
Qed.

(** X14.  [ExecuteSync] touches its own task only.  For an identifier that
    is not stored it returns the wrapped not-found error and changes nothing.
    For a stored one (in a repository whose entries are stored under their own
    identifiers) it always returns; the repository maps every identifier to the
    pointer it had; every other task object is as before; and the task itself
    keeps its identifier, images, architecture and start time, and its old log
    as the beginning of the new one. *)
Theorem ExecuteSync_touches_only_its_task (s : syncService) (o : Outcome)
    (taskID : string) (req : SyncRequest) (w : World) :
  keyed (heap w) (tasks w) ->
  match tasks w !! taskID with
  | None =>
      ExecuteSync s o taskID req w
      = Some (Some (Wrapped "failed to get task" ErrTaskNotFound), w, [])
  | Some p =>
      exists (err : option error) (w' : World) (trace : list event) (t t' : SyncTask),
        ExecuteSync s o taskID req w = Some (err, w', trace)
        /\ tasks w' = tasks w
        /\ (forall q : ptr, q <> p -> heap w' !! q = heap w !! q)
        /\ heap w !! p = Some t /\ heap w' !! p = Some t'
        /\ ID t' = taskID /\ SourceImage t' = SourceImage t
        /\ DestImage t' = DestImage t /\ Architecture t' = Architecture t
        /\ StartTime t' = StartTime t
        /\ LogLines t `prefix_of` LogLines t'
        /\ keyed (heap w') (tasks w')
  end.
Proof.
  intros Hk. unfold ExecuteSync, Get.
  destruct (tasks w !! taskID) as [p|] eqn:Hp; [|reflexivity].
  destruct (Hk _ _ Hp) as (t & Ht & Hid). rewrite Ht.
  set (e0 := mkExec (mkHub t (chans w)) (tasks w) []).
  assert (Hsome : is_Some (ex_tasks e0 !! ID (hub_task (ex_hub e0)))).
  { simpl. rewrite Hid, Hp. by eexists. }
  destruct (executeTask_frame s o p req e0 Hsome) as (err & e' & E & Hf).
  destruct (executeTask_log s o p req e0 Hsome) as (err2 & e2 & E2 & Hl).
  rewrite E in E2. injection E2 as <- <-. rewrite E.
  cbv zeta in Hf, Hl. change (hub_task (ex_hub e0)) with t in Hf, Hl.
  change (ex_tasks e0) with (tasks w) in Hf.
  destruct Hf as (Htasks & Hi & Hsrc & Hdst & Harch & Hstart).
  rewrite Hid, insert_id in Htasks by exact Hp.
  exists err, (mkWorld (<[p := hub_task (ex_hub e')]> (heap w))
                 (hub_chans (ex_hub e')) (ex_tasks e')),
         (ex_trace e'), t, (hub_task (ex_hub e')).
  cbn [tasks heap].
  split; [reflexivity|]. split; [exact Htasks|].
  split; [intros q Hq; by rewrite lookup_insert_ne|].
  split; [reflexivity|]. split; [by rewrite lookup_insert_eq|].
  split; [congruence|]. split; [exact Hsrc|]. split; [exact Hdst|].
  split; [exact Harch|]. split; [exact Hstart|].
  split.
  - destruct (spawnError o) as [[msg x]|]; destruct Hl as (-> & _); by eexists.
  - rewrite Htasks. intros k q Hq.
    destruct (decide (q = p)) as [->|Hne].
    + rewrite lookup_insert_eq. eexists. split; [reflexivity|].
      destruct (Hk _ _ Hq) as (t1 & Ht1 & Hid1). congruence.
    + rewrite lookup_insert_ne by done. by apply Hk.
Qed.

Lemma ExecuteSync_touches_only_its_task_witness :
  let o := mkOutcome "T0" None None None ["Getting image"] None false [] 50 "T50" 0 true [] in
  let req := mkSyncRequest "a" "b" "" "" "" "" "" None None None in
  let w := mkWorld {[ 0%nat := newTaskFor 10 "id-1" req ]} ∅ {[ "id-1" := 0%nat ]} in
  exists (err : option error) (w' : World) (trace : list event) (t t' : SyncTask),
    ExecuteSync (mkSyncService 600) o "id-1" req w = Some (err, w', trace)
    /\ tasks w' = tasks w
    /\ (forall q : ptr, q <> 0%nat -> heap w' !! q = heap w !! q)
    /\ heap w !! 0%nat = Some t /\ heap w' !! 0%nat = Some t'
    /\ ID t' = "id-1" /\ SourceImage t' = SourceImage t
    /\ DestImage t' = DestImage t /\ Architecture t' = Architecture t
    /\ StartTime t' = StartTime t
    /\ LogLines t `prefix_of` LogLines t'
    /\ keyed (heap w') (tasks w').
Proof.
  intros o req w.
  assert (Hk : keyed (heap w) (tasks w)).
  { intros k q Hq. unfold w in Hq. cbn [tasks] in Hq.
    apply lookup_singleton_Some in Hq as [<- <-].
    eexists. split; reflexivity. }
  exact (ExecuteSync_touches_only_its_task (mkSyncService 600) o "id-1" req w Hk).
Defined.

(* ===================================================================== *)
(** * [sortTasks] on any other key: the start time *)
(* ===================================================================== *)

(** The order on start times that [sortTasks] is asked for: descending for
    "desc", ascending for every other value of the order. *)
Definition startTimeOrder (sortOrder : string) (a b : SyncTask) : Prop :=
  if String.eqb sortOrder "desc" then (StartTime b <= StartTime a)%Z
  else (StartTime a <= StartTime b)%Z.

Lemma startTime_inOrder (sortBy sortOrder : string) (a b : SyncTask) :
  String.eqb sortBy "endTime" = false ->
  inOrder (shouldSwap sortBy sortOrder) a b <-> startTimeOrder sortOrder a b.
Proof.
  intros E. unfold inOrder, shouldSwap, startTimeOrder. rewrite E.
  destruct (String.eqb sortOrder "desc"); rewrite Z.ltb_ge; reflexivity.
Qed.

(** The tasks with start time [k], in the order of the list. *)
Definition withStartTime (k : Z) (tasks : list SyncTask) : list SyncTask :=
  List.filter (fun task => bool_decide (StartTime task = k)) tasks.

(** X15.  Every sort key other than "endTime" (the empty one and unknown
    ones included) sorts by start time: the result is a rearrangement of the
    tasks, in descending order of start time for the order "desc" and in
    ascending order for every other order, and tasks of equal start time keep
    the order they had. *)
Theorem sortTasks_startTime_stable (tasks : list SyncTask) (sortBy sortOrder : string) :
  String.eqb sortBy "endTime" = false ->
  let sorted := sortTasks tasks sortBy sortOrder in
  Permutation sorted tasks
  /\ (forall (i j : nat) (t1 t2 : SyncTask),
        sorted !! i = Some t1 -> sorted !! j = Some t2 -> (i < j)%nat ->
        startTimeOrder sortOrder t1 t2)
  /\ (forall k : Z, withStartTime k sorted = withStartTime k tasks).
Proof.
  intros E sorted.
  split; [apply bubbleSort_Permutation|]. split.
  - intros i j t1 t2 Hi Hj Hlt.
    apply (startTime_inOrder sortBy sortOrder t1 t2 E).
    refine (StronglySorted_lookup _ _ _ i j t1 t2 Hi Hj Hlt).
    apply bubbleSort_sorted.
    + intros a b. rewrite !(startTime_inOrder sortBy sortOrder) by exact E.
      unfold startTimeOrder. destruct (String.eqb sortOrder "desc"); lia.
    + intros a b c. rewrite !(startTime_inOrder sortBy sortOrder) by exact E.
      unfold startTimeOrder. destruct (String.eqb sortOrder "desc"); lia.
  - intros k. apply bubbleSort_filter.
    intros a b Hs Ha%bool_decide_eq_true Hb%bool_decide_eq_true.
    unfold shouldSwap in Hs. rewrite E in Hs.
    destruct (String.eqb sortOrder "desc"); apply Z.ltb_lt in Hs; lia.
Qed.

(** The theorem for an unknown key and an unknown order at three tasks,
    two of which started at the same time. *)
Lemma sortTasks_startTime_stable_witness :
  let mk := fun (id : string) (start : Z) =>
    mkSyncTask id "s" "d" "all" StatusRunning "" "" "" start None [] [] in
  let tasks := [mk "b1" 2%Z; mk "a" 1%Z; mk "b2" 2%Z] in
  let sorted := sortTasks tasks "created" "up" in
  Permutation sorted tasks
  /\ startTimeOrder "up" (mk "a" 1%Z) (mk "b1" 2%Z)
  /\ withStartTime 2%Z sorted = [mk "b1" 2%Z; mk "b2" 2%Z].
Proof.
  intros mk tasks sorted.
  destruct (sortTasks_startTime_stable tasks "created" "up" eq_refl) as (Hp & Ho & Hs).
  split; [exact Hp|]. split.
  - apply (Ho 0%nat 1%nat); [reflexivity|reflexivity|lia].
  - rewrite Hs. reflexivity.
Defined.

(* ===================================================================== *)
(** * [ListTasks]: the filter, the bounds of a page, and when it panics *)
(* ===================================================================== *)

(** The tasks a request asks for: all of them for the empty status. *)
Definition wanted (req : TaskListRequest) (task : SyncTask) : bool :=
  if negb (String.eqb (req_Status req) "") then String.eqb (Status task) (req_Status req)
  else true.

Lemma selected_Permutation (tasks : list SyncTask) (req : TaskListRequest) :
  Permutation (selected tasks req) (List.filter (wanted req) tasks).
Proof.
  unfold selected, sortTasks, wanted.
  etransitivity; [apply bubbleSort_Permutation|].
  destruct (negb (String.eqb (req_Status req) "")); [reflexivity|].
  induction tasks as [|t tasks IH]; [reflexivity|]. simpl. by constructor.
Qed.

Lemma wrap64_range (z : Z) : (- 2 ^ 63 <= wrap64 z <= maxInt)%Z.
Proof.
  unfold wrap64, maxInt.
  pose proof (Z.mod_pos_bound (z + 2 ^ 63) (2 ^ 64) ltac:(lia)). lia.
Qed.

Lemma wrap64_add_small (a b : Z) :
  (- 2 ^ 63 <= a <= maxInt)%Z -> (1 <= b <= 100)%Z ->
  wrap64 (a + b) = (a + b)%Z \/ (maxInt < a + b /\ wrap64 (a + b) < 0)%Z.
Proof.
  intros Ha Hb. unfold maxInt in *.
  destruct (Z_le_gt_dec (a + b) (2 ^ 63 - 1)) as [Hle|Hgt].
  - left. apply wrap64_small. unfold maxInt. lia.
  - right. split; [lia|]. unfold wrap64.
    replace (a + b + 2 ^ 63)%Z with ((a + b - 2 ^ 63) + 1 * 2 ^ 64)%Z by lia.
    rewrite Z.mod_add by lia. rewrite Z.mod_small by lia. lia.
Qed.

Lemma slice_Some {A : Type} (l page : list A) (start end_ : Z) :
  slice l start end_ = Some page ->
  (0 <= start <= end_)%Z /\ (end_ <= Z.of_nat (length l))%Z
  /\ page = firstn (Z.to_nat (end_ - start)) (skipn (Z.to_nat start) l).
Proof.
  unfold slice.
  destruct (Z.leb_spec 0 start), (Z.leb_spec start end_),
           (Z.leb_spec end_ (Z.of_nat (length l))); simpl; try discriminate.
  intros [= <-]. split; [lia|split; [lia|reflexivity]].
Qed.

Lemma slice_None {A : Type} (l : list A) (start end_ : Z) :
  slice l start end_ = None ->
  (start < 0 \/ end_ < start \/ Z.of_nat (length l) < end_)%Z.
Proof.
  unfold slice.
  destruct (Z.leb_spec 0 start), (Z.leb_spec start end_),
           (Z.leb_spec end_ (Z.of_nat (length l))); simpl; try discriminate; lia.
Qed.

(** X16.  What [ListTasks] answers for every request, whatever the page.
    An error of the repository is returned wrapped, without a response.
    Otherwise there is no error, and the total is the number of stored tasks
    with the requested status (of all tasks for the empty status), whatever the
    page and the order; the page holds at most page-size entries, the page size
    being between 1 and 100; its entries are the summaries of tasks that stand
    in this order among the selected, sorted tasks, so each is a stored task
    with the requested status.  The slice expression panics only when
    [(page-1)*pageSize + pageSize] exceeds Go's [int]. *)
Theorem ListTasks_filters_and_bounds (tasks : list SyncTask) (req : TaskListRequest) :
  (forall e : error,
     ListTasks tasks (Some e) req = Some (None, Some (Wrapped "failed to list tasks" e)))
  /\ match ListTasks tasks None req with
     | Some (Some resp, None) =>
         Total resp = Z.of_nat (length (List.filter (wanted req) tasks))
         /\ (1 <= resp_PageSize resp <= 100)%Z
         /\ (Z.of_nat (length (Tasks resp)) <= resp_PageSize resp)%Z
         /\ (exists page : list SyncTask,
               Tasks resp = map summary page
               /\ page `sublist_of` selected tasks req
               /\ Forall (fun task => task ∈ tasks /\ wanted req task = true) page)
     | Some _ => False
     | None =>
         (maxInt < (effectivePage req - 1) * effectivePageSize req
                   + effectivePageSize req)%Z
     end.
Proof.
  split; [reflexivity|].
  pose proof (effectivePageSize_range req) as Hps.
  pose proof (effectivePage_range req) as Hp.
  rewrite ListTasks_unfold. cbv zeta.
  set (ps := effectivePageSize req) in *. set (page := effectivePage req) in *.
  set (sel := selected tasks req). set (total := Z.of_nat (length sel)).
  set (start := int_mul (int_sub page 1) ps).
  set (end_ := int_add start ps).
  assert (Htotal : (0 <= total)%Z) by (unfold total; lia).
  pose proof (wrap64_range (int_sub page 1 * ps)) as Hstart. fold (int_mul (int_sub page 1) ps) in Hstart.
  fold start in Hstart.
  pose proof (wrap64_add_small start ps Hstart Hps) as Hend.
  fold (int_add start ps) in Hend. fold end_ in Hend.
  destruct (slice sel _ _) as [paged|] eqn:Hs.
  - apply slice_Some in Hs as (Hlo & Hhi & ->). fold total in Hhi.
    cbn [Total resp_PageSize Tasks].
    split; [|split; [exact Hps|split]].
    + unfold total, sel. f_equal. apply Permutation_length, selected_Permutation.
    + rewrite length_map, length_firstn.
      destruct (Z.ltb_spec total start), (Z.ltb_spec total end_); lia.
    + eexists. split; [reflexivity|].
      assert (Hsub : firstn (Z.to_nat ((if (total <? end_)%Z then total else end_)
                                      - (if (total <? start)%Z then total else start)))
                       (skipn (Z.to_nat (if (total <? start)%Z then total else start)) sel)
                     `sublist_of` sel).
      { etransitivity; [apply sublist_take|apply sublist_drop]. }
      split; [exact Hsub|].
      apply Forall_forall. intros t Ht.
      apply (elem_of_sublist _ _ _ Ht) in Hsub as Ht'. clear Ht. rename Ht' into Ht.
      unfold sel in Ht. rewrite (selected_Permutation tasks req) in Ht.
      apply list_elem_of_In, List.filter_In in Ht as [Ht Hw].
      split; [by apply list_elem_of_In|exact Hw].
  - apply slice_None in Hs. fold total in Hs.
    destruct (Z_le_gt_dec ((page - 1) * ps + ps) maxInt) as [Hfit|Hover]; [exfalso|lia].
    assert (Hmax : (0 < maxInt)%Z) by (unfold maxInt; lia).
    assert (H0 : (0 <= (page - 1) * ps)%Z) by nia.
    assert (H1 : (page - 1 <= (page - 1) * ps)%Z) by nia.
    assert (Es : start = ((page - 1) * ps)%Z).
    { unfold start, int_mul, int_sub.
      rewrite (wrap64_small (page - 1)) by lia. apply wrap64_small. lia. }
    assert (Ee : end_ = ((page - 1) * ps + ps)%Z).
    { unfold end_, int_add. rewrite Es. apply wrap64_small. lia. }
    destruct (Z.ltb_spec total start), (Z.ltb_spec total end_); lia.
Qed.

Section WrapExamples.

Let mk (start : Z) : SyncTask :=
  mkSyncTask "t" "s" "d" "all" StatusPending "Task created" "" "" start None [] [].

(** Beyond the range of [int] the window is not always refused: for page
    3689348814741910325 of size 5 the product wraps around to 4, and the answer
    is the window [[4, 9)] of the tasks. *)
Example ListTasks_wrapped_page :
  option_map (fun r => option_map (fun resp => map sum_StartTime (Tasks resp)) r.1)
    (ListTasks (map (fun n => mk (Z.of_nat n)) (seq 0 12)) None
       (mkTaskListRequest 3689348814741910325 5 "" "startTime" "asc"))
  = Some (Some [4; 5; 6; 7; 8]%Z).
Proof. vm_compute. reflexivity. Qed.

End WrapExamples.


(* ===================================================================== *)
(** * [sanitizeCommand] on any argument vector *)
(* ===================================================================== *)

(** What comes in the place of a token that is not kept. *)
Definition isMasked (b : string) : Prop :=
  b = "***:***" \/ b = "--src-creds=***:***" \/ b = "--dest-creds=***:***".

Lemma inline_head (a : string) :
  isInlineCreds a = true ->
  hd "" (Split a "=") = "--src-creds" \/ hd "" (Split a "=") = "--dest-creds".
Proof.
  unfold isInlineCreds, HasPrefix. intros [H|H]%orb_true_iff;
    apply prefix_split in H as [r ->]; [left|right].
  - change ("--src-creds=" +:+ r) with ("--src-creds" +:+ String "=" r).
    by rewrite Split_app_sep.
  - change ("--dest-creds=" +:+ r) with ("--dest-creds" +:+ String "=" r).
    by rewrite Split_app_sep.
Qed.

Lemma sanitizeOne_cases (skipNext : bool) (a : string) :
  ((sanitizeOne skipNext a).1 = a \/ isMasked (sanitizeOne skipNext a).1)
  /\ (isInlineCreds a = true -> isMasked (sanitizeOne skipNext a).1).
Proof.
  unfold sanitizeOne, isMasked. fold (isInlineCreds a). fold (isSecretFlag a).
  destruct skipNext; [by split; [right|]; left|].
  destruct (isInlineCreds a) eqn:E.
  - destruct (inline_head a E) as [-> | ->]; split; try intros _; auto.
  - split; [|discriminate]. left. by destruct (isSecretFlag a).
Qed.

Lemma sanitizeOne_secret (skipNext : bool) (a : string) :
  isSecretFlag (sanitizeOne skipNext a).1 = true -> (sanitizeOne skipNext a).2 = true.
Proof.
  unfold sanitizeOne. fold (isInlineCreds a). fold (isSecretFlag a).
  destruct skipNext; [discriminate|].
  destruct (isInlineCreds a) eqn:E.
  - destruct (inline_head a E) as [-> | ->]; discriminate.
  - destruct (isSecretFlag a) eqn:F; simpl; congruence.
Qed.

Lemma sanitizeArgs_lookup (args : list string) : forall (skipNext : bool) (i : nat) (a : string),
  args !! i = Some a ->
  exists b, sanitizeArgs skipNext args !! i = Some b
            /\ (b = a \/ isMasked b) /\ (isInlineCreds a = true -> isMasked b).
Proof.
  induction args as [|a0 args IH]; intros skipNext i a Hi; [by rewrite lookup_nil in Hi|].
  rewrite sanitizeArgs_cons. destruct i as [|i]; simpl in Hi |- *.
  - injection Hi as ->. eexists. split; [reflexivity|]. apply sanitizeOne_cases.
  - by apply IH.
Qed.

Lemma sanitizeArgs_after_flag (args : list string) :
  forall (skipNext : bool) (i : nat) (f b : string),
    sanitizeArgs skipNext args !! i = Some f -> isSecretFlag f = true ->
    sanitizeArgs skipNext args !! S i = Some b -> b = "***:***".
Proof.
  induction args as [|a0 args IH]; intros skipNext i f b Hi Hf Hb; [destruct i; discriminate|].
  rewrite sanitizeArgs_cons in Hi, Hb. destruct i as [|i]; simpl in Hi, Hb.
  - injection Hi as Hi. rewrite <- Hi in Hf. apply sanitizeOne_secret in Hf.
    rewrite Hf in Hb. destruct args as [|a1 args]; [discriminate|].
    rewrite sanitizeArgs_cons in Hb. simpl in Hb. by injection Hb as <-.
  - exact (IH _ i f b Hi Hf Hb).
Qed.

(** X17.  [sanitizeCommand] on any argument vector, not only on those of
    [buildSkopeoArgs].  The sanitized vector has the length of the input, and
    each token stands at its place either unchanged or replaced by [***:***]
    or by [--src-creds=***:***] / [--dest-creds=***:***]; a token that starts
    with [--src-creds=] or [--dest-creds=] is always replaced; and whatever
    follows a [--creds], [--src-creds] or [--dest-creds] of the output is
    [***:***]. *)
Theorem sanitizeCommand_masks_every_form (args : list string) :
  let out := sanitizeArgs false args in
  sanitizeCommand args = "skopeo " +:+ Join out " "
  /\ length out = length args
  /\ (forall (i : nat) (a : string), args !! i = Some a ->
        exists b, out !! i = Some b
                  /\ (b = a \/ isMasked b) /\ (isInlineCreds a = true -> isMasked b))
  /\ (forall (i : nat) (f b : string),
        out !! i = Some f -> isSecretFlag f = true -> out !! S i = Some b ->
        b = "***:***").
Proof.
  intros out. split; [reflexivity|]. split; [apply sanitizeArgs_length|].
  split; [apply sanitizeArgs_lookup|apply sanitizeArgs_after_flag].
Qed.

Example sanitizeCommand_any_vector :
  sanitizeCommand ["login"; "--creds"; "u:p"; "--src-creds=u:p=q"; "--dest-creds"]
  = "skopeo login --creds ***:*** --src-creds=***:*** --dest-creds".
Proof. reflexivity. Qed.

(* ===================================================================== *)
(** * [readOutput]: line by line *)
(* ===================================================================== *)

Lemma Split_app (a b : string) (sep : ascii) :
  Split (a +:+ String sep b) sep = Split a sep ++ Split b sep.
Proof.
  induction a as [|c a IH].
  - change ("" +:+ String sep b) with (String sep b). simpl. by rewrite Ascii.eqb_refl.
  - change (String c a +:+ String sep b) with (String c (a +:+ String sep b)).
    simpl. rewrite IH. destruct (Ascii.eqb c sep); [reflexivity|].
    pose proof (Split_not_nil a sep) as Hne.
    by destruct (Split a sep) as [|h t].
Qed.

Lemma logged_app (l1 l2 : list string) :
  l2 <> [] -> logged (l1 ++ l2) = nonBlank (map TrimSpace l1) ++ logged l2.
Proof.
  intros Hne. induction l1 as [|l l1 IH]; [reflexivity|].
  assert (E : forall more, more <> [] ->
            logged (l :: more)
            = (if negb (String.eqb (TrimSpace l) "") then [TrimSpace l] else [])
              ++ logged more).
  { intros more Hm. by destruct more. }
  change ((l :: l1) ++ l2) with (l :: (l1 ++ l2)).
  rewrite E by (destruct l1; [exact Hne|discriminate]).
  rewrite IH. unfold nonBlank. simpl.
  by destruct (negb (String.eqb (TrimSpace l) "")).
Qed.

Lemma occurs_Split (s : string) (sep : ascii) :
  Forall (fun field => occurs sep field = false) (Split s sep).
Proof.
  induction s as [|c s IH]; [by constructor|]. simpl.
  destruct (Ascii.eqb c sep) eqn:E; [by constructor|].
  destruct (Split s sep) as [|h t]; [by (constructor; [simpl; rewrite Ascii.eqb_sym, E|])|].
  inversion IH as [|? ? Hh Ht]; subst. constructor; [|exact Ht].
  simpl. by rewrite Ascii.eqb_sym, E.
Qed.

Lemma occurs_dropBytes (c : ascii) (n : nat) : forall s : string,
  occurs c s = false -> occurs c (dropBytes n s) = false.
Proof.
  induction n as [|n IH]; intros s H; [by destruct s|].
  destruct s as [|d s]; [done|]. simpl in H. apply orb_false_iff in H as [_ H].
  simpl. by apply IH.
Qed.

Lemma occurs_trimWith (c : ascii) (pats : list string) (fuel : nat) : forall s : string,
  occurs c s = false -> occurs c (trimWith pats fuel s) = false.
Proof.
  induction fuel as [|fuel IH]; intros s H; [exact H|].
  simpl. destruct (dropSpace pats s) as [r|] eqn:E; [|exact H].
  apply IH. unfold dropSpace in E. destruct s as [|d s]; [discriminate|].
  destruct (asciiSpace d).
  - injection E as <-. simpl in H. by apply orb_false_iff in H as [_ H].
  - destruct (find _ pats); [|discriminate]. injection E as <-.
    by apply occurs_dropBytes.
Qed.

Lemma occurs_In (c : ascii) (s : string) :
  occurs c s = true <-> In c (list_ascii_of_string s).
Proof.
  induction s as [|d s IH]; simpl; [split; [discriminate|tauto]|].
  rewrite orb_true_iff, IH, Ascii.eqb_eq. split; intros [H|H]; auto.
Qed.

Lemma occurs_rev_string (c : ascii) (s : string) :
  occurs c (rev_string s) = occurs c s.
Proof.
  apply eq_true_iff_eq. rewrite !occurs_In. unfold rev_string.
  rewrite list_ascii_of_string_of_list_ascii. symmetry. apply in_rev.
Qed.

Lemma occurs_TrimSpace (c : ascii) (s : string) :
  occurs c s = false -> occurs c (TrimSpace s) = false.
Proof.
  intros H. unfold TrimSpace, TrimRightSpace, TrimLeftSpace.
  rewrite occurs_rev_string. apply occurs_trimWith.
  rewrite occurs_rev_string. by apply occurs_trimWith.
Qed.

Lemma logged_no_sep (fields : list string) :
  Forall (fun field => occurs LF field = false) fields ->
  Forall (fun line => occurs LF line = false) (logged fields).
Proof.
  induction fields as [|l more IH]; intros H; [constructor|].
  inversion H as [|? ? Hl Hmore]; subst.
  destruct more as [|m more].
  - simpl. destruct (negb (String.eqb l "")); constructor; [|constructor].
    by apply occurs_TrimSpace.
  - change (logged (l :: m :: more))
      with ((if negb (String.eqb (TrimSpace l) "") then [TrimSpace l] else [])
            ++ logged (m :: more)).
    apply Forall_app. split; [|by apply IH].
    destruct (negb (String.eqb (TrimSpace l) "")); constructor; [|constructor].
    by apply occurs_TrimSpace.
Qed.

(** X18.  [readOutput] works line by line.  What it logs for a stream does
    not depend on what follows a line feed: the lines logged for [a], a line
    feed and [b] are those logged for [a] with the line feed, followed by those
    logged for [b]; a stream that ends with a line feed adds no line for its
    empty tail; and no logged line holds a line feed. *)
Theorem readOutput_line_by_line (a b : string) :
  readOutput (a +:+ String LF b) = readOutput (a +:+ String LF "") ++ readOutput b
  /\ readOutput (a +:+ String LF "") = nonBlank (map TrimSpace (Split a LF))
  /\ Forall (fun line => occurs LF line = false) (readOutput b).
Proof.
  unfold readOutput. rewrite !readLoop_logged by lia.
  rewrite !Split_app. change (Split "" LF) with [""].
  rewrite !logged_app by (done || apply Split_not_nil).
  change (logged [""]) with (@nil string). rewrite app_nil_r.
  split; [reflexivity|]. split; [reflexivity|].
  apply logged_no_sep, occurs_Split.
Qed.

(* ===================================================================== *)
(** * internal/service: the inspection of an image *)
(* ===================================================================== *)

Module Inspect.

(** [strings.TrimPrefix(s, prefix)]. *)
Definition TrimPrefix (s prefix : string) : string :=
  if HasPrefix s prefix then dropBytes (String.length prefix) s else s.

(** [extractRegistryForInspect]. *)
Definition extractRegistryForInspect (imageURL : string) : string :=
  let imageURL := TrimPrefix imageURL "docker://" in
  match Split imageURL "/" with
  | [] => ""
  | registry :: _ =>
      if negb (ContainsB registry ".") && negb (ContainsB registry ":")
      then "docker.io" else registry
  end.

(** What [json.Unmarshal] stores in an [interface{}]: nil, a bool, a
    float64 (its value is never looked at here), a string, a slice or a map. *)
#[warnings="-register-all"]
Inductive json :=
| JNull
| JBool (b : bool)
| JNumber (n : Z)
| JString (s : string)
| JArray (l : list json)
| JObject (m : gmap string json).

(** The type assertions [v.(string)], [v.([]interface{})] and
    [v.(map[string]interface{})] on the result of a map lookup; a missing key
    gives nil, for which every assertion fails. *)
Definition asString (v : option json) : option string :=
  match v with Some (JString s) => Some s | _ => None end.

Definition asArray (v : option json) : option (list json) :=
  match v with Some (JArray l) => Some l | _ => None end.

Definition asObject (v : option json) : option (gmap string json) :=
  match v with Some (JObject m) => Some m | _ => None end.

(** One iteration of the loop over the manifests: what it appends. *)
Definition manifestArchitecture (manifest : json) : list string :=
  match asObject (Some manifest) with
  | Some m =>
      match asObject (m !! "platform") with
      | Some platform =>
          match asString (platform !! "os") with
          | Some os =>
              match asString (platform !! "architecture") with
              | Some arch =>
                  let archStr := os +:+ "/" +:+ arch in
                  let archStr :=
                    match asString (platform !! "variant") with
                    | Some variant =>
                        if negb (String.eqb variant "") then archStr +:+ "/" +:+ variant
                        else archStr
                    | None => archStr
                    end in
                  [archStr]
              | None => []
              end
          | None => []
          end
      | None => []
      end
  | None => []
  end.

Section ExtractArchitectures.

(** [strings.ToLower], which this development does not look into. *)
Variable ToLower : string -> string.

(** [extractArchitectures]. *)
Definition extractArchitectures (inspectResult : gmap string json) : list string :=
  let architectures := [] in
  match asArray (inspectResult !! "manifests") with
  | Some manifests =>
      foldl (fun architectures manifest => architectures ++ manifestArchitecture manifest)
            architectures manifests
  | None =>
      match asString (inspectResult !! "Architecture") with
      | Some arch =>
          match asString (inspectResult !! "Os") with
          | Some os => architectures ++ [ToLower os +:+ "/" +:+ arch]
          | None => architectures
          end
      | None => architectures
      end
  end.

End ExtractArchitectures.

(** A manifest of a manifest list as the registries write it: an object
    whose "platform" is an object with the strings "os" and "architecture" and,
    when [variant] is given, the string "variant"; and anything else besides. *)
Definition describes (manifest : json) (os arch : string) (variant : option string) : Prop :=
  exists m platform : gmap string json,
    manifest = JObject m /\ m !! "platform" = Some (JObject platform)
    /\ platform !! "os" = Some (JString os)
    /\ platform !! "architecture" = Some (JString arch)
    /\ asString (platform !! "variant") = variant.

(** The selector of a platform: [os/arch], or [os/arch/variant]. *)
Definition selector (os arch : string) (variant : option string) : string :=
  match variant with
  | Some v => if String.eqb v "" then os +:+ "/" +:+ arch
              else os +:+ "/" +:+ arch +:+ "/" +:+ v
  | None => os +:+ "/" +:+ arch
  end.

End Inspect.
Import Inspect.

Section InspectExamples.

Let lower (s : string) : string := s.

Example extractRegistry_examples :
  map extractRegistryForInspect
    ["docker://registry.example.com:5000/team/app:1"; "ghcr.io/owner/app"; "library/nginx";
     "nginx"; "nginx:latest"; "localhost/app"; ""]
  = ["registry.example.com:5000"; "ghcr.io"; "docker.io"; "docker.io"; "nginx:latest";
     "docker.io"; "docker.io"].
Proof. vm_compute. reflexivity. Qed.

Example extractArchitectures_manifest_list :
  extractArchitectures lower
    {[ "manifests" :=
         JArray [ JObject {[ "platform" := JObject {[ "os" := JString "linux";
                                                      "architecture" := JString "arm";
                                                      "variant" := JString "v7" ]} ]};
                  JObject {[ "digest" := JString "sha256:0" ]};
                  JObject {[ "platform" := JObject {[ "os" := JString "linux";
                                                      "architecture" := JString "amd64" ]} ]} ];
       "Architecture" := JString "s390x"; "Os" := JString "linux" ]}
  = ["linux/arm/v7"; "linux/amd64"].
Proof. vm_compute. reflexivity. Qed.

End InspectExamples.

(** ** The registry of an image reference *)

Lemma ContainsB_occurs (c : ascii) (s : string) :
  ContainsB s (String c "") = occurs c s.
Proof.
  induction s as [|d s IH]; [reflexivity|].
  change (ContainsB (String d s) (String c ""))
    with (String.prefix (String c "") (String d s) || ContainsB s (String c "")).
  rewrite IH. simpl. destruct (ascii_dec c d) as [->|Hne].
  - rewrite Ascii.eqb_refl. by destruct s.
  - destruct (Ascii.eqb_spec c d); [done|reflexivity].
Qed.

Lemma no_slash_no_scheme (s : string) :
  occurs "/" s = false -> TrimPrefix s "docker://" = s.
Proof.
  intros H. unfold TrimPrefix, HasPrefix.
  destruct (String.prefix "docker://" s) eqn:E; [|reflexivity].
  apply prefix_split in E as [r ->].
  change ("docker://" +:+ r) with ("docker:" +:+ String "/" (String "/" r)) in H.
  rewrite occurs_app in H. simpl in H. discriminate H.
Qed.

Lemma TrimPrefix_scheme (s : string) : TrimPrefix ("docker://" +:+ s) "docker://" = s.
Proof.
  unfold TrimPrefix, HasPrefix.
  assert (E : forall p : string, String.prefix p (p +:+ s) = true).
  { induction p as [|c p IH]; [by destruct s|]. simpl.
    destruct (ascii_dec c c); [exact IH|done]. }
  rewrite E. reflexivity.
Qed.

(** The registry that the first field of a reference stands for. *)
Definition registryOf (host : string) : string :=
  if occurs "." host || occurs ":" host then host else "docker.io".

Lemma extractRegistry_fields (s host : string) (more : list string) :
  Split (TrimPrefix s "docker://") "/" = host :: more ->
  extractRegistryForInspect s = registryOf host.
Proof.
  intros E. unfold extractRegistryForInspect, registryOf. cbv zeta. rewrite E.
  rewrite !ContainsB_occurs.
  by destruct (occurs "." host), (occurs ":" host).
Qed.

Lemma registryOf_facts (host : string) :
  occurs "/" host = false ->
  occurs "/" (registryOf host) = false
  /\ occurs "." (registryOf host) || occurs ":" (registryOf host) = true
  /\ registryOf (registryOf host) = registryOf host.
Proof.
  intros H. unfold registryOf.
  destruct (occurs "." host || occurs ":" host) eqn:E.
  - by rewrite E.
  - done.
Qed.

(** X19.  The registry [extractRegistryForInspect] names for any image
    reference holds no slash and holds a dot or a colon, and it is its own
    registry: the function gives it back unchanged. *)
Theorem extractRegistryForInspect_names_a_registry (imageURL : string) :
  let registry := extractRegistryForInspect imageURL in
  occurs "/" registry = false
  /\ occurs "." registry || occurs ":" registry = true
  /\ extractRegistryForInspect registry = registry.
Proof.
  intros registry. unfold registry.
  pose proof (occurs_Split (TrimPrefix imageURL "docker://") "/") as Hall.
  destruct (Split (TrimPrefix imageURL "docker://") "/") as [|host more] eqn:E;
    [by apply Split_not_nil in E|].
  inversion Hall as [|? ? Hhost _]; subst.
  rewrite (extractRegistry_fields imageURL host more E).
  destruct (registryOf_facts host Hhost) as (H1 & H2 & H3).
  split; [exact H1|]. split; [exact H2|].
  rewrite (extractRegistry_fields (registryOf host) (registryOf host) []); [exact H3|].
  rewrite no_slash_no_scheme by exact H1. by apply Split_no_sep.
Qed.

(** X20.  Which registry it is.  For a reference [host/path], with or
    without the scheme [docker://], and for a reference without any slash, the
    registry is the first field when that holds a dot or a colon and
    [docker.io] otherwise: so [localhost/app] is looked up at [docker.io], and
    the registry of [nginx:latest] is [nginx:latest]. *)
Theorem extractRegistryForInspect_first_field (host path : string) :
  occurs "/" host = false ->
  extractRegistryForInspect ("docker://" +:+ host +:+ "/" +:+ path) = registryOf host
  /\ extractRegistryForInspect ("docker://" +:+ host) = registryOf host
  /\ extractRegistryForInspect host = registryOf host
  /\ (host <> "docker:" ->
      extractRegistryForInspect (host +:+ "/" +:+ path) = registryOf host).
Proof.
  intros Hhost.
  assert (Hsplit : Split (host +:+ "/" +:+ path) "/" = host :: Split path "/").
  { change (host +:+ "/" +:+ path) with (host +:+ String "/" path).
    by apply Split_app_sep. }
  split; [|split; [|split]].
  - apply (extractRegistry_fields _ host (Split path "/")).
    by rewrite TrimPrefix_scheme.
  - apply (extractRegistry_fields _ host []).
    rewrite TrimPrefix_scheme. by apply Split_no_sep.
  - apply (extractRegistry_fields _ host []).
    rewrite no_slash_no_scheme by exact Hhost. by apply Split_no_sep.
  - intros Hne. apply (extractRegistry_fields _ host (Split path "/")).
    unfold TrimPrefix, HasPrefix.
    destruct (String.prefix "docker://" (host +:+ "/" +:+ path)) eqn:E; [|exact Hsplit].
    exfalso. apply prefix_split in E as [r E].
    apply (f_equal (fun s => Split s "/")) in E. rewrite Hsplit in E.
    change ("docker://" +:+ r) with ("docker:" +:+ String "/" (String "/" r)) in E.
    rewrite Split_app_sep in E by reflexivity. by injection E as E _.
Qed.

Lemma extractRegistryForInspect_first_field_witness :
  extractRegistryForInspect ("docker://" +:+ "localhost" +:+ "/" +:+ "app:1") = "docker.io"
  /\ extractRegistryForInspect ("docker://" +:+ "localhost") = "docker.io"
  /\ extractRegistryForInspect "localhost" = "docker.io"
  /\ ("localhost" <> "docker:" ->
      extractRegistryForInspect ("localhost" +:+ "/" +:+ "app:1") = "docker.io").
Proof. exact (extractRegistryForInspect_first_field "localhost" "app:1" eq_refl). Defined.

(** ** The architectures of a manifest *)

Lemma foldl_manifests (ms : list json) : forall acc : list string,
  foldl (fun architectures manifest => architectures ++ manifestArchitecture manifest) acc ms
  = acc ++ flat_map manifestArchitecture ms.
Proof.
  induction ms as [|m ms IH]; intros acc; simpl; [by rewrite app_nil_r|].
  by rewrite IH, <- app_assoc.
Qed.

Lemma manifestArchitecture_length (m : json) : (length (manifestArchitecture m) <= 1)%nat.
Proof.
  unfold manifestArchitecture.
  destruct (asObject (Some m)) as [o|]; [|simpl; lia].
  destruct (asObject (o !! "platform")) as [p|]; [|simpl; lia].
  destruct (asString (p !! "os")); [|simpl; lia].
  destruct (asString (p !! "architecture")); simpl; lia.
Qed.

Lemma append_assoc (a b c : string) : (a +:+ b) +:+ c = a +:+ (b +:+ c).
Proof. induction a as [|x a IH]; [reflexivity|]. simpl. by rewrite IH. Qed.

Lemma manifestArchitecture_describes (m : json) (os arch : string) (variant : option string) :
  describes m os arch variant -> manifestArchitecture m = [selector os arch variant].
Proof.
  intros (o & p & -> & Hp & Hos & Harch & Hvar).
  unfold manifestArchitecture, selector.
  change (asObject (Some (JObject o))) with (Some o). cbv beta iota.
  rewrite Hp. change (asObject (Some (JObject p))) with (Some p). cbv beta iota.
  rewrite Hos, Harch.
  change (asString (Some (JString os))) with (Some os).
  change (asString (Some (JString arch))) with (Some arch). cbv beta iota zeta.
  rewrite Hvar.
  destruct variant as [v|]; [|reflexivity].
  destruct (String.eqb v ""); [reflexivity|].
  cbv beta iota. unfold negb. by rewrite !append_assoc.
Qed.

(** X21.  The architectures of a manifest list.  When "manifests" is an
    array, [extractArchitectures] reports at most one architecture per manifest
    and none from the top-level "Architecture" and "Os" (none at all for the
    empty array); and when every manifest has a platform with the strings "os"
    and "architecture", it reports for each manifest, in the order of the list,
    [os/arch], with [/variant] added when the variant is a non-empty string. *)
Theorem extractArchitectures_lists_platforms (ToLower : string -> string)
    (inspectResult : gmap string json) (manifests : list json)
    (platforms : list (string * string * option string)) :
  inspectResult !! "manifests" = Some (JArray manifests) ->
  (length (extractArchitectures ToLower inspectResult) <= length manifests)%nat
  /\ (Forall2 (fun m p => describes m p.1.1 p.1.2 p.2) manifests platforms ->
      extractArchitectures ToLower inspectResult
      = map (fun p => selector p.1.1 p.1.2 p.2) platforms).
Proof.
  intros Hm. unfold extractArchitectures. rewrite Hm.
  change (asArray (Some (JArray manifests))) with (Some manifests). cbv beta iota zeta.
  rewrite foldl_manifests. change ([] ++ flat_map manifestArchitecture manifests)
    with (flat_map manifestArchitecture manifests). split.
  - clear Hm. induction manifests as [|m ms IH]; [simpl; lia|].
    simpl. rewrite length_app. pose proof (manifestArchitecture_length m). lia.
  - clear Hm. induction 1 as [|m p ms ps Hd _ IH]; [reflexivity|].
    simpl. by rewrite (manifestArchitecture_describes _ _ _ _ Hd), IH.
Qed.

Lemma extractArchitectures_lists_platforms_witness :
  let arm := JObject {[ "platform" := JObject {[ "os" := JString "linux";
                                                 "architecture" := JString "arm";
                                                 "variant" := JString "v7" ]} ]} in
  let amd := JObject {[ "platform" := JObject {[ "os" := JString "linux";
                                                 "architecture" := JString "amd64" ]} ]} in
  let inspectResult : gmap string json :=
    {[ "manifests" := JArray [arm; amd]; "Architecture" := JString "s390x";
       "Os" := JString "linux" ]} in
  extractArchitectures (fun s => s) inspectResult = ["linux/arm/v7"; "linux/amd64"].
Proof.
  intros arm amd inspectResult.
  apply (extractArchitectures_lists_platforms (fun s => s) inspectResult [arm; amd]
           [("linux", "arm", Some "v7"); ("linux", "amd64", None)] eq_refl).
  constructor; [|constructor; [|constructor]].
  - eexists _, _. split; [reflexivity|]. repeat split.
  - eexists _, _. split; [reflexivity|]. repeat split.
Defined.

(** X22.  An architecture reported by the inspection selects itself.  When a
    task's architecture is what [extractArchitectures] reports for a manifest
    whose "os", "architecture" and variant hold no slash, the command built for
    the task has the architecture options [--override-os os] and
    [--override-arch arch], and [--override-variant variant] for a non-empty
    variant, and no other. *)
Theorem inspected_architecture_selects_itself (manifest : json) (os arch : string)
    (variant : option string) (task : SyncTask) (req : SyncRequest) :
  describes manifest os arch variant ->
  occurs "/" os = false -> occurs "/" arch = false ->
  (forall v, variant = Some v -> occurs "/" v = false) ->
  manifestArchitecture manifest = [Architecture task] ->
  archOptions (buildSkopeoArgs task req).1
  = [("--override-os", Some os); ("--override-arch", Some arch)]
    ++ match variant with
       | Some v => if String.eqb v "" then [] else [("--override-variant", Some v)]
       | None => []
       end.
Proof.
  intros Hd Hos Harch Hvar Hsel.
  rewrite (manifestArchitecture_describes _ _ _ _ Hd) in Hsel. injection Hsel as Hsel.
  rewrite archOptions_layout, <- Hsel. unfold archOpts, selector.
  destruct variant as [v|]; [destruct (String.eqb_spec v "") as [->|Hv]|].
  - change (os +:+ "/" +:+ arch) with (os +:+ String "/" arch).
    rewrite selector_not_all, selector_not_empty, Split_app_sep by done.
    by rewrite Split_no_sep.
  - change (os +:+ "/" +:+ arch +:+ "/" +:+ v)
      with (os +:+ String "/" (arch +:+ String "/" v)).
    rewrite selector_not_all, selector_not_empty, !Split_app_sep by done.
    rewrite Split_no_sep by (by apply Hvar). reflexivity.
  - change (os +:+ "/" +:+ arch) with (os +:+ String "/" arch).
    rewrite selector_not_all, selector_not_empty, Split_app_sep by done.
    by rewrite Split_no_sep.
Qed.

Lemma inspected_architecture_selects_itself_witness :
  let arm := JObject {[ "platform" := JObject {[ "os" := JString "linux";
                                                 "architecture" := JString "arm";
                                                 "variant" := JString "v7" ]} ]} in
  let task := NewSyncTask 0 "id" "a" "b" "linux/arm/v7" in
  let req := mkSyncRequest "a" "b" "" "" "" "" "linux/arm/v7" None None None in
  archOptions (buildSkopeoArgs task req).1
  = [("--override-os", Some "linux"); ("--override-arch", Some "arm");
     ("--override-variant", Some "v7")].
Proof.
  intros arm task req.
  apply (inspected_architecture_selects_itself arm "linux" "arm" (Some "v7") task req).
  - eexists _, _. split; [reflexivity|]. repeat split.
  - reflexivity.
  - reflexivity.
  - intros v [= <-]. reflexivity.
  - reflexivity.
Defined.

(* ===================================================================== *)
(** * [buildSkopeoArgs]: the notes in the log and the command *)
(* ===================================================================== *)

(** The command has an option of this name, read as the tool reads it. *)
Definition hasOption (flag : string) (args : list string) : bool :=
  existsb (fun o => String.eqb o.1 flag) (options args).

Definition hasNote (note : string) (logs : list string) : bool :=
  existsb (String.eqb note) logs.

Definition given (user pass : string) : bool :=
  negb (String.eqb user "") && negb (String.eqb pass "").

Definition archNotes (architecture : string) : list string :=
  if String.eqb architecture "all" then ["Copying all architectures"]
  else if negb (String.eqb architecture "") then
    match Split architecture "/" with
    | _ :: _ :: _ => ["Copying architecture: " +:+ architecture]
    | _ => []
    end
  else [].

Lemma buildSkopeoArgs_notes (task : SyncTask) (req : SyncRequest) :
  (buildSkopeoArgs task req).2
  = (if given (SourceUsername req) (SourcePassword req) then ["Using source credentials"] else [])
    ++ (if given (DestUsername req) (DestPassword req)
        then ["Using destination credentials"] else [])
    ++ archNotes (Architecture task).
Proof.
  unfold buildSkopeoArgs, given, archNotes.
  destruct (negb (String.eqb (SourceUsername req) "") && negb (String.eqb (SourcePassword req) ""));
  destruct (negb (String.eqb (DestUsername req) "") && negb (String.eqb (DestPassword req) ""));
  destruct (String.eqb (Architecture task) "all");
  destruct (negb (String.eqb (Architecture task) ""));
  destruct (Split (Architecture task) "/") as [|p0 [|p1 [|p2 more]]];
  reflexivity.
Qed.

Lemma existsb_flag_tls (flag : string) (req : SyncRequest) :
  HasPrefix flag "--src-creds" || HasPrefix flag "--dest-creds" || String.eqb flag "--all"
  || String.eqb flag "--override-os" = true ->
  existsb (fun o : string * option string => String.eqb o.1 flag)
    (map (fun a => (a, None)) (tlsArgs req)) = false.
Proof.
  intros H. unfold tlsArgs.
  destruct (default true (SrcTLSVerify req)), (default true (DestTLSVerify req));
    cbn [map existsb fst fmtBool];
    rewrite !orb_false_r; apply orb_false_iff; split;
      try (apply orb_false_iff; split); apply String.eqb_neq; intros <-;
      discriminate H.
Qed.

Lemma existsb_flag_images (flag : string) (task : SyncTask) :
  HasPrefix flag "-" = true ->
  existsb (fun o : string * option string => String.eqb o.1 flag)
    (map (fun a => (a, None)) (imageArgs task)) = false.
Proof.
  intros H. unfold imageArgs. cbn [map existsb fst].
  rewrite !orb_false_r; apply orb_false_iff; split; apply String.eqb_neq; intros <-;
    discriminate H.
Qed.

(** X23.  The notes [buildSkopeoArgs] writes to the log tell what the
    command does: "Using source credentials" is logged exactly when the command
    has the option [--src-creds], "Using destination credentials" exactly when
    it has [--dest-creds], "Copying all architectures" exactly when it has
    [--all], and "Copying architecture: ..." with the task's architecture
    exactly when it has [--override-os]. *)
Theorem buildSkopeoArgs_notes_match_command (task : SyncTask) (req : SyncRequest) :
  let args := (buildSkopeoArgs task req).1 in
  let logs := (buildSkopeoArgs task req).2 in
  hasNote "Using source credentials" logs = hasOption "--src-creds" args
  /\ hasNote "Using destination credentials" logs = hasOption "--dest-creds" args
  /\ hasNote "Copying all architectures" logs = hasOption "--all" args
  /\ hasNote ("Copying architecture: " +:+ Architecture task) logs
     = hasOption "--override-os" args.
Proof.
  intros args logs. unfold args, logs, hasNote, hasOption.
  rewrite buildSkopeoArgs_notes, options_layout, !existsb_app.
  rewrite !existsb_flag_tls, !existsb_flag_images by reflexivity.
  unfold credOpts. fold (given (SourceUsername req) (SourcePassword req)).
  fold (given (DestUsername req) (DestPassword req)).
  unfold archNotes, archOpts.
  destruct (given (SourceUsername req) (SourcePassword req)),
           (given (DestUsername req) (DestPassword req)),
           (String.eqb (Architecture task) "all"),
           (negb (String.eqb (Architecture task) ""));
    try destruct (Split (Architecture task) "/") as [|p0 [|p1 [|p2 more]]];
    cbn [existsb app fst orb]; rewrite ?String.eqb_refl;
    (split; [reflexivity|split; [reflexivity|split; reflexivity]]).
Qed.
